(** * NBON: a tagged binary value codec (nbon.h)

    A shallow embedding of the [nbon::Writer] and [nbon::Reader] classes of
    [cpp/include/nbon.h], and the properties of the wire format that the
    specification states about them.

    Conventions of the embedding.
    - A byte on a stream is a [Z] in [0, 256).  A [char] is represented by
      its unsigned byte value: the source only compares chars for equality
      or against ASCII ranges and converts them back with [(unsigned char)],
      so the signedness of [char] is not observable.
    - [uint64_t], [uint32_t] and [int64_t] are [Z] with the wrap-around
      written out ([uint64], [uint32], [int64]).  [size_t] is 64 bits wide.
    - A [float] / [double] is its IEEE754 bit pattern (what [memcpy] copies
      into the [uint32_t] / [uint64_t]).
    - The [std::ostream] is the list of bytes written so far; the
      [std::istream] is the list of bytes not yet consumed.
    - [Writer] and [Reader] objects live in a store of [ready_] flags and are
      named by their address, because callbacks may capture the parent
      object by reference while a child object is in use.
    - A C++ exception is the outcome [Throw]; the stream keeps every effect
      that happened before the throw. *)

From Stdlib Require Import ZArith Lia List Ascii String Bool.
From stdpp Require Import base list.
Import ListNotations.

Local Open Scope Z_scope.

(** ** Machine integers and characters *)

(** Conversion to [uint64_t]. *)
Definition uint64 (z : Z) : Z := z mod 2 ^ 64.

(** Conversion to [uint32_t]. *)
Definition uint32 (z : Z) : Z := z mod 2 ^ 32.

(** Conversion to [int64_t] (two's complement). *)
Definition int64 (z : Z) : Z := (z + 2 ^ 63) mod 2 ^ 64 - 2 ^ 63.

(** Conversion to [unsigned char], and the byte a [(char)] cast writes. *)
Definition uchar (z : Z) : Z := z mod 256.

(** [std::numeric_limits<int64_t>::min()] and [max()]. *)
Definition INT64_MIN : Z := - 2 ^ 63.
Definition INT64_MAX : Z := 2 ^ 63 - 1.

(** A character literal. *)
Definition chr (a : ascii) : Z := Z.of_N (N_of_ascii a).

(** ** Exceptions and outcomes *)

Inductive exn : Type :=
| LogicError
| ParseError (what : string).

(** The outcome of a call: a normal return, a thrown exception, behaviour the
    C++ standard leaves undefined, or a loop of the model that was not given
    enough fuel. *)
Inductive outcome (A : Type) : Type :=
| Ok (a : A)
| Throw (e : exn)
| Undefined
| OutOfFuel.
Arguments Ok {A} a.
Arguments Throw {A} e.
Arguments Undefined {A}.
Arguments OutOfFuel {A}.

(** A computation over a state [St]: the state survives an exception. *)
Definition M (St A : Type) : Type := St -> St * outcome A.

Definition ret {St A} (a : A) : M St A := fun s => (s, Ok a).

Definition bind {St A B} (c : M St A) (k : A -> M St B) : M St B :=
  fun s =>
    match c s with
    | (s', Ok a) => k a s'
    | (s', Throw e) => (s', Throw e)
    | (s', Undefined) => (s', Undefined)
    | (s', OutOfFuel) => (s', OutOfFuel)
    end.

Definition throw {St A} (e : exn) : M St A := fun s => (s, Throw e).
Definition undefined {St A} : M St A := fun s => (s, Undefined).
Definition out_of_fuel {St A} : M St A := fun s => (s, OutOfFuel).

Declare Scope nbon_scope.
Delimit Scope nbon_scope with nbon.
Notation "x <- c ;; k" := (bind c (fun x => k))
  (at level 100, c at next level, right associativity) : nbon_scope.
Notation "c ;; k" := (bind c (fun _ => k))
  (at level 100, right associativity) : nbon_scope.
Local Open Scope nbon_scope.

(** Forget the value a computation returns, keeping state and outcome. *)
Definition void {St A} (c : M St A) : M St unit := x <- c ;; ret tt.

(** ** The object store *)

(** The [ready_] field of every [Writer] (or [Reader]) object constructed so
    far, indexed by the object's address. *)
Abbreviation store := (list bool).

(** ** Writer *)

Record wstate : Type := mk_wstate {
  os_ : list Z;          (* the bytes written to [*os_] so far *)
  wready_ : store        (* [ready_] of the [Writer] objects *)
}.

Definition Writer : Type := nat.

(** [Writer(os)]: a new object, [ready_ = true]. *)
Definition new_Writer : M wstate Writer :=
  fun s => (mk_wstate (os_ s) (wready_ s ++ [true]), Ok (length (wready_ s))).

(** [*os_ << (char)c]. *)
Definition os_put (c : Z) : M wstate unit :=
  fun s => (mk_wstate (os_ s ++ [uchar c]) (wready_ s), Ok tt).

(** [os_->write(data, length)]. *)
Definition os_write (data : list Z) : M wstate unit :=
  fun s => (mk_wstate (os_ s ++ map uchar data) (wready_ s), Ok tt).

(** [ready_ = b] on the object [w]. *)
Definition Writer_set_ready (w : Writer) (b : bool) : M wstate unit :=
  fun s => (mk_wstate (os_ s) (<[w := b]> (wready_ s)), Ok tt).

(** [Writer::checkReady].  Using an address that holds no object is
    undefined. *)
Definition Writer_checkReady (w : Writer) : M wstate unit :=
  fun s =>
    match wready_ s !! w with
    | Some true => (s, Ok tt)
    | Some false => (s, Throw LogicError)
    | None => (s, Undefined)
    end.

(** The characters of a C string: [str] up to its first NUL. *)
Fixpoint c_str (str : list Z) : list Z :=
  match str with
  | [] => []
  | c :: str' => if uchar c =? 0 then [] else c :: c_str str'
  end.

(** [Writer::writeLEB128]: the do-while loop.  [num] is a [uint64_t], which
    ten shifts by 7 exhaust; the loop is given that many turns. *)
Fixpoint writeLEB128_loop (fuel : nat) (num : Z) : M wstate unit :=
  match fuel with
  | O => out_of_fuel
  | S fuel' =>
      let hi := uchar (if 127 <? num then 128 else 0) in
      os_put (Z.lor hi (uchar (Z.land num 127))) ;;
      let num := Z.shiftr num 7 in
      if negb (num =? 0) then writeLEB128_loop fuel' num else ret tt
  end.

Definition Writer_writeLEB128 (num : Z) : M wstate unit :=
  writeLEB128_loop 10 (uint64 num).

Definition Writer_writeTrue (w : Writer) : M wstate unit :=
  Writer_checkReady w ;;
  os_put (chr "T").

Definition Writer_writeFalse (w : Writer) : M wstate unit :=
  Writer_checkReady w ;;
  os_put (chr "F").

Definition Writer_writeBool (w : Writer) (b : bool) : M wstate unit :=
  Writer_checkReady w ;;
  if b then Writer_writeTrue w else Writer_writeFalse w.

Definition Writer_writeNull (w : Writer) : M wstate unit :=
  Writer_checkReady w ;;
  os_put (chr "N").

Definition Writer_writeString (w : Writer) (str : list Z) : M wstate unit :=
  Writer_checkReady w ;;
  os_put (chr "S") ;;
  os_write (c_str str) ;;
  os_put 0.

(** [f] is the bit pattern of the [float], i.e. [n] after the [memcpy]. *)
Definition Writer_writeFloat (w : Writer) (f : Z) : M wstate unit :=
  Writer_checkReady w ;;
  let n := uint32 f in
  os_put (chr "f") ;;
  os_put (Z.shiftr (Z.land n 0x000000ff) 0) ;;
  os_put (Z.shiftr (Z.land n 0x0000ff00) 8) ;;
  os_put (Z.shiftr (Z.land n 0x00ff0000) 16) ;;
  os_put (Z.shiftr (Z.land n 0xff000000) 24).

(** [d] is the bit pattern of the [double]. *)
Definition Writer_writeDouble (w : Writer) (d : Z) : M wstate unit :=
  Writer_checkReady w ;;
  let n := uint64 d in
  os_put (chr "d") ;;
  os_put (Z.shiftr (Z.land n 0x00000000000000ff) 0) ;;
  os_put (Z.shiftr (Z.land n 0x000000000000ff00) 8) ;;
  os_put (Z.shiftr (Z.land n 0x0000000000ff0000) 16) ;;
  os_put (Z.shiftr (Z.land n 0x00000000ff000000) 24) ;;
  os_put (Z.shiftr (Z.land n 0x000000ff00000000) 32) ;;
  os_put (Z.shiftr (Z.land n 0x0000ff0000000000) 40) ;;
  os_put (Z.shiftr (Z.land n 0x00ff000000000000) 48) ;;
  os_put (Z.shiftr (Z.land n 0xff00000000000000) 56).

(** [data] holds the [length] bytes at [data]. *)
Definition Writer_writeBinary (w : Writer) (data : list Z) : M wstate unit :=
  Writer_checkReady w ;;
  os_put (chr "B") ;;
  Writer_writeLEB128 (Z.of_nat (length data)) ;;
  os_write data.

Definition Writer_writeInt (w : Writer) (num : Z) : M wstate unit :=
  Writer_checkReady w ;;
  if num =? INT64_MIN then
    os_put (chr "-") ;;
    Writer_writeLEB128 (uint64 (uint64 INT64_MAX + uint64 1))
  else if num <? 0 then
    os_put (chr "-") ;;
    Writer_writeLEB128 (int64 (- num))
  else if num <=? 9 then
    os_put (chr "0" + num)
  else
    os_put (chr "+") ;;
    Writer_writeLEB128 num.

Definition Writer_writeUInt (w : Writer) (num : Z) : M wstate unit :=
  Writer_checkReady w ;;
  if num <=? 9 then
    os_put (chr "0" + num)
  else
    os_put (chr "+") ;;
    Writer_writeLEB128 num.

Definition Writer_writeArray (w : Writer) (func : Writer -> M wstate unit)
  : M wstate unit :=
  Writer_checkReady w ;;
  os_put (chr "[") ;;
  Writer_set_ready w false ;;
  c <- new_Writer ;;
  func c ;;
  Writer_set_ready w true ;;
  os_put (chr "]").

(** An [ObjectWriter] holds only the stream pointer. *)
Definition ObjectWriter : Type := unit.

Definition Writer_writeObject (w : Writer)
  (func : ObjectWriter -> M wstate unit) : M wstate unit :=
  Writer_checkReady w ;;
  os_put (chr "{") ;;
  Writer_set_ready w false ;;
  func tt ;;
  Writer_set_ready w true ;;
  os_put (chr "}").

Definition ObjectWriter_key (o : ObjectWriter) (key : list Z)
  : M wstate Writer :=
  os_write (c_str key) ;;
  os_put 0 ;;
  new_Writer.

(** ** Reader *)

Inductive Type_ : Type :=
| BOOL | NIL | STRING | BINARY | FLOAT | DOUBLE | INT | UINT | ARRAY | OBJECT.

Record rstate : Type := mk_rstate {
  is_ : list Z;          (* the bytes of [*is_] not yet consumed *)
  rready_ : store        (* [ready_] of the [Reader] objects *)
}.

Definition Reader : Type := nat.

Definition EOF : Z := -1.

(** [Reader(is)]: a new object, [ready_ = true]. *)
Definition new_Reader : M rstate Reader :=
  fun s => (mk_rstate (is_ s) (rready_ s ++ [true]), Ok (length (rready_ s))).

(** Passing a [Reader] by value: a new object with the same [ready_]. *)
Definition Reader_copy (r : Reader) : M rstate Reader :=
  fun s =>
    match rready_ s !! r with
    | Some b => (mk_rstate (is_ s) (rready_ s ++ [b]), Ok (length (rready_ s)))
    | None => (s, Undefined)
    end.

(** [is_->get()]. *)
Definition is_get : M rstate Z :=
  fun s =>
    match is_ s with
    | [] => (s, Ok EOF)
    | c :: rest => (mk_rstate rest (rready_ s), Ok (uchar c))
    end.

(** [is_->peek()]. *)
Definition is_peek : M rstate Z :=
  fun s =>
    match is_ s with
    | [] => (s, Ok EOF)
    | c :: _ => (s, Ok (uchar c))
    end.

(** A loop that only reads: it runs on the unread input and returns what is
    left of it. *)
Definition on_input {A} (loop : list Z -> list Z * outcome A) : M rstate A :=
  fun s => let '(rest, o) := loop (is_ s) in (mk_rstate rest (rready_ s), o).

Definition Reader_set_ready (r : Reader) (b : bool) : M rstate unit :=
  fun s => (mk_rstate (is_ s) (<[r := b]> (rready_ s)), Ok tt).

(** [Reader::checkReady]. *)
Definition Reader_checkReady (r : Reader) : M rstate unit :=
  fun s =>
    match rready_ s !! r with
    | Some true => (s, Ok tt)
    | Some false => (s, Throw LogicError)
    | None => (s, Undefined)
    end.

(** [Reader::next] (private): one char, or a [ParseError] at end of input. *)
Definition Reader_next : M rstate Z :=
  ch <- is_get ;;
  if ch =? EOF then throw (ParseError "Unexpected EOF") else ret ch.

(** [Reader::nextLEB128] (private): each turn of the do-while loop is one
    [next()].  A shift of a [uint64_t] by 64 or more is undefined. *)
Fixpoint nextLEB128_loop (input : list Z) (num shift : Z)
  : list Z * outcome Z :=
  match input with
  | [] => ([], Throw (ParseError "Unexpected EOF"))
  | c :: rest =>
      let ch := uchar c in
      if 64 <=? shift then (rest, Undefined) else
      let num := Z.lor num (uint64 (Z.shiftl (Z.land ch 127) shift)) in
      let shift := uint64 (shift + 7) in
      if 128 <=? ch then nextLEB128_loop rest num shift else (rest, Ok num)
  end.

Definition Reader_nextLEB128 : M rstate Z :=
  on_input (fun input => nextLEB128_loop input 0 0).

Definition Reader_hasNext (r : Reader) : M rstate bool :=
  ch <- is_peek ;;
  ret (negb (ch =? EOF)).

Definition Reader_getType (r : Reader) : M rstate Type_ :=
  Reader_checkReady r ;;
  ch <- is_peek ;;
  if ch =? EOF then throw (ParseError "Unexpected EOF")
  else if (ch =? chr "T") || (ch =? chr "F") then ret BOOL
  else if ch =? chr "N" then ret NIL
  else if ch =? chr "f" then ret FLOAT
  else if ch =? chr "d" then ret DOUBLE
  else if ch =? chr "S" then ret STRING
  else if ch =? chr "B" then ret BINARY
  else if (ch =? chr "+") || ((chr "0" <=? ch) && (ch <=? chr "9")) then ret UINT
  else if ch =? chr "-" then ret INT
  else if ch =? chr "[" then ret ARRAY
  else if ch =? chr "{" then ret OBJECT
  else throw (ParseError "Unexpected character").

Definition Reader_getBool (r : Reader) : M rstate bool :=
  Reader_checkReady r ;;
  ch <- is_get ;;
  if ch =? chr "T" then ret true
  else if ch =? chr "F" then ret false
  else throw (ParseError "getBool: Expected 'T' or 'F'").

Definition Reader_getNil (r : Reader) : M rstate unit :=
  Reader_checkReady r ;;
  ch <- is_get ;;
  if negb (ch =? chr "N") then throw (ParseError "skipNil: Expected 'N'")
  else ret tt.

(** The loop of [getString]: [while ((ch = next())) s += ch]. *)
Fixpoint getString_loop (input : list Z) (s : list Z)
  : list Z * outcome (list Z) :=
  match input with
  | [] => ([], Throw (ParseError "Unexpected EOF"))
  | c :: rest =>
      let ch := uchar c in
      if negb (ch =? 0) then getString_loop rest (s ++ [ch]) else (rest, Ok s)
  end.

Definition Reader_getString (r : Reader) : M rstate (list Z) :=
  Reader_checkReady r ;;
  ch <- is_get ;;
  if negb (ch =? chr "S") then throw (ParseError "getString: Expected 'S'")
  else on_input (fun input => getString_loop input []).

(** The loop of [skipString]: [while (next())]. *)
Fixpoint skipString_loop (input : list Z) : list Z * outcome unit :=
  match input with
  | [] => ([], Throw (ParseError "Unexpected EOF"))
  | c :: rest =>
      if negb (uchar c =? 0) then skipString_loop rest else (rest, Ok tt)
  end.

Definition Reader_skipString (r : Reader) : M rstate unit :=
  Reader_checkReady r ;;
  ch <- is_get ;;
  if negb (ch =? chr "S") then throw (ParseError "skipString: Expected 'S'")
  else on_input skipString_loop.

(** The loop of [getBinary]: [while (bin.size() < size) bin.push_back(next())]. *)
Fixpoint getBinary_loop (input : list Z) (size : Z) (bin : list Z)
  : list Z * outcome (list Z) :=
  match input with
  | [] =>
      if Z.of_nat (length bin) <? size
      then ([], Throw (ParseError "Unexpected EOF")) else ([], Ok bin)
  | c :: rest =>
      if Z.of_nat (length bin) <? size
      then getBinary_loop rest size (bin ++ [uchar c]) else (input, Ok bin)
  end.

Definition Reader_getBinary (r : Reader) : M rstate (list Z) :=
  Reader_checkReady r ;;
  ch <- is_get ;;
  if negb (ch =? chr "B") then throw (ParseError "getString: Expected 'B'")
  else
    size <- Reader_nextLEB128 ;;
    on_input (fun input => getBinary_loop input (uint64 size) []).

(** The loop of [skipBinary]: [while (size > 0) { next(); size -= 1; }]. *)
Fixpoint skipBinary_loop (input : list Z) (size : Z) : list Z * outcome unit :=
  match input with
  | [] =>
      if 0 <? size
      then ([], Throw (ParseError "Unexpected EOF")) else ([], Ok tt)
  | c :: rest =>
      if 0 <? size then skipBinary_loop rest (size - 1) else (input, Ok tt)
  end.

Definition Reader_skipBinary (r : Reader) : M rstate unit :=
  Reader_checkReady r ;;
  ch <- is_get ;;
  if negb (ch =? chr "B") then throw (ParseError "skipBinary: Expected 'B'")
  else
    size <- Reader_nextLEB128 ;;
    on_input (fun input => skipBinary_loop input (uint64 size)).

(** Returns the bit pattern of the [float]. *)
Definition Reader_getFloat (r : Reader) : M rstate Z :=
  Reader_checkReady r ;;
  ch <- is_get ;;
  if negb (ch =? chr "f") then throw (ParseError "nextFloat: Expected 'f'")
  else
    let n := 0 in
    b <- Reader_next ;; let n := Z.lor n (uint32 (Z.shiftl (uchar b) 0)) in
    b <- Reader_next ;; let n := Z.lor n (uint32 (Z.shiftl (uchar b) 8)) in
    b <- Reader_next ;; let n := Z.lor n (uint32 (Z.shiftl (uchar b) 16)) in
    b <- Reader_next ;; let n := Z.lor n (uint32 (Z.shiftl (uchar b) 24)) in
    ret n.

(** Returns the bit pattern of the [double]. *)
Definition Reader_getDouble (r : Reader) : M rstate Z :=
  Reader_checkReady r ;;
  ch <- is_get ;;
  if negb (ch =? chr "d") then throw (ParseError "nextDouble: Expected 'd'")
  else
    let n := 0 in
    b <- Reader_next ;; let n := Z.lor n (uint64 (Z.shiftl (uchar b) 0)) in
    b <- Reader_next ;; let n := Z.lor n (uint64 (Z.shiftl (uchar b) 8)) in
    b <- Reader_next ;; let n := Z.lor n (uint64 (Z.shiftl (uchar b) 16)) in
    b <- Reader_next ;; let n := Z.lor n (uint64 (Z.shiftl (uchar b) 24)) in
    b <- Reader_next ;; let n := Z.lor n (uint64 (Z.shiftl (uchar b) 32)) in
    b <- Reader_next ;; let n := Z.lor n (uint64 (Z.shiftl (uchar b) 40)) in
    b <- Reader_next ;; let n := Z.lor n (uint64 (Z.shiftl (uchar b) 48)) in
    b <- Reader_next ;; let n := Z.lor n (uint64 (Z.shiftl (uchar b) 56)) in
    ret n.

Definition Reader_getInt (r : Reader) : M rstate Z :=
  Reader_checkReady r ;;
  ch <- Reader_next ;;
  if (chr "0" <=? ch) && (ch <=? chr "9") then ret (int64 (ch - chr "0"))
  else if ch =? chr "+" then
    num <- Reader_nextLEB128 ;; ret (int64 num)
  else if ch =? chr "-" then
    num <- Reader_nextLEB128 ;; ret (int64 (uint64 (- num)))
  else throw (ParseError "getInt: Expected '0'-'9', '+' or '-'").

Definition Reader_getUInt (r : Reader) : M rstate Z :=
  Reader_checkReady r ;;
  ch <- Reader_next ;;
  if (chr "0" <=? ch) && (ch <=? chr "9") then ret (uint64 (ch - chr "0"))
  else if ch =? chr "+" then Reader_nextLEB128
  else throw (ParseError "getInt: Expected '0'-'9' or '+'").

(** An [ArrayReader] / [ObjectReader] holds only the stream pointer. *)
Definition ArrayReader : Type := unit.
Definition ObjectReader : Type := unit.

(** [Reader::getArray].  [env] is the state the closure [func] captured by
    reference; the callback hands back its new value. *)
Definition Reader_getArray {A} (r : Reader)
  (func : ArrayReader -> A -> M rstate A) (env : A) : M rstate A :=
  Reader_checkReady r ;;
  ch <- Reader_next ;;
  if negb (ch =? chr "[") then throw (ParseError "getArray: Expected '['")
  else
    Reader_set_ready r false ;;
    env <- func tt env ;;
    Reader_set_ready r true ;;
    ch <- Reader_next ;;
    if negb (ch =? chr "]") then throw (ParseError "getArray: Expected ']'")
    else ret env.

Definition Reader_getObject {A} (r : Reader)
  (func : ObjectReader -> A -> M rstate A) (env : A) : M rstate A :=
  Reader_checkReady r ;;
  ch <- Reader_next ;;
  if negb (ch =? chr "{") then throw (ParseError "getObject: Expected '{'")
  else
    Reader_set_ready r false ;;
    env <- func tt env ;;
    Reader_set_ready r true ;;
    ch <- Reader_next ;;
    if negb (ch =? chr "}") then throw (ParseError "getObject: Expected '}'")
    else ret env.

Definition ArrayReader_hasNext (arr : ArrayReader) : M rstate bool :=
  ret_ <- is_peek ;;
  ret (negb (ret_ =? chr "]") && negb (ret_ =? EOF)).

Definition ArrayReader_next (arr : ArrayReader) : M rstate Reader :=
  new_Reader.

(** [ArrayReader::all].  The callback decides how much input each turn
    consumes, so the while loop is given [fuel] turns. *)
Fixpoint ArrayReader_all {A} (fuel : nat) (arr : ArrayReader)
  (func : Reader -> A -> M rstate A) (env : A) : M rstate A :=
  match fuel with
  | O => out_of_fuel
  | S fuel' =>
      b <- ArrayReader_hasNext arr ;;
      if (b : bool) then
        val <- ArrayReader_next arr ;;
        env <- func val env ;;
        ArrayReader_all fuel' arr func env
      else ret env
  end.

Definition ObjectReader_hasNext (obj : ObjectReader) : M rstate bool :=
  ret_ <- is_peek ;;
  ret (negb (ret_ =? chr "}") && negb (ret_ =? EOF)).

(** The loop of [ObjectReader::next]. *)
Fixpoint ObjectReader_next_loop (input : list Z) (key : list Z)
  : list Z * outcome (list Z) :=
  match input with
  | [] => ([], Throw (ParseError "ObjectReader::next: Unexpected EOF"))
  | c :: rest =>
      let ch := uchar c in
      if ch =? 0 then (rest, Ok key)
      else ObjectReader_next_loop rest (key ++ [ch])
  end.

(** [ObjectReader::next]: returns the key (the out-parameter) and the
    [Reader] of the value. *)
Definition ObjectReader_next (obj : ObjectReader)
  : M rstate (list Z * Reader) :=
  key <- on_input (fun input => ObjectReader_next_loop input []) ;;
  val <- new_Reader ;;
  ret (key, val).

Fixpoint ObjectReader_all {A} (fuel : nat) (obj : ObjectReader)
  (func : list Z -> Reader -> A -> M rstate A) (env : A) : M rstate A :=
  match fuel with
  | O => out_of_fuel
  | S fuel' =>
      b <- ObjectReader_hasNext obj ;;
      if (b : bool) then
        kv <- ObjectReader_next obj ;;
        env <- func (fst kv) (snd kv) env ;;
        ObjectReader_all fuel' obj func env
      else ret env
  end.

Definition Reader_readArray {A} (fuel : nat) (r : Reader)
  (func : Reader -> A -> M rstate A) (env : A) : M rstate A :=
  Reader_getArray r (fun arr env => ArrayReader_all fuel arr func env) env.

Definition Reader_readObject {A} (fuel : nat) (r : Reader)
  (func : list Z -> Reader -> A -> M rstate A) (env : A) : M rstate A :=
  Reader_getObject r (fun obj env => ObjectReader_all fuel obj func env) env.

(** [Reader::skip].  The lambdas take their [Reader] by value.  [fuel]
    bounds the nesting depth and the turns of each [all] loop. *)
Fixpoint Reader_skip_fuel (fuel : nat) (r : Reader) : M rstate unit :=
  match fuel with
  | O => out_of_fuel
  | S fuel' =>
      t <- Reader_getType r ;;
      match t with
      | BOOL => void (Reader_getBool r)
      | NIL => Reader_getNil r
      | STRING => Reader_skipString r
      | BINARY => Reader_skipBinary r
      | FLOAT => void (Reader_getFloat r)
      | DOUBLE => void (Reader_getDouble r)
      | INT => void (Reader_getInt r)
      | UINT => void (Reader_getUInt r)
      | ARRAY =>
          Reader_readArray fuel' r
            (fun val _ => r' <- Reader_copy val ;; Reader_skip_fuel fuel' r') tt
      | OBJECT =>
          Reader_readObject fuel' r
            (fun _ val _ => r' <- Reader_copy val ;; Reader_skip_fuel fuel' r')
            tt
      end
  end.

(** Every value starts with a tag byte, so a value nests less deep and has
    fewer elements than the input has bytes: that much fuel is enough. *)
Definition Reader_skip (r : Reader) : M rstate unit :=
  fun s => Reader_skip_fuel (S (length (is_ s))) r s.

(** A stream holding [input] and one [Reader] object, at address 0. *)
Definition rstate0 (input : list Z) : rstate := mk_rstate input [true].

(** A stream with nothing written and one [Writer] object, at address 0. *)
Definition wstate0 : wstate := mk_wstate [] [true].

(** ** Values and their encoding by the writer *)

(** The bytes [writeLEB128(num)] appends to the stream. *)
Definition LEB128_bytes (num : Z) : list Z :=
  os_ (fst (Writer_writeLEB128 num wstate0)).

(** Byte [i] of a bit pattern, and its first [n] bytes in little-endian
    order. *)
Definition le_byte (x : Z) (i : nat) : Z :=
  Z.land (Z.shiftr x (8 * Z.of_nat i)) 255.

Definition le_bytes (n : nat) (x : Z) : list Z := map (le_byte x) (seq 0 n).

(** The byte one turn of [writeLEB128] writes. *)
Definition leb_byte (num : Z) : Z :=
  Z.lor (uchar (if 127 <? num then 128 else 0)) (uchar (Z.land num 127)).

(** The groups of [num], least significant first, when it has [k] of them. *)
Fixpoint leb_groups (k : nat) (num : Z) : list Z :=
  match k with
  | O => []
  | S k' => leb_byte num :: leb_groups k' (Z.shiftr num 7)
  end.

(** [num] needs exactly [k] groups of 7 bits. *)
Definition needs_groups (num : Z) (k : nat) : Prop :=
  (1 <= k)%nat /\ 0 <= num < 128 ^ Z.of_nat k /\
  (k = 1%nat \/ 128 ^ (Z.of_nat k - 1) <= num).

(** ** Quantifying over operations *)

(** The scalar write operations of [Writer]. *)
Inductive scalar_write : Type :=
| SWTrue | SWFalse | SWBool (b : bool) | SWNull
| SWString (str : list Z) | SWFloat (f : Z) | SWDouble (d : Z)
| SWBinary (data : list Z) | SWInt (num : Z) | SWUInt (num : Z).

Definition run_scalar_write (op : scalar_write) (w : Writer) : M wstate unit :=
  match op with
  | SWTrue => Writer_writeTrue w
  | SWFalse => Writer_writeFalse w
  | SWBool b => Writer_writeBool w b
  | SWNull => Writer_writeNull w
  | SWString str => Writer_writeString w str
  | SWFloat f => Writer_writeFloat w f
  | SWDouble d => Writer_writeDouble w d
  | SWBinary data => Writer_writeBinary w data
  | SWInt num => Writer_writeInt w num
  | SWUInt num => Writer_writeUInt w num
  end.

(** The operations of [Reader] that read one value (or its type). *)
Inductive read_op : Type :=
| RType | RBool | RNil | RString | RSkipString | RBinary | RSkipBinary
| RFloat | RDouble | RInt | RUInt | RSkip.

Definition run_read (op : read_op) (r : Reader) : M rstate unit :=
  match op with
  | RType => void (Reader_getType r)
  | RBool => void (Reader_getBool r)
  | RNil => Reader_getNil r
  | RString => void (Reader_getString r)
  | RSkipString => Reader_skipString r
  | RBinary => void (Reader_getBinary r)
  | RSkipBinary => Reader_skipBinary r
  | RFloat => void (Reader_getFloat r)
  | RDouble => void (Reader_getDouble r)
  | RInt => void (Reader_getInt r)
  | RUInt => void (Reader_getUInt r)
  | RSkip => Reader_skip r
  end.

(** [c] returns normally on every stream, appending [bs] and leaving the
    objects alone. *)
Definition emits (c : M wstate unit) (bs : list Z) : Prop :=
  forall s, c s = (mk_wstate (os_ s ++ bs) (wready_ s), Ok tt).

(** The bytes a scalar write appends when its handle is ready. *)
Definition scalar_bytes (op : scalar_write) : list Z :=
  match op with
  | SWTrue => [chr "T"]
  | SWFalse => [chr "F"]
  | SWBool b => [if b then chr "T" else chr "F"]
  | SWNull => [chr "N"]
  | SWString str => chr "S" :: map uchar (c_str str) ++ [0]
  | SWFloat f => chr "f" :: le_bytes 4 (uint32 f)
  | SWDouble d => chr "d" :: le_bytes 8 (uint64 d)
  | SWBinary data =>
      chr "B" :: LEB128_bytes (Z.of_nat (length data)) ++ map uchar data
  | SWInt num =>
      if num =? INT64_MIN then chr "-" :: LEB128_bytes (2 ^ 63)
      else if num <? 0 then chr "-" :: LEB128_bytes (int64 (- num))
      else if num <=? 9 then [uchar (chr "0" + num)]
      else chr "+" :: LEB128_bytes num
  | SWUInt num =>
      if num <=? 9 then [uchar (chr "0" + num)]
      else chr "+" :: LEB128_bytes num
  end.

(** The varint as the format describes it, stated with division and
    independently of [writeLEB128]: the base-128 digits of [num], least
    significant first, one per byte in its low 7 bits, with the high bit
    set on every byte except the last.  [k] bounds the number of digits;
    ten are enough for a [uint64_t]. *)
Fixpoint varint_groups (k : nat) (num : Z) : list Z :=
  match k with
  | O => []
  | S k' =>
      if num <? 128 then [num]
      else (128 + num mod 128) :: varint_groups k' (num / 128)
  end.

Definition varint_spec (num : Z) : list Z := varint_groups 10 num.

(** The values of the data model. *)
#[local] Unset Elimination Schemes.
Inductive Value : Type :=
| VBool (b : bool)
| VNull
| VString (str : list Z)
| VBinary (data : list Z)
| VFloat (bits : Z)
| VDouble (bits : Z)
| VInt (num : Z)
| VUInt (num : Z)
| VArray (vs : list Value)
| VObject (kvs : list (list Z * Value)).
#[local] Set Elimination Schemes.

(** The body of a callback that writes the elements of an array, in order,
    to the child writer [c]. *)
Definition write_elements (write : Value -> Writer -> M wstate unit)
    (c : Writer) : list Value -> M wstate unit :=
  fix elements (vs : list Value) : M wstate unit :=
    match vs with
    | [] => ret tt
    | v :: vs' => write v c ;; elements vs'
    end.

(** The body of a callback that writes the entries of an object, in order:
    [o.key(k)] and then the value to the writer it returns. *)
Definition write_entries (write : Value -> Writer -> M wstate unit)
    (o : ObjectWriter) : list (list Z * Value) -> M wstate unit :=
  fix entries (kvs : list (list Z * Value)) : M wstate unit :=
    match kvs with
    | [] => ret tt
    | kv :: kvs' =>
        c <- ObjectWriter_key o (fst kv) ;;
        write (snd kv) c ;;
        entries kvs'
    end.

(** A client that writes a value with the operations of [Writer]: scalars by
    their write operation, containers by [writeArray] / [writeObject] with a
    callback that writes the elements in order. *)
Fixpoint writeValue (v : Value) (w : Writer) : M wstate unit :=
  match v with
  | VBool b => Writer_writeBool w b
  | VNull => Writer_writeNull w
  | VString str => Writer_writeString w str
  | VBinary data => Writer_writeBinary w data
  | VFloat f => Writer_writeFloat w f
  | VDouble d => Writer_writeDouble w d
  | VInt num => Writer_writeInt w num
  | VUInt num => Writer_writeUInt w num
  | VArray vs => Writer_writeArray w (fun c => write_elements writeValue c vs)
  | VObject kvs => Writer_writeObject w (fun o => write_entries writeValue o kvs)
  end.

(** The encoding of a value: what [writeValue] puts on an empty stream. *)
Definition encode (v : Value) : list Z :=
  os_ (fst (writeValue v 0%nat wstate0)).

(** The callbacks of a client that decodes every element: the closure
    appends the decoded value to the list it captured. *)
Definition decode_element (get : Reader -> M rstate Value)
  : Reader -> list Value -> M rstate (list Value) :=
  fun val vs => r' <- Reader_copy val ;; v <- get r' ;; ret (vs ++ [v]).

Definition decode_entry (get : Reader -> M rstate Value)
  : list Z -> Reader -> list (list Z * Value)
    -> M rstate (list (list Z * Value)) :=
  fun key val kvs =>
    r' <- Reader_copy val ;; v <- get r' ;; ret (kvs ++ [(key, v)]).

(** A client that fully decodes the next value, whatever its type: it asks
    [getType] and calls the matching get or read operation. *)
Fixpoint getValue (fuel : nat) (r : Reader) : M rstate Value :=
  match fuel with
  | O => out_of_fuel
  | S fuel' =>
      t <- Reader_getType r ;;
      match t with
      | BOOL => b <- Reader_getBool r ;; ret (VBool b)
      | NIL => Reader_getNil r ;; ret VNull
      | STRING => str <- Reader_getString r ;; ret (VString str)
      | BINARY => data <- Reader_getBinary r ;; ret (VBinary data)
      | FLOAT => f <- Reader_getFloat r ;; ret (VFloat f)
      | DOUBLE => d <- Reader_getDouble r ;; ret (VDouble d)
      | INT => num <- Reader_getInt r ;; ret (VInt num)
      | UINT => num <- Reader_getUInt r ;; ret (VUInt num)
      | ARRAY =>
          vs <- Reader_readArray fuel' r (decode_element (getValue fuel')) [] ;;
          ret (VArray vs)
      | OBJECT =>
          kvs <- Reader_readObject fuel' r (decode_entry (getValue fuel')) [] ;;
          ret (VObject kvs)
      end
  end.

(** A client that knows the type of the value it reads: the get or read
    operation that matches [v]; elements of containers are decoded by
    [getValue]. *)
Definition get_matching (v : Value) (fuel : nat) (r : Reader)
  : M rstate Value :=
  match v with
  | VBool _ => b <- Reader_getBool r ;; ret (VBool b)
  | VNull => Reader_getNil r ;; ret VNull
  | VString _ => str <- Reader_getString r ;; ret (VString str)
  | VBinary _ => data <- Reader_getBinary r ;; ret (VBinary data)
  | VFloat _ => f <- Reader_getFloat r ;; ret (VFloat f)
  | VDouble _ => d <- Reader_getDouble r ;; ret (VDouble d)
  | VInt _ => num <- Reader_getInt r ;; ret (VInt num)
  | VUInt _ => num <- Reader_getUInt r ;; ret (VUInt num)
  | VArray _ =>
      vs <- Reader_readArray fuel r (decode_element (getValue fuel)) [] ;;
      ret (VArray vs)
  | VObject _ =>
      kvs <- Reader_readObject fuel r (decode_entry (getValue fuel)) [] ;;
      ret (VObject kvs)
  end.

(** The values the writer's parameter types can hold: strings and keys are C
    strings (no NUL inside), a binary's length is a [size_t], floats are 32
    or 64 bits, integers are [int64_t] / [uint64_t]. *)
Fixpoint valid (v : Value) : Prop :=
  match v with
  | VBool _ | VNull => True
  | VString str => Forall (fun c => uchar c <> 0) str
  | VBinary data => Z.of_nat (length data) < 2 ^ 64
  | VFloat f => 0 <= f < 2 ^ 32
  | VDouble d => 0 <= d < 2 ^ 64
  | VInt num => INT64_MIN <= num <= INT64_MAX
  | VUInt num => 0 <= num < 2 ^ 64
  | VArray vs => fold_right (fun v rest => valid v /\ rest) True vs
  | VObject kvs =>
      fold_right
        (fun kv rest =>
           Forall (fun c => uchar c <> 0) (fst kv) /\ valid (snd kv) /\ rest)
        True kvs
  end.

(** No key, at any depth, begins with the byte ['}']. *)
Fixpoint keys_readable (v : Value) : Prop :=
  match v with
  | VArray vs => fold_right (fun v rest => keys_readable v /\ rest) True vs
  | VObject kvs =>
      fold_right
        (fun kv rest =>
           (forall c key', fst kv = c :: key' -> uchar c <> chr "}") /\
           keys_readable (snd kv) /\ rest)
        True kvs
  | _ => True
  end.

(** Induction on values: a container when all its elements. *)
Section Value_induction.
Variable P : Value -> Prop.
Hypothesis P_scalar :
  forall v, match v with VArray _ | VObject _ => False | _ => True end -> P v.
Hypothesis P_array : forall vs, Forall P vs -> P (VArray vs).
Hypothesis P_object :
  forall kvs, Forall (fun kv => P (snd kv)) kvs -> P (VObject kvs).

Fixpoint Value_ind (v : Value) : P v :=
  match v with
  | VArray vs =>
      P_array vs
        ((fix elements (vs : list Value) : Forall P vs :=
            match vs with
            | [] => @List.Forall_nil _ P
            | v :: vs' =>
                @List.Forall_cons _ P v vs' (Value_ind v) (elements vs')
            end) vs)
  | VObject kvs =>
      P_object kvs
        ((fix entries (kvs : list (list Z * Value))
            : Forall (fun kv => P (snd kv)) kvs :=
            match kvs with
            | [] => @List.Forall_nil _ (fun kv => P (snd kv))
            | kv :: kvs' =>
                @List.Forall_cons _ (fun kv => P (snd kv)) kv kvs'
                  (Value_ind (snd kv)) (entries kvs')
            end) kvs)
  | VBool b => P_scalar (VBool b) I
  | VNull => P_scalar VNull I
  | VString str => P_scalar (VString str) I
  | VBinary data => P_scalar (VBinary data) I
  | VFloat f => P_scalar (VFloat f) I
  | VDouble d => P_scalar (VDouble d) I
  | VInt num => P_scalar (VInt num) I
  | VUInt num => P_scalar (VUInt num) I
  end.
End Value_induction.

(** The encoding written out: tag, payload, and for containers the
    concatenated encodings of the elements and the terminator. *)
Fixpoint enc (v : Value) : list Z :=
  match v with
  | VBool b => scalar_bytes (SWBool b)
  | VNull => scalar_bytes SWNull
  | VString str => scalar_bytes (SWString str)
  | VBinary data => scalar_bytes (SWBinary data)
  | VFloat f => scalar_bytes (SWFloat f)
  | VDouble d => scalar_bytes (SWDouble d)
  | VInt num => scalar_bytes (SWInt num)
  | VUInt num => scalar_bytes (SWUInt num)
  | VArray vs => chr "[" :: flat_map enc vs ++ [chr "]"]
  | VObject kvs =>
      chr "{" ::
      flat_map (fun kv => (map uchar (c_str (fst kv)) ++ [0]) ++ enc (snd kv))
        kvs ++ [chr "}"]
  end.

(** The kind of an outcome: the value returned and the text of a
    [ParseError] are left out. *)
Definition shape {A} (o : outcome A) : outcome unit :=
  match o with
  | Ok _ => Ok tt
  | Throw LogicError => Throw LogicError
  | Throw (ParseError _) => Throw (ParseError "")
  | Undefined => Undefined
  | OutOfFuel => OutOfFuel
  end.

(** Two computations that, from every state, end in the same state (the
    same cursor, the same objects) with the same kind of outcome. *)
Definition sim {St A B} (c1 : M St A) (c2 : M St B) : Prop :=
  forall s, fst (c1 s) = fst (c2 s) /\ shape (snd (c1 s)) = shape (snd (c2 s)).

(** [c] returns normally from [s], appending [bs]; the objects that existed
    keep their flags and new ones may have been constructed. *)
Definition writes (c : M wstate unit) (s : wstate) (bs : list Z) : Prop :=
  exists extra,
    c s = (mk_wstate (os_ s ++ bs) (wready_ s ++ extra), Ok tt).

(** The type [getType] reports for the encoding of a value: a non-negative
    integer is written with a digit or ['+'], which [getType] calls [UINT]. *)
Definition type_of_value (v : Value) : Type_ :=
  match v with
  | VBool _ => BOOL
  | VNull => NIL
  | VString _ => STRING
  | VBinary _ => BINARY
  | VFloat _ => FLOAT
  | VDouble _ => DOUBLE
  | VInt num => if num <? 0 then INT else UINT
  | VUInt _ => UINT
  | VArray _ => ARRAY
  | VObject _ => OBJECT
  end.

Definition scalar (v : Value) : Prop :=
  match v with VArray _ | VObject _ => False | _ => True end.

(** From a state with fewer than [n] unread bytes, [c] does not run out of
    fuel and does not put bytes back. *)
Definition bounded {A} (n : nat) (c : M rstate A) : Prop :=
  forall s, (length (is_ s) < n)%nat ->
    snd (c s) <> OutOfFuel /\ (length (is_ (fst (c s))) <= length (is_ s))%nat.

(** Moreover, when [c] returns normally it has consumed at least one byte. *)
Definition progresses {A} (n : nat) (c : M rstate A) : Prop :=
  forall s, (length (is_ s) < n)%nat ->
    snd (c s) <> OutOfFuel /\
    (length (is_ (fst (c s))) <= length (is_ s))%nat /\
    forall a, snd (c s) = Ok a -> (length (is_ (fst (c s))) < length (is_ s))%nat.

(** [c2] is [c1] with at least as much fuel: where [c1] does not run out of
    fuel, [c2] does the same. *)
Definition more_fuel {A} (c1 c2 : M rstate A) : Prop :=
  forall s, snd (c1 s) <> OutOfFuel -> c2 s = c1 s.

(** A small document: [[5, {"x": "ab"}, -300]]. *)
Definition sample_value : Value :=
  VArray [VInt 5; VObject [([chr "x"], VString [chr "a"; chr "b"])]; VInt (-300)].

(** ** Further notions used to state properties of the code *)

(** [LogicError::what] and [ParseError::what]. *)
Definition what (e : exn) : string :=
  match e with
  | LogicError => "NBON logic error"
  | ParseError str => "NBON parse error: " ++ str
  end.

(** The first byte each typed read operation goes on with; on any other
    byte it throws.  [getType] and [skip] only peek and are not listed. *)
Definition expects (op : read_op) (ch : Z) : bool :=
  match op with
  | RBool => (ch =? chr "T") || (ch =? chr "F")
  | RNil => ch =? chr "N"
  | RString | RSkipString => ch =? chr "S"
  | RBinary | RSkipBinary => ch =? chr "B"
  | RFloat => ch =? chr "f"
  | RDouble => ch =? chr "d"
  | RInt =>
      ((chr "0" <=? ch) && (ch <=? chr "9")) || (ch =? chr "+") || (ch =? chr "-")
  | RUInt => ((chr "0" <=? ch) && (ch <=? chr "9")) || (ch =? chr "+")
  | RType | RSkip => true
  end.

(** The bytes that start a value. *)
Definition value_tag (b : Z) : Prop :=
  In b [chr "T"; chr "F"; chr "N"; chr "f"; chr "d"; chr "S"; chr "B";
        chr "+"; chr "-"; chr "["; chr "{"] \/ chr "0" <= b <= chr "9".

(** What the generic decoder returns for a value the writer wrote: as [v],
    except that a non-negative [VInt] comes back as a [VUInt] (the wire has
    one form for both) and that bytes are bytes. *)
Fixpoint canon (v : Value) : Value :=
  match v with
  | VString str => VString (map uchar str)
  | VBinary data => VBinary (map uchar data)
  | VInt num => if num <? 0 then VInt num else VUInt num
  | VArray vs => VArray (map canon vs)
  | VObject kvs => VObject (map (fun kv => (map uchar (fst kv), canon (snd kv))) kvs)
  | v' => v'
  end.

(** The number a little-endian payload stands for. *)
Fixpoint le_value (bs : list Z) : Z :=
  match bs with
  | [] => 0
  | b :: bs' => b + 256 * le_value bs'
  end.

(** A client that walks a document of top-level values:
    [while (r.hasNext()) r.skip();], counting the values. *)
Fixpoint skip_document (fuel : nat) (r : Reader) : M rstate nat :=
  match fuel with
  | O => out_of_fuel
  | S fuel' =>
      b <- Reader_hasNext r ;;
      if (b : bool) then
        Reader_skip r ;;
        n <- skip_document fuel' r ;;
        ret (S n)
      else ret 0%nat
  end.

(** [c], run from [s], does not end in a usage error. *)
Definition no_usage_error {A} (c : M rstate A) (s : rstate) : Prop :=
  snd (c s) <> Throw LogicError.

(** [skip], given [f] turns, rejects every proper prefix of the encoding of
    [v] that is shorter than [f]: it throws a [ParseError] with the input
    exhausted. *)
Definition rejects_prefixes (f : nat) (v : Value) : Prop :=
  forall p q r st,
    enc v = p ++ q -> q <> [] -> (length p < f)%nat -> st !! r = Some true ->
    exists st' msg,
      Reader_skip_fuel f r (mk_rstate p st)
      = (mk_rstate [] st', Throw (ParseError msg)).

(** ** The tests of [tests/write.cc] *)

Example test_arrays :
  os_ (fst (Writer_writeArray 0%nat (fun w =>
         Writer_writeTrue w ;;
         Writer_writeFalse w ;;
         Writer_writeArray w (fun w =>
           Writer_writeBool w false ;;
           Writer_writeBool w true) ;;
         Writer_writeNull w) wstate0))
  = map chr ["["; "T"; "F"; "["; "F"; "T"; "]"; "N"; "]"]%char.
Proof. vm_compute. reflexivity. Qed.

Example test_multi_byte_integers :
  os_ (fst ((Writer_writeInt 0%nat 128 ;;
             Writer_writeUInt 0%nat 128 ;;
             Writer_writeUInt 0%nat 0xffffffff ;;
             Writer_writeInt 0%nat (- 0x7fffffffffffffff) ;;
             Writer_writeUInt 0%nat 0xffffffffffffffff) wstate0))
  = [43; 0x80; 0x01; 43; 0x80; 0x01; 43; 0xff; 0xff; 0xff; 0xff; 0x0f;
     45; 0xff; 0xff; 0xff; 0xff; 0xff; 0xff; 0xff; 0xff; 0x7f;
     43; 0xff; 0xff; 0xff; 0xff; 0xff; 0xff; 0xff; 0xff; 0xff; 0x01].
Proof. vm_compute. reflexivity. Qed.

Example test_objects :
  let str := map chr in
  os_ (fst (Writer_writeObject 0%nat (fun w =>
         c <- ObjectWriter_key w (str ["H"; "e"; "l"; "l"; "o"]%char) ;;
         Writer_writeTrue c ;;
         c <- ObjectWriter_key w (str ["S"; "u"; "b"]%char) ;;
         Writer_writeObject c (fun w =>
           c <- ObjectWriter_key w (str ["h"; "i"]%char) ;;
           Writer_writeInt c 3) ;;
         c <- ObjectWriter_key w (str ["x"]%char) ;;
         Writer_writeInt c 2) wstate0))
  = str ["{"; "H"; "e"; "l"; "l"; "o"; zero; "T"; "S"; "u"; "b"; zero;
         "{"; "h"; "i"; zero; "3"; "}"; "x"; zero; "2"; "}"]%char.
Proof. vm_compute. reflexivity. Qed.

Example test_single_byte_integers :
  os_ (fst ((Writer_writeInt 0%nat 0 ;; Writer_writeUInt 0%nat 0 ;;
             Writer_writeInt 0%nat 9 ;; Writer_writeUInt 0%nat 9 ;;
             Writer_writeInt 0%nat 10 ;; Writer_writeUInt 0%nat 10 ;;
             Writer_writeInt 0%nat 127 ;; Writer_writeUInt 0%nat 127 ;;
             Writer_writeInt 0%nat (-1) ;; Writer_writeInt 0%nat (-66) ;;
             Writer_writeInt 0%nat (-127)) wstate0))
  = [48; 48; 57; 57; 43; 0x0a; 43; 0x0a; 43; 0x7f; 43; 0x7f;
     45; 0x01; 45; 0x42; 45; 0x7f].
Proof. vm_compute. reflexivity. Qed.

(** [10.0f] is [0x41200000], [+inf] is [0x7f800000]; [10.0] is
    [0x4024000000000000]. *)
Example test_floats :
  os_ (fst ((Writer_writeFloat 0%nat 0x41200000 ;;
             Writer_writeFloat 0%nat 0x7f800000 ;;
             Writer_writeDouble 0%nat 0x4024000000000000) wstate0))
  = [102; 0x00; 0x00; 0x20; 0x41; 102; 0x00; 0x00; 0x80; 0x7f;
     100; 0x00; 0x00; 0x00; 0x00; 0x00; 0x00; 0x24; 0x40].
Proof. vm_compute. reflexivity. Qed.

Example test_logic_error_checking :
  snd (Writer_writeArray 0%nat (fun _ => Writer_writeInt 0%nat 10) wstate0)
  = Throw LogicError /\
  snd (Writer_writeObject 0%nat (fun _ => Writer_writeInt 0%nat 10) wstate0)
  = Throw LogicError.
Proof. split; reflexivity. Qed.

Example test_skip :
  Reader_skip 0%nat (rstate0 (map chr ["["; "T"; "["; "5"; "]"; "N"; "]"; "T"]%char))
  = (mk_rstate [chr "T"] [true; true; true; true; true; true; true; true; true], Ok tt).
Proof. vm_compute. reflexivity. Qed.

(** ** Arithmetic of bytes and 7-bit groups *)

Lemma uchar_range z : 0 <= uchar z < 256.
Proof. unfold uchar. apply Z.mod_pos_bound. lia. Qed.

Lemma uchar_small z : 0 <= z < 256 -> uchar z = z.
Proof. intros H. unfold uchar. apply Z.mod_small. exact H. Qed.

Lemma uchar_idem z : uchar (uchar z) = uchar z.
Proof. apply uchar_small, uchar_range. Qed.

Lemma uint64_range z : 0 <= uint64 z < 2 ^ 64.
Proof. unfold uint64. apply Z.mod_pos_bound. lia. Qed.

Lemma uint32_small z : 0 <= z < 2 ^ 32 -> uint32 z = z.
Proof. intros H. unfold uint32. apply Z.mod_small. exact H. Qed.

Lemma uint64_small z : 0 <= z < 2 ^ 64 -> uint64 z = z.
Proof. intros H. unfold uint64. apply Z.mod_small. exact H. Qed.

Lemma land_127 z : Z.land z 127 = z mod 128.
Proof. change 127 with (Z.ones 7). rewrite Z.land_ones by lia. reflexivity. Qed.

Lemma lor_128 x : 0 <= x < 128 -> Z.lor 128 x = 128 + x.
Proof.
  intros Hx.
  assert (Hl : Z.land 128 x = 0).
  { apply Z.bits_inj'. intros n Hn.
    rewrite Z.land_spec, Z.bits_0.
    destruct (Z.eq_dec n 7) as [-> | Hne].
    - rewrite andb_false_iff. right.
      destruct (Z.eq_dec x 0) as [-> | Hx0]; [apply Z.bits_0 |].
      apply Z.bits_above_log2; [lia |].
      apply Z.log2_lt_pow2; lia.
    - rewrite andb_false_iff. left.
      change 128 with (2 ^ 7). rewrite Z.pow2_bits_eqb by lia.
      apply Z.eqb_neq. lia. }
  rewrite <- Z.lxor_lor by exact Hl.
  symmetry. apply Z.add_nocarry_lxor. exact Hl.
Qed.

Lemma leb_byte_val num :
  leb_byte num = (if 127 <? num then 128 else 0) + num mod 128.
Proof.
  unfold leb_byte. rewrite land_127.
  assert (Hm : 0 <= num mod 128 < 128) by (apply Z.mod_pos_bound; lia).
  rewrite (uchar_small (num mod 128)) by lia.
  destruct (127 <? num).
  - rewrite (uchar_small 128) by lia. apply lor_128. exact Hm.
  - rewrite (uchar_small 0) by lia. apply Z.lor_0_l.
Qed.

Lemma leb_byte_range num : 0 <= leb_byte num < 256.
Proof.
  rewrite leb_byte_val.
  assert (Hm : 0 <= num mod 128 < 128) by (apply Z.mod_pos_bound; lia).
  destruct (127 <? num); lia.
Qed.

Lemma leb_byte_low num : Z.land (leb_byte num) 127 = Z.land num 127.
Proof.
  rewrite !land_127, leb_byte_val.
  destruct (127 <? num).
  - replace (128 + num mod 128) with (num mod 128 + 1 * 128) by lia.
    rewrite Z.mod_add by lia. apply Z.mod_mod. lia.
  - rewrite Z.add_0_l. apply Z.mod_mod. lia.
Qed.

Lemma leb_byte_high num : Z.testbit (leb_byte num) 7 = (127 <? num).
Proof.
  rewrite leb_byte_val.
  assert (Hm : 0 <= num mod 128 < 128) by (apply Z.mod_pos_bound; lia).
  apply Z.b2z_inj. rewrite Z.testbit_spec' by lia.
  change (2 ^ 7) with 128.
  destruct (127 <? num).
  - replace ((128 + num mod 128) / 128) with 1; [reflexivity |].
    apply Z.div_unique with (r := num mod 128); lia.
  - rewrite Z.add_0_l, Z.div_small by lia. reflexivity.
Qed.

Lemma shiftr_7 num : Z.shiftr num 7 = num / 128.
Proof. rewrite Z.shiftr_div_pow2 by lia. reflexivity. Qed.

Lemma needs_groups_step num k :
  needs_groups num (S (S k)) ->
  127 < num /\ Z.shiftr num 7 <> 0 /\ needs_groups (Z.shiftr num 7) (S k).
Proof.
  intros (_ & [H0 H1] & [Hk | H2]); [discriminate |].
  replace (Z.of_nat (S (S k)) - 1) with (Z.succ (Z.of_nat k)) in H2 by lia.
  rewrite Z.pow_succ_r in H2 by lia.
  replace (Z.of_nat (S (S k))) with (Z.succ (Z.of_nat (S k))) in H1 by lia.
  rewrite Z.pow_succ_r in H1 by lia.
  assert (Hp : 1 <= 128 ^ Z.of_nat k) by (apply Z.lt_pred_le, Z.pow_pos_nonneg; lia).
  rewrite shiftr_7.
  assert (Hd1 : num / 128 < 128 ^ Z.of_nat (S k))
    by (apply Z.div_lt_upper_bound; lia).
  assert (Hd2 : 128 ^ Z.of_nat k <= num / 128)
    by (apply Z.div_le_lower_bound; lia).
  repeat split; try lia.
  right. replace (Z.of_nat (S k) - 1) with (Z.of_nat k) by lia. exact Hd2.
Qed.

Lemma needs_groups_one num :
  needs_groups num 1 -> (127 <? num) = false /\ Z.shiftr num 7 = 0.
Proof.
  intros (_ & [H0 H1] & _). change (128 ^ Z.of_nat 1) with 128 in H1.
  split; [apply Z.ltb_ge; lia |].
  rewrite shiftr_7. apply Z.div_small. lia.
Qed.

Lemma needs_groups_le_10 num k :
  num < 2 ^ 64 -> needs_groups num k -> (k <= 10)%nat.
Proof.
  intros Hn (Hk & [H0 H1] & [-> | H2]); [lia |].
  destruct (le_lt_dec k 10) as [Hle | Hgt]; [exact Hle | exfalso].
  assert (128 ^ 10 <= 128 ^ (Z.of_nat k - 1))
    by (apply Z.pow_le_mono_r; lia).
  assert (2 ^ 64 < 128 ^ 10) by (vm_compute; reflexivity).
  lia.
Qed.

(** Every [uint64_t] has a number of groups. *)
Lemma needs_groups_exists num :
  0 <= num < 2 ^ 64 -> exists k, needs_groups num k.
Proof.
  intros [H0 H1].
  destruct (Z.eq_dec num 0) as [-> | Hne].
  { exists 1%nat. split; [lia |]. split; [cbn; lia | left; reflexivity]. }
  exists (Z.to_nat (Z.log2 num / 7 + 1)).
  assert (Hl : 0 <= Z.log2 num) by apply Z.log2_nonneg.
  assert (Hq : 0 <= Z.log2 num / 7) by (apply Z.div_pos; lia).
  assert (Hlog : 2 ^ Z.log2 num <= num < 2 ^ Z.succ (Z.log2 num))
    by (apply Z.log2_spec; lia).
  assert (Hdm : Z.log2 num = 7 * (Z.log2 num / 7) + Z.log2 num mod 7)
    by (apply Z.div_mod; lia).
  assert (Hm : 0 <= Z.log2 num mod 7 < 7) by (apply Z.mod_pos_bound; lia).
  assert (Hpow : forall q, 0 <= q -> 128 ^ q = 2 ^ (7 * q)).
  { intros q Hq'. change 128 with (2 ^ 7). rewrite <- Z.pow_mul_r by lia.
    reflexivity. }
  unfold needs_groups. rewrite Z2Nat.id by lia.
  split; [lia |]. split; [split; [lia |] |].
  - rewrite Hpow by lia.
    eapply Z.lt_le_trans; [apply Hlog |].
    apply Z.pow_le_mono_r; lia.
  - right. replace (Z.log2 num / 7 + 1 - 1) with (Z.log2 num / 7) by lia.
    rewrite Hpow by lia.
    eapply Z.le_trans; [| apply Hlog].
    apply Z.pow_le_mono_r; lia.
Qed.

(** ** The varint encoder *)

Lemma writeLEB128_loop_groups k : forall fuel num s,
  (k <= fuel)%nat -> needs_groups num k ->
  writeLEB128_loop fuel num s
  = (mk_wstate (os_ s ++ leb_groups k num) (wready_ s), Ok tt).
Proof.
  induction k as [| k IH]; intros fuel num s Hf Hg.
  { destruct Hg as (Hk & _). lia. }
  destruct fuel as [| fuel]; [lia |].
  cbn [writeLEB128_loop leb_groups]. unfold bind, os_put.
  fold (leb_byte num). rewrite (uchar_small _ (leb_byte_range num)).
  destruct k as [| k].
  - destruct (needs_groups_one _ Hg) as [_ ->]. reflexivity.
  - destruct (needs_groups_step _ _ Hg) as (_ & Hnz & Hg').
    apply Z.eqb_neq in Hnz. rewrite Hnz. cbn [negb].
    rewrite IH by (lia || exact Hg'). cbn [os_ wready_].
    rewrite <- app_assoc. reflexivity.
Qed.

Lemma LEB128_bytes_groups num k :
  needs_groups (uint64 num) k -> LEB128_bytes num = leb_groups k (uint64 num).
Proof.
  intros Hg. unfold LEB128_bytes, Writer_writeLEB128.
  rewrite (writeLEB128_loop_groups k); [reflexivity | | exact Hg].
  apply (needs_groups_le_10 (uint64 num)); [apply uint64_range | exact Hg].
Qed.

(** [writeLEB128] always returns, and appends the same bytes to any stream. *)
Lemma Writer_writeLEB128_run num s :
  Writer_writeLEB128 num s
  = (mk_wstate (os_ s ++ LEB128_bytes num) (wready_ s), Ok tt).
Proof.
  destruct (needs_groups_exists (uint64 num) (uint64_range num)) as [k Hg].
  rewrite (LEB128_bytes_groups num k Hg). unfold Writer_writeLEB128.
  apply writeLEB128_loop_groups; [| exact Hg].
  apply (needs_groups_le_10 (uint64 num)); [apply uint64_range | exact Hg].
Qed.

Lemma leb_groups_length k : forall num, length (leb_groups k num) = k.
Proof. induction k as [| k IH]; intros num; cbn; [| rewrite IH]; reflexivity. Qed.

Lemma leb_groups_lookup k : forall num i, (i < k)%nat ->
  leb_groups k num !! i = Some (leb_byte (Z.shiftr num (7 * Z.of_nat i))).
Proof.
  induction k as [| k IH]; intros num i Hi; [lia |].
  destruct i as [| i]; cbn [leb_groups].
  - cbn. rewrite Z.shiftr_0_r. reflexivity.
  - change ((leb_byte num :: leb_groups k (Z.shiftr num 7)) !! S i)
      with (leb_groups k (Z.shiftr num 7) !! i).
    rewrite IH by lia. rewrite Z.shiftr_shiftr by lia.
    do 3 f_equal. lia.
Qed.

Lemma needs_groups_continues k : forall num i,
  needs_groups num k -> (i < k)%nat ->
  (127 <? Z.shiftr num (7 * Z.of_nat i)) = negb (i =? k - 1)%nat.
Proof.
  induction k as [| k IH]; intros num i Hg Hi; [lia |].
  destruct k as [| k].
  - assert (i = 0%nat) as -> by lia. cbn. rewrite Z.shiftr_0_r.
    apply (needs_groups_one _ Hg).
  - destruct (needs_groups_step _ _ Hg) as (Hbig & _ & Hg').
    destruct i as [| i].
    + cbn. rewrite Z.shiftr_0_r. apply Z.ltb_lt. exact Hbig.
    + specialize (IH (Z.shiftr num 7) i Hg' ltac:(lia)).
      rewrite Z.shiftr_shiftr in IH by lia.
      replace (7 * Z.of_nat (S i)) with (7 + 7 * Z.of_nat i) by lia.
      rewrite IH. cbn. rewrite Nat.sub_0_r. reflexivity.
Qed.

(** C3: a 64-bit unsigned value that needs exactly [k] groups of 7 bits is
    written by the varint encoder as exactly [k] bytes; byte [i] carries
    bits [7i .. 7i+6] of the value in its low 7 bits (little-endian group
    order) and has its high bit set exactly when it is not the last byte.
    In particular 127 takes 1 byte, 128 takes 2, 2^32-1 takes 5 and 2^64-1
    takes 10. *)
Theorem varint_group_count (num : Z) (k : nat) (s : wstate) :
  0 <= num < 2 ^ 64 -> needs_groups num k ->
  Writer_writeLEB128 num s
  = (mk_wstate (os_ s ++ LEB128_bytes num) (wready_ s), Ok tt) /\
  length (LEB128_bytes num) = k /\
  (forall i, (i < k)%nat ->
     exists b, LEB128_bytes num !! i = Some b /\ 0 <= b < 256 /\
       Z.land b 127 = Z.land (Z.shiftr num (7 * Z.of_nat i)) 127 /\
       Z.testbit b 7 = negb (i =? k - 1)%nat) /\
  length (LEB128_bytes 127) = 1%nat /\
  length (LEB128_bytes 128) = 2%nat /\
  length (LEB128_bytes (2 ^ 32 - 1)) = 5%nat /\
  length (LEB128_bytes (2 ^ 64 - 1)) = 10%nat.
Proof.
  intros Hn Hg.
  assert (Hg' : needs_groups (uint64 num) k) by (rewrite uint64_small; assumption).
  pose proof (LEB128_bytes_groups num k Hg') as Hb.
  rewrite uint64_small in Hb by exact Hn.
  split; [apply Writer_writeLEB128_run |].
  split; [rewrite Hb; apply leb_groups_length |].
  split.
  - intros i Hi. exists (leb_byte (Z.shiftr num (7 * Z.of_nat i))).
    split; [rewrite Hb; apply leb_groups_lookup; exact Hi |].
    split; [apply leb_byte_range |].
    split; [apply leb_byte_low |].
    rewrite leb_byte_high. apply needs_groups_continues; assumption.
  - repeat split; vm_compute; reflexivity.
Qed.

Lemma varint_group_count_witness :
  0 <= 300 < 2 ^ 64 /\ needs_groups 300 2 /\
  length (LEB128_bytes 300) = 2%nat.
Proof.
  assert (Hn : 0 <= 300 < 2 ^ 64) by lia.
  assert (Hg : needs_groups 300 2).
  { split; [lia |]. split; [cbn; lia | right; cbn; lia]. }
  split; [exact Hn |]. split; [exact Hg |].
  exact (proj1 (proj2 (varint_group_count 300 2 wstate0 Hn Hg))).
Defined.

(** ** The varint decoder *)

Lemma uint64_land z : uint64 z = Z.land z (Z.ones 64).
Proof. unfold uint64. rewrite Z.land_ones by lia. reflexivity. Qed.

Lemma uint64_lor a b : uint64 (Z.lor a b) = Z.lor (uint64 a) (uint64 b).
Proof. rewrite !uint64_land. apply Z.land_lor_distr_l. Qed.

Lemma shiftl_split_w w num shift :
  0 < w -> 0 <= shift ->
  Z.shiftl num shift
  = Z.lor (Z.shiftl (Z.land num (Z.ones w)) shift)
          (Z.shiftl (Z.shiftr num w) (shift + w)).
Proof.
  intros Hw Hs. apply Z.bits_inj'. intros n Hn.
  rewrite Z.lor_spec, !Z.shiftl_spec by lia. rewrite Z.land_spec.
  destruct (Z.lt_ge_cases (n - shift) 0) as [Hlt | Hge].
  { rewrite !Z.testbit_neg_r by lia. reflexivity. }
  destruct (Z.lt_ge_cases (n - shift) w) as [Hltw | Hgew].
  - rewrite Z.ones_spec_low by lia.
    rewrite (Z.testbit_neg_r _ (n - (shift + w))) by lia.
    rewrite andb_true_r, orb_false_r. reflexivity.
  - rewrite Z.ones_spec_high by lia.
    rewrite andb_false_r, orb_false_l.
    rewrite Z.shiftr_spec by lia. f_equal. lia.
Qed.

Lemma shiftl_split num shift :
  0 <= shift ->
  Z.shiftl num shift
  = Z.lor (Z.shiftl (Z.land num 127) shift)
          (Z.shiftl (Z.shiftr num 7) (shift + 7)).
Proof. intros Hs. apply (shiftl_split_w 7); lia. Qed.

Lemma leb_byte_ge_128 num : (128 <=? leb_byte num) = (127 <? num).
Proof.
  rewrite leb_byte_val.
  assert (Hm : 0 <= num mod 128 < 128) by (apply Z.mod_pos_bound; lia).
  destruct (127 <? num); [apply Z.leb_le | apply Z.leb_gt]; lia.
Qed.

Lemma nextLEB128_loop_groups k : forall num rest acc shift,
  needs_groups num k -> 0 <= shift -> shift + 7 * (Z.of_nat k - 1) < 64 ->
  nextLEB128_loop (leb_groups k num ++ rest) acc shift
  = (rest, Ok (Z.lor acc (uint64 (Z.shiftl num shift)))).
Proof.
  induction k as [| k IH]; intros num rest acc shift Hg Hs Hk.
  { destruct Hg as (Hk' & _). lia. }
  cbn [leb_groups app nextLEB128_loop].
  rewrite (uchar_small _ (leb_byte_range num)).
  replace (64 <=? shift) with false by (symmetry; apply Z.leb_gt; lia).
  rewrite leb_byte_low, leb_byte_ge_128.
  rewrite (uint64_small (shift + 7)) by lia.
  destruct k as [| k].
  - destruct (needs_groups_one _ Hg) as [-> Hz]. cbn [leb_groups app].
    rewrite (shiftl_split num shift Hs), Hz, Z.shiftl_0_l, Z.lor_0_r.
    reflexivity.
  - destruct (needs_groups_step _ _ Hg) as (Hbig & _ & Hg').
    apply Z.ltb_lt in Hbig. rewrite Hbig.
    rewrite IH by (exact Hg' || lia).
    rewrite <- Z.lor_assoc, <- uint64_lor, <- shiftl_split by exact Hs.
    reflexivity.
Qed.

(** Decoding the varint of a [uint64_t] gives it back and stops right after
    its bytes. *)
Lemma Reader_nextLEB128_bytes m rest st :
  0 <= m < 2 ^ 64 ->
  Reader_nextLEB128 (mk_rstate (LEB128_bytes m ++ rest) st)
  = (mk_rstate rest st, Ok m).
Proof.
  intros Hm.
  destruct (needs_groups_exists m Hm) as [k Hg].
  assert (Hg' : needs_groups (uint64 m) k) by (rewrite uint64_small; assumption).
  rewrite (LEB128_bytes_groups m k Hg'), (uint64_small m Hm).
  unfold Reader_nextLEB128, on_input. cbn [is_ rready_].
  pose proof (needs_groups_le_10 m k ltac:(lia) Hg) as Hk.
  rewrite nextLEB128_loop_groups by (exact Hg || lia).
  rewrite Z.shiftl_0_r, Z.lor_0_l, (uint64_small m Hm). reflexivity.
Qed.

Lemma int64_small z : - 2 ^ 63 <= z < 2 ^ 63 -> int64 z = z.
Proof. intros H. unfold int64. rewrite Z.mod_small by lia. lia. Qed.

Lemma int64_range z : - 2 ^ 63 <= int64 z < 2 ^ 63.
Proof.
  unfold int64.
  assert (0 <= (z + 2 ^ 63) mod 2 ^ 64 < 2 ^ 64) by (apply Z.mod_pos_bound; lia).
  lia.
Qed.

(** ** Running the operations of a ready handle *)

Lemma Writer_checkReady_ok w s :
  wready_ s !! w = Some true -> Writer_checkReady w s = (s, Ok tt).
Proof. intros H. unfold Writer_checkReady. rewrite H. reflexivity. Qed.

Lemma Writer_checkReady_suspended w s :
  wready_ s !! w = Some false -> Writer_checkReady w s = (s, Throw LogicError).
Proof. intros H. unfold Writer_checkReady. rewrite H. reflexivity. Qed.

Lemma Reader_checkReady_ok r s :
  rready_ s !! r = Some true -> Reader_checkReady r s = (s, Ok tt).
Proof. intros H. unfold Reader_checkReady. rewrite H. reflexivity. Qed.

Lemma Reader_checkReady_suspended r s :
  rready_ s !! r = Some false -> Reader_checkReady r s = (s, Throw LogicError).
Proof. intros H. unfold Reader_checkReady. rewrite H. reflexivity. Qed.

Lemma Reader_ready_mk r input st :
  st !! r = Some true ->
  Reader_checkReady r (mk_rstate input st) = (mk_rstate input st, Ok tt).
Proof. intros H. apply Reader_checkReady_ok. exact H. Qed.

Lemma Reader_next_cons c rest st :
  Reader_next (mk_rstate (c :: rest) st) = (mk_rstate rest st, Ok (uchar c)).
Proof.
  unfold Reader_next, bind, is_get. cbn [is_ rready_].
  pose proof (uchar_range c) as Hc.
  replace (uchar c =? EOF) with false
    by (symmetry; apply Z.eqb_neq; unfold EOF; lia).
  reflexivity.
Qed.

Lemma bind_ok {St A B} (c : M St A) (k : A -> M St B) s s' a :
  c s = (s', Ok a) -> bind c k s = k a s'.
Proof. intros H. unfold bind. rewrite H. reflexivity. Qed.

Lemma bind_throw {St A B} (c : M St A) (k : A -> M St B) s s' e :
  c s = (s', Throw e) -> bind c k s = (s', Throw e).
Proof. intros H. unfold bind. rewrite H. reflexivity. Qed.

Lemma bind_assoc {St A B C} (c : M St A) (k1 : A -> M St B)
    (k2 : B -> M St C) s :
  bind (bind c k1) k2 s = bind c (fun a => bind (k1 a) k2) s.
Proof.
  unfold bind. destruct (c s) as [s' [a | e | |]]; reflexivity.
Qed.

(** [os_put] followed by [writeLEB128]: a tag and a varint. *)
Lemma put_LEB128_run tag num s :
  0 <= tag < 256 ->
  (os_put tag ;; Writer_writeLEB128 num) s
  = (mk_wstate (os_ s ++ tag :: LEB128_bytes num) (wready_ s), Ok tt).
Proof.
  intros Ht. unfold bind, os_put. rewrite Writer_writeLEB128_run.
  cbn [os_ wready_]. rewrite (uchar_small tag Ht), <- app_assoc. reflexivity.
Qed.

(** ** The bytes of [writeLEB128] are the varint of the format *)

Lemma leb_groups_varint_groups k : forall num j,
  needs_groups num k -> (k <= j)%nat ->
  leb_groups k num = varint_groups j num.
Proof.
  induction k as [| k IH]; intros num j Hg Hj.
  { destruct Hg as (Hk & _). lia. }
  destruct j as [| j]; [lia |].
  cbn [leb_groups varint_groups]. rewrite leb_byte_val.
  destruct k as [| k].
  - destruct (needs_groups_one _ Hg) as [Hsmall _].
    destruct Hg as (_ & [H0 H1] & _). change (128 ^ Z.of_nat 1) with 128 in H1.
    rewrite Hsmall. cbn [leb_groups].
    replace (num <? 128) with true by (symmetry; apply Z.ltb_lt; lia).
    rewrite Z.mod_small by lia. reflexivity.
  - destruct (needs_groups_step _ _ Hg) as (Hbig & _ & Hg').
    replace (127 <? num) with true by (symmetry; apply Z.ltb_lt; lia).
    replace (num <? 128) with false by (symmetry; apply Z.ltb_ge; lia).
    f_equal. rewrite <- shiftr_7. apply IH; [exact Hg' | lia].
Qed.

Lemma LEB128_bytes_varint_spec num :
  0 <= num < 2 ^ 64 -> LEB128_bytes num = varint_spec num.
Proof.
  intros Hn. destruct (needs_groups_exists num Hn) as [k Hg].
  assert (Hg' : needs_groups (uint64 num) k) by (rewrite uint64_small; assumption).
  rewrite (LEB128_bytes_groups num k Hg'), (uint64_small num Hn).
  apply leb_groups_varint_groups; [exact Hg |].
  apply (needs_groups_le_10 num k); [lia | exact Hg].
Qed.

(** ** Integers *)

(** C2: on a ready handle, [writeInt] and [writeUInt] write an integer in
    [0, 9] as the single byte ['0' + n]; from 10 on they write the ['+'] tag
    and the varint of [n]; [writeInt] writes a negative [n] above the signed
    minimum as the ['-'] tag and the varint of [-n]; and the tag [writeUInt]
    writes is never ['-'].  The varint is the one the format describes,
    [varint_spec], not whatever [writeLEB128] happens to write. *)
Theorem small_integer_boundary (w : Writer) (s : wstate) :
  wready_ s !! w = Some true ->
  (forall n, 0 <= n <= 9 ->
     Writer_writeInt w n s
     = (mk_wstate (os_ s ++ [chr "0" + n]) (wready_ s), Ok tt) /\
     Writer_writeUInt w n s
     = (mk_wstate (os_ s ++ [chr "0" + n]) (wready_ s), Ok tt)) /\
  (forall n, 10 <= n <= INT64_MAX ->
     Writer_writeInt w n s
     = (mk_wstate (os_ s ++ chr "+" :: varint_spec n) (wready_ s), Ok tt)) /\
  (forall n, 10 <= n < 2 ^ 64 ->
     Writer_writeUInt w n s
     = (mk_wstate (os_ s ++ chr "+" :: varint_spec n) (wready_ s), Ok tt)) /\
  (forall n, INT64_MIN < n < 0 ->
     Writer_writeInt w n s
     = (mk_wstate (os_ s ++ chr "-" :: varint_spec (- n)) (wready_ s), Ok tt)) /\
  (forall n, 0 <= n < 2 ^ 64 ->
     exists tag payload,
       Writer_writeUInt w n s
       = (mk_wstate (os_ s ++ tag :: payload) (wready_ s), Ok tt) /\
       tag <> chr "-").
Proof.
  intros Hr.
  assert (Hput : forall n, 0 <= n <= 9 ->
            os_put (chr "0" + n) s
            = (mk_wstate (os_ s ++ [chr "0" + n]) (wready_ s), Ok tt)).
  { intros n Hn. unfold os_put. rewrite uchar_small; [reflexivity |].
    change (chr "0") with 48. lia. }
  assert (Hu9 : forall n, 0 <= n <= 9 ->
            Writer_writeUInt w n s
            = (mk_wstate (os_ s ++ [chr "0" + n]) (wready_ s), Ok tt)).
  { intros n Hn. unfold Writer_writeUInt.
    rewrite (bind_ok _ _ _ _ _ (Writer_checkReady_ok w s Hr)).
    replace (n <=? 9) with true by (symmetry; apply Z.leb_le; lia).
    apply Hput, Hn. }
  assert (Hu10 : forall n, 10 <= n < 2 ^ 64 ->
            Writer_writeUInt w n s
            = (mk_wstate (os_ s ++ chr "+" :: varint_spec n) (wready_ s), Ok tt)).
  { intros n Hn. unfold Writer_writeUInt.
    rewrite (bind_ok _ _ _ _ _ (Writer_checkReady_ok w s Hr)).
    replace (n <=? 9) with false by (symmetry; apply Z.leb_gt; lia).
    rewrite <- (LEB128_bytes_varint_spec n) by lia.
    apply put_LEB128_run. change (chr "+") with 43. lia. }
  split; [| split; [| split; [| split]]].
  - intros n Hn. split; [| apply Hu9, Hn].
    unfold Writer_writeInt.
    rewrite (bind_ok _ _ _ _ _ (Writer_checkReady_ok w s Hr)).
    replace (n =? INT64_MIN) with false
      by (symmetry; apply Z.eqb_neq; unfold INT64_MIN; lia).
    replace (n <? 0) with false by (symmetry; apply Z.ltb_ge; lia).
    replace (n <=? 9) with true by (symmetry; apply Z.leb_le; lia).
    apply Hput, Hn.
  - intros n Hn. unfold INT64_MAX in Hn. unfold Writer_writeInt.
    rewrite (bind_ok _ _ _ _ _ (Writer_checkReady_ok w s Hr)).
    replace (n =? INT64_MIN) with false
      by (symmetry; apply Z.eqb_neq; unfold INT64_MIN; lia).
    replace (n <? 0) with false by (symmetry; apply Z.ltb_ge; lia).
    replace (n <=? 9) with false by (symmetry; apply Z.leb_gt; lia).
    rewrite <- (LEB128_bytes_varint_spec n) by lia.
    apply put_LEB128_run. change (chr "+") with 43. lia.
  - intros n Hn. apply Hu10. lia.
  - intros n Hn. unfold INT64_MIN in Hn. unfold Writer_writeInt.
    rewrite (bind_ok _ _ _ _ _ (Writer_checkReady_ok w s Hr)).
    replace (n =? INT64_MIN) with false
      by (symmetry; apply Z.eqb_neq; unfold INT64_MIN; lia).
    replace (n <? 0) with true by (symmetry; apply Z.ltb_lt; lia).
    rewrite int64_small by lia.
    rewrite <- (LEB128_bytes_varint_spec (- n)) by lia.
    apply put_LEB128_run. change (chr "-") with 45. lia.
  - intros n Hn. destruct (Z.le_gt_cases n 9) as [Hle | Hgt].
    + exists (chr "0" + n), []. split; [apply Hu9; lia |].
      change (chr "0") with 48. change (chr "-") with 45. lia.
    + exists (chr "+"), (varint_spec n). split; [apply Hu10; lia |].
      discriminate.
Qed.

Lemma small_integer_boundary_witness :
  wready_ wstate0 !! 0%nat = Some true /\
  Writer_writeInt 0%nat 7 wstate0 = (mk_wstate [55] [true], Ok tt) /\
  Writer_writeInt 0%nat 300 wstate0 = (mk_wstate [43; 172; 2] [true], Ok tt) /\
  Writer_writeUInt 0%nat 128 wstate0 = (mk_wstate [43; 128; 1] [true], Ok tt) /\
  Writer_writeInt 0%nat (-66) wstate0 = (mk_wstate [45; 66] [true], Ok tt) /\
  Writer_writeInt 0%nat (-300) wstate0 = (mk_wstate [45; 172; 2] [true], Ok tt).
Proof.
  assert (Hr : wready_ wstate0 !! 0%nat = Some true) by reflexivity.
  pose proof (small_integer_boundary 0%nat wstate0 Hr)
    as (H9 & H10 & Hu10 & Hneg & _).
  split; [exact Hr |]. split; [| split; [| split; [| split]]].
  - exact (proj1 (H9 7 ltac:(lia))).
  - exact (H10 300 ltac:(unfold INT64_MAX; lia)).
  - exact (Hu10 128 ltac:(lia)).
  - exact (Hneg (-66) ltac:(unfold INT64_MIN; lia)).
  - exact (Hneg (-300) ltac:(unfold INT64_MIN; lia)).
Defined.

(** The magnitude [writeInt] computes for the signed minimum. *)
Lemma INT64_MIN_magnitude : uint64 (uint64 INT64_MAX + uint64 1) = 2 ^ 63.
Proof. vm_compute. reflexivity. Qed.



Lemma int64_uint64 z : int64 (uint64 z) = int64 z.
Proof.
  unfold int64, uint64.
  rewrite Zplus_mod_idemp_l. reflexivity.
Qed.

Lemma int64_congr z : (int64 z - z) mod 2 ^ 64 = 0.
Proof.
  unfold int64.
  replace ((z + 2 ^ 63) mod 2 ^ 64 - 2 ^ 63 - z)
    with ((z + 2 ^ 63) mod 2 ^ 64 - (z + 2 ^ 63)) by lia.
  rewrite Zminus_mod_idemp_l, Z.sub_diag. reflexivity.
Qed.

(** C10: [getInt] never rejects a magnitude.  After a ['+'] tag the varint
    magnitude [m] is returned converted to [int64_t], which for
    [m > 2^63 - 1] is the negative number [m - 2^64]; after a ['-'] tag the
    result is [-m] converted to [int64_t], the two's-complement value
    congruent to [-m] modulo [2^64]. *)
Theorem getInt_wraps (r : Reader) (st : store) (rest : list Z) (m : Z) :
  st !! r = Some true -> 0 <= m < 2 ^ 64 ->
  Reader_getInt r (mk_rstate (chr "+" :: LEB128_bytes m ++ rest) st)
  = (mk_rstate rest st, Ok (int64 m)) /\
  (2 ^ 63 - 1 < m -> int64 m = m - 2 ^ 64 /\ int64 m < 0) /\
  Reader_getInt r (mk_rstate (chr "-" :: LEB128_bytes m ++ rest) st)
  = (mk_rstate rest st, Ok (int64 (- m))) /\
  - 2 ^ 63 <= int64 (- m) < 2 ^ 63 /\ (int64 (- m) - - m) mod 2 ^ 64 = 0.
Proof.
  intros Hr Hm.
  split; [| split; [| split]].
  - unfold Reader_getInt.
    rewrite (bind_ok _ _ _ _ _ (Reader_ready_mk r _ st Hr)).
    rewrite (bind_ok _ _ _ _ _ (Reader_next_cons _ _ st)).
    change (uchar (chr "+")) with 43.
    change ((chr "0" <=? 43) && (43 <=? chr "9")) with false.
    change (43 =? chr "+") with true. cbv iota.
    rewrite (bind_ok _ _ _ _ _ (Reader_nextLEB128_bytes m rest st Hm)).
    reflexivity.
  - intros Hbig.
    assert (He : int64 m = m - 2 ^ 64).
    { unfold int64.
      replace (m + 2 ^ 63) with (m - 2 ^ 63 + 1 * 2 ^ 64) by lia.
      rewrite Z.mod_add by lia. rewrite Z.mod_small by lia. lia. }
    split; [exact He | lia].
  - unfold Reader_getInt.
    rewrite (bind_ok _ _ _ _ _ (Reader_ready_mk r _ st Hr)).
    rewrite (bind_ok _ _ _ _ _ (Reader_next_cons _ _ st)).
    change (uchar (chr "-")) with 45.
    change ((chr "0" <=? 45) && (45 <=? chr "9")) with false.
    change (45 =? chr "+") with false. change (45 =? chr "-") with true.
    cbv iota.
    rewrite (bind_ok _ _ _ _ _ (Reader_nextLEB128_bytes m rest st Hm)).
    unfold ret. rewrite int64_uint64. reflexivity.
  - split; [apply int64_range | apply int64_congr].
Qed.

Lemma getInt_wraps_witness :
  [true] !! 0%nat = Some true /\ 0 <= 2 ^ 64 - 1 < 2 ^ 64 /\
  Reader_getInt 0%nat (mk_rstate (chr "+" :: LEB128_bytes (2 ^ 64 - 1) ++ []) [true])
  = (mk_rstate [] [true], Ok (-1)) /\
  Reader_getInt 0%nat (mk_rstate (chr "-" :: LEB128_bytes (2 ^ 64 - 1) ++ []) [true])
  = (mk_rstate [] [true], Ok 1).
Proof.
  assert (Hr : [true] !! 0%nat = Some true) by reflexivity.
  assert (Hm : 0 <= 2 ^ 64 - 1 < 2 ^ 64) by lia.
  destruct (getInt_wraps 0%nat [true] [] (2 ^ 64 - 1) Hr Hm) as (Hp & _ & Hn & _).
  split; [exact Hr |]. split; [exact Hm |]. split; [exact Hp | exact Hn].
Defined.

(** ** Floats *)

Lemma le_byte_range x i : 0 <= le_byte x i < 256.
Proof.
  unfold le_byte. change 255 with (Z.ones 8). rewrite Z.land_ones by lia.
  apply Z.mod_pos_bound. lia.
Qed.

(** What one [(char)((n & mask) >> shift)] of the writer puts on the stream. *)
Lemma put_masked_byte n i mask :
  mask = Z.shiftl 255 (8 * Z.of_nat i) ->
  uchar (Z.shiftr (Z.land n mask) (8 * Z.of_nat i)) = le_byte n i.
Proof.
  intros ->. rewrite Z.shiftr_land, Z.shiftr_shiftl_l by lia.
  rewrite Z.sub_diag, Z.shiftl_0_r.
  apply uchar_small, le_byte_range.
Qed.

(** A shifted byte fits the word it is or-ed into. *)
Lemma shifted_byte_fits x i k W :
  k = 8 * Z.of_nat i -> k + 8 <= W ->
  (Z.shiftl (uchar (uchar (le_byte x i))) k) mod 2 ^ W
  = Z.shiftl (Z.land (Z.shiftr x k) (Z.ones 8)) k.
Proof.
  intros -> HW. rewrite uchar_idem, (uchar_small _ (le_byte_range x i)).
  pose proof (le_byte_range x i) as Hb. unfold le_byte in *.
  change (Z.ones 8) with 255.
  apply Z.mod_small. rewrite Z.shiftl_mul_pow2 by lia.
  split; [apply Z.mul_nonneg_nonneg; lia |].
  apply Z.lt_le_trans with (256 * 2 ^ (8 * Z.of_nat i)).
  - apply Z.mul_lt_mono_pos_r; [apply Z.pow_pos_nonneg; lia | lia].
  - change 256 with (2 ^ 8). rewrite <- Z.pow_add_r by lia.
    apply Z.pow_le_mono_r; lia.
Qed.

Lemma shiftr_high_zero x W : 0 <= x < 2 ^ W -> 0 <= W -> Z.shiftr x W = 0.
Proof.
  intros Hx HW. rewrite Z.shiftr_div_pow2 by lia. apply Z.div_small. exact Hx.
Qed.

(** Putting the byte at bit [k] back under the bits above it. *)
Lemma peel_byte x k k' :
  0 <= k -> k' = k + 8 ->
  Z.lor (Z.shiftl (Z.land (Z.shiftr x k) (Z.ones 8)) k)
        (Z.shiftl (Z.shiftr x k') k')
  = Z.shiftl (Z.shiftr x k) k.
Proof.
  intros Hk ->. rewrite (shiftl_split_w 8 (Z.shiftr x k) k) by lia.
  rewrite Z.shiftr_shiftr by lia. reflexivity.
Qed.

Lemma top_byte x k :
  0 <= k -> 0 <= x < 2 ^ (k + 8) ->
  Z.shiftl (Z.land (Z.shiftr x k) (Z.ones 8)) k = Z.shiftl (Z.shiftr x k) k.
Proof.
  intros Hk Hx. rewrite <- (peel_byte x k (k + 8)) by lia.
  rewrite (shiftr_high_zero x (k + 8)) by lia.
  rewrite Z.shiftl_0_l, Z.lor_0_r. reflexivity.
Qed.

(** Or-ing the four little-endian bytes back together. *)
Lemma le_join_32 f :
  0 <= f < 2 ^ 32 ->
  Z.lor (Z.lor (Z.lor (Z.lor 0
    (uint32 (Z.shiftl (uchar (uchar (le_byte f 0))) 0)))
    (uint32 (Z.shiftl (uchar (uchar (le_byte f 1))) 8)))
    (uint32 (Z.shiftl (uchar (uchar (le_byte f 2))) 16)))
    (uint32 (Z.shiftl (uchar (uchar (le_byte f 3))) 24)) = f.
Proof.
  intros Hf. unfold uint32.
  rewrite (shifted_byte_fits f 0 0 32), (shifted_byte_fits f 1 8 32),
    (shifted_byte_fits f 2 16 32), (shifted_byte_fits f 3 24 32) by lia.
  rewrite Z.lor_0_l, <- !Z.lor_assoc.
  rewrite (top_byte f 24) by lia.
  rewrite (peel_byte f 16 24), (peel_byte f 8 16), (peel_byte f 0 8) by lia.
  rewrite Z.shiftr_0_r. apply Z.shiftl_0_r.
Qed.

Lemma le_join_64 d :
  0 <= d < 2 ^ 64 ->
  Z.lor (Z.lor (Z.lor (Z.lor (Z.lor (Z.lor (Z.lor (Z.lor 0
    (uint64 (Z.shiftl (uchar (uchar (le_byte d 0))) 0)))
    (uint64 (Z.shiftl (uchar (uchar (le_byte d 1))) 8)))
    (uint64 (Z.shiftl (uchar (uchar (le_byte d 2))) 16)))
    (uint64 (Z.shiftl (uchar (uchar (le_byte d 3))) 24)))
    (uint64 (Z.shiftl (uchar (uchar (le_byte d 4))) 32)))
    (uint64 (Z.shiftl (uchar (uchar (le_byte d 5))) 40)))
    (uint64 (Z.shiftl (uchar (uchar (le_byte d 6))) 48)))
    (uint64 (Z.shiftl (uchar (uchar (le_byte d 7))) 56)) = d.
Proof.
  intros Hd. unfold uint64.
  rewrite (shifted_byte_fits d 0 0 64), (shifted_byte_fits d 1 8 64),
    (shifted_byte_fits d 2 16 64), (shifted_byte_fits d 3 24 64),
    (shifted_byte_fits d 4 32 64), (shifted_byte_fits d 5 40 64),
    (shifted_byte_fits d 6 48 64), (shifted_byte_fits d 7 56 64) by lia.
  rewrite Z.lor_0_l, <- !Z.lor_assoc.
  rewrite (top_byte d 56) by lia.
  rewrite (peel_byte d 48 56), (peel_byte d 40 48), (peel_byte d 32 40),
    (peel_byte d 24 32), (peel_byte d 16 24), (peel_byte d 8 16),
    (peel_byte d 0 8) by lia.
  rewrite Z.shiftr_0_r. apply Z.shiftl_0_r.
Qed.

(** C5: every float32 and float64 bit pattern (infinities, NaNs and signed
    zeros among them) is written as its tag followed by the bytes of the
    pattern in little-endian order, and reading those bytes back returns
    the identical bit pattern. *)
Theorem float_roundtrip (w : Writer) (s : wstate) (r : Reader) (st : store)
    (rest : list Z) (f d : Z) :
  wready_ s !! w = Some true -> st !! r = Some true ->
  0 <= f < 2 ^ 32 -> 0 <= d < 2 ^ 64 ->
  Writer_writeFloat w f s
  = (mk_wstate (os_ s ++ chr "f" :: le_bytes 4 f) (wready_ s), Ok tt) /\
  Reader_getFloat r (mk_rstate (chr "f" :: le_bytes 4 f ++ rest) st)
  = (mk_rstate rest st, Ok f) /\
  Writer_writeDouble w d s
  = (mk_wstate (os_ s ++ chr "d" :: le_bytes 8 d) (wready_ s), Ok tt) /\
  Reader_getDouble r (mk_rstate (chr "d" :: le_bytes 8 d ++ rest) st)
  = (mk_rstate rest st, Ok d).
Proof.
  intros Hw Hr Hf Hd.
  split; [| split; [| split]].
  - unfold Writer_writeFloat.
    rewrite (bind_ok _ _ _ _ _ (Writer_checkReady_ok w s Hw)).
    rewrite (uint32_small f Hf).
    unfold bind, os_put. cbn [os_ wready_].
    rewrite (put_masked_byte f 0), (put_masked_byte f 1),
      (put_masked_byte f 2), (put_masked_byte f 3) by reflexivity.
    rewrite <- !app_assoc. reflexivity.
  - unfold Reader_getFloat.
    rewrite (bind_ok _ _ _ _ _ (Reader_ready_mk r _ st Hr)).
    unfold bind at 1. unfold is_get. cbn [is_ rready_ negb le_bytes seq map app].
    change (uchar (chr "f") =? chr "f") with true. cbv iota. cbn [negb].
    rewrite (bind_ok _ _ _ _ _ (Reader_next_cons _ _ st)).
    rewrite (bind_ok _ _ _ _ _ (Reader_next_cons _ _ st)).
    rewrite (bind_ok _ _ _ _ _ (Reader_next_cons _ _ st)).
    rewrite (bind_ok _ _ _ _ _ (Reader_next_cons _ _ st)).
    unfold ret. rewrite (le_join_32 f Hf). reflexivity.
  - unfold Writer_writeDouble.
    rewrite (bind_ok _ _ _ _ _ (Writer_checkReady_ok w s Hw)).
    rewrite (uint64_small d Hd).
    unfold bind, os_put. cbn [os_ wready_].
    rewrite (put_masked_byte d 0), (put_masked_byte d 1),
      (put_masked_byte d 2), (put_masked_byte d 3),
      (put_masked_byte d 4), (put_masked_byte d 5),
      (put_masked_byte d 6), (put_masked_byte d 7) by reflexivity.
    rewrite <- !app_assoc. reflexivity.
  - unfold Reader_getDouble.
    rewrite (bind_ok _ _ _ _ _ (Reader_ready_mk r _ st Hr)).
    unfold bind at 1. unfold is_get. cbn [is_ rready_ negb le_bytes seq map app].
    change (uchar (chr "d") =? chr "d") with true. cbv iota. cbn [negb].
    do 8 rewrite (bind_ok _ _ _ _ _ (Reader_next_cons _ _ st)).
    unfold ret. rewrite (le_join_64 d Hd). reflexivity.
Qed.

Lemma float_roundtrip_witness :
  wready_ wstate0 !! 0%nat = Some true /\ [true] !! 0%nat = Some true /\
  0 <= 0x7f800000 < 2 ^ 32 /\ 0 <= 0x8000000000000000 < 2 ^ 64 /\
  Reader_getFloat 0%nat (mk_rstate (chr "f" :: le_bytes 4 0x7f800000 ++ []) [true])
  = (mk_rstate [] [true], Ok 0x7f800000) /\
  Reader_getDouble 0%nat
    (mk_rstate (chr "d" :: le_bytes 8 0x8000000000000000 ++ []) [true])
  = (mk_rstate [] [true], Ok 0x8000000000000000).
Proof.
  assert (Hw : wready_ wstate0 !! 0%nat = Some true) by reflexivity.
  assert (Hr : [true] !! 0%nat = Some true) by reflexivity.
  assert (Hf : 0 <= 0x7f800000 < 2 ^ 32) by lia.
  assert (Hd : 0 <= 0x8000000000000000 < 2 ^ 64) by lia.
  destruct (float_roundtrip 0%nat wstate0 0%nat [true] [] _ _ Hw Hr Hf Hd)
    as (_ & Hgf & _ & Hgd).
  repeat (split; [assumption |]). exact Hgd.
Defined.

(** ** What the writer appends *)

Lemma emits_put c : emits (os_put c) [uchar c].
Proof. intros s. reflexivity. Qed.

Lemma emits_write data : emits (os_write data) (map uchar data).
Proof. intros s. reflexivity. Qed.

Lemma emits_LEB128 num : emits (Writer_writeLEB128 num) (LEB128_bytes num).
Proof. intros s. apply Writer_writeLEB128_run. Qed.

Lemma emits_bind c k b1 b2 :
  emits c b1 -> emits k b2 -> emits (c ;; k) (b1 ++ b2).
Proof.
  intros Hc Hk s. unfold bind. rewrite Hc, Hk. cbn [os_ wready_].
  rewrite app_assoc. reflexivity.
Qed.

Lemma emits_eq c b1 b2 : emits c b1 -> b1 = b2 -> emits c b2.
Proof. intros H <-. exact H. Qed.

Lemma le_bytes_4 n : le_bytes 4 n = [le_byte n 0; le_byte n 1; le_byte n 2; le_byte n 3].
Proof. reflexivity. Qed.

Lemma le_bytes_8 n :
  le_bytes 8 n = [le_byte n 0; le_byte n 1; le_byte n 2; le_byte n 3;
                  le_byte n 4; le_byte n 5; le_byte n 6; le_byte n 7].
Proof. reflexivity. Qed.

Lemma emits_masked n i mask :
  mask = Z.shiftl 255 (8 * Z.of_nat i) ->
  emits (os_put (Z.shiftr (Z.land n mask) (8 * Z.of_nat i))) [le_byte n i].
Proof.
  intros Hm. eapply emits_eq; [apply emits_put |].
  rewrite (put_masked_byte n i mask Hm). reflexivity.
Qed.

Lemma scalar_write_emits op w s :
  wready_ s !! w = Some true ->
  run_scalar_write op w s
  = (mk_wstate (os_ s ++ scalar_bytes op) (wready_ s), Ok tt).
Proof.
  intros Hr.
  assert (Hc := Writer_checkReady_ok w s Hr).
  assert (Hchr : forall a, uchar (chr a) = chr a).
  { intros a. apply uchar_small. unfold chr.
    pose proof (N_ascii_bounded a) as Hb. lia. }
  destruct op; cbn [run_scalar_write scalar_bytes].
  - unfold Writer_writeTrue. rewrite (bind_ok _ _ _ _ _ Hc).
    eapply emits_eq; [apply emits_put | rewrite Hchr; reflexivity].
  - unfold Writer_writeFalse. rewrite (bind_ok _ _ _ _ _ Hc).
    eapply emits_eq; [apply emits_put | rewrite Hchr; reflexivity].
  - unfold Writer_writeBool. rewrite (bind_ok _ _ _ _ _ Hc).
    destruct b; [unfold Writer_writeTrue | unfold Writer_writeFalse];
      rewrite (bind_ok _ _ _ _ _ Hc);
      (eapply emits_eq; [apply emits_put | rewrite Hchr; reflexivity]).
  - unfold Writer_writeNull. rewrite (bind_ok _ _ _ _ _ Hc).
    eapply emits_eq; [apply emits_put | rewrite Hchr; reflexivity].
  - unfold Writer_writeString. rewrite (bind_ok _ _ _ _ _ Hc).
    eapply emits_eq.
    + apply emits_bind; [apply emits_put |].
      apply emits_bind; [apply emits_write | apply emits_put].
    + rewrite Hchr. reflexivity.
  - unfold Writer_writeFloat. rewrite (bind_ok _ _ _ _ _ Hc).
    eapply emits_eq.
    + apply emits_bind; [apply emits_put |].
      apply emits_bind; [apply (emits_masked _ 0); reflexivity |].
      apply emits_bind; [apply (emits_masked _ 1); reflexivity |].
      apply emits_bind; [apply (emits_masked _ 2); reflexivity |].
      apply (emits_masked _ 3); reflexivity.
    + rewrite Hchr, le_bytes_4. reflexivity.
  - unfold Writer_writeDouble. rewrite (bind_ok _ _ _ _ _ Hc).
    eapply emits_eq.
    + apply emits_bind; [apply emits_put |].
      apply emits_bind; [apply (emits_masked _ 0); reflexivity |].
      apply emits_bind; [apply (emits_masked _ 1); reflexivity |].
      apply emits_bind; [apply (emits_masked _ 2); reflexivity |].
      apply emits_bind; [apply (emits_masked _ 3); reflexivity |].
      apply emits_bind; [apply (emits_masked _ 4); reflexivity |].
      apply emits_bind; [apply (emits_masked _ 5); reflexivity |].
      apply emits_bind; [apply (emits_masked _ 6); reflexivity |].
      apply (emits_masked _ 7); reflexivity.
    + rewrite Hchr, le_bytes_8. reflexivity.
  - unfold Writer_writeBinary. rewrite (bind_ok _ _ _ _ _ Hc).
    eapply emits_eq.
    + apply emits_bind; [apply emits_put |].
      apply emits_bind; [apply emits_LEB128 | apply emits_write].
    + rewrite Hchr. reflexivity.
  - unfold Writer_writeInt. rewrite (bind_ok _ _ _ _ _ Hc).
    destruct (num =? INT64_MIN).
    { eapply emits_eq.
      - apply emits_bind; [apply emits_put | apply emits_LEB128].
      - rewrite Hchr, INT64_MIN_magnitude. reflexivity. }
    destruct (num <? 0).
    { eapply emits_eq.
      - apply emits_bind; [apply emits_put | apply emits_LEB128].
      - rewrite Hchr. reflexivity. }
    destruct (num <=? 9); [apply emits_put |].
    eapply emits_eq.
    + apply emits_bind; [apply emits_put | apply emits_LEB128].
    + rewrite Hchr. reflexivity.
  - unfold Writer_writeUInt. rewrite (bind_ok _ _ _ _ _ Hc).
    destruct (num <=? 9); [apply emits_put |].
    eapply emits_eq.
    + apply emits_bind; [apply emits_put | apply emits_LEB128].
    + rewrite Hchr. reflexivity.
Qed.

Lemma scalar_write_suspended op w s :
  wready_ s !! w = Some false ->
  run_scalar_write op w s = (s, Throw LogicError).
Proof.
  intros Hr.
  assert (Hc := Writer_checkReady_suspended w s Hr).
  destruct op; cbn [run_scalar_write];
    apply (bind_throw _ _ _ _ _ Hc).
Qed.

Lemma scalar_write_dangling op w s :
  wready_ s !! w = None ->
  run_scalar_write op w s = (s, Undefined).
Proof.
  intros Hr.
  assert (Hc : Writer_checkReady w s = (s, Undefined))
    by (unfold Writer_checkReady; rewrite Hr; reflexivity).
  destruct op; cbn [run_scalar_write];
    unfold Writer_writeTrue, Writer_writeFalse, Writer_writeBool,
      Writer_writeNull, Writer_writeString, Writer_writeFloat,
      Writer_writeDouble, Writer_writeBinary, Writer_writeInt,
      Writer_writeUInt, bind; rewrite Hc; reflexivity.
Qed.

(** ** The ready discipline of the writer *)

(** The state in which the callback of [writeArray] starts: the opening tag
    is written, the parent is suspended and the child exists. *)
Lemma Writer_writeArray_enter w func s :
  wready_ s !! w = Some true ->
  Writer_writeArray w func s
  = (func (length (wready_ s)) ;;
     Writer_set_ready w true ;;
     os_put (chr "]"))
      (mk_wstate (os_ s ++ [chr "["]) (<[w := false]> (wready_ s) ++ [true])).
Proof.
  intros Hr. unfold Writer_writeArray.
  rewrite (bind_ok _ _ _ _ _ (Writer_checkReady_ok w s Hr)).
  unfold bind at 1. unfold os_put at 1.
  unfold bind at 1. unfold Writer_set_ready at 1.
  unfold bind at 1. unfold new_Writer. cbn [os_ wready_].
  rewrite length_insert. reflexivity.
Qed.

Lemma Writer_writeObject_enter w func s :
  wready_ s !! w = Some true ->
  Writer_writeObject w func s
  = (func tt ;;
     Writer_set_ready w true ;;
     os_put (chr "}"))
      (mk_wstate (os_ s ++ [chr "{"]) (<[w := false]> (wready_ s))).
Proof.
  intros Hr. unfold Writer_writeObject.
  rewrite (bind_ok _ _ _ _ _ (Writer_checkReady_ok w s Hr)).
  unfold bind at 1. unfold os_put at 1.
  unfold bind at 1. unfold Writer_set_ready at 1. reflexivity.
Qed.

Lemma lookup_suspended (st : store) (w : nat) (extra : store) :
  st !! w = Some true -> (<[w := false]> st ++ extra) !! w = Some false.
Proof.
  intros Hr. apply lookup_lt_Some in Hr as Hlt.
  rewrite lookup_app_l by (rewrite length_insert; exact Hlt).
  apply list_lookup_insert_eq. exact Hlt.
Qed.

(** C6: a scalar write on a handle whose [ready_] flag is down fails with
    [LogicError] and changes nothing; the flag is down while the callback of
    a [writeArray] or [writeObject] opened from that handle runs, so a
    scalar write on the parent inside the callback makes the whole call
    fail with [LogicError]; and [LogicError] is not a [ParseError]. *)
Theorem suspended_write_is_usage_error (w : Writer) (s : wstate)
    (op : scalar_write) :
  wready_ s !! w = Some true ->
  (forall s', wready_ s' !! w = Some false ->
     run_scalar_write op w s' = (s', Throw LogicError)) /\
  Writer_writeArray w (fun _ => run_scalar_write op w) s
  = (mk_wstate (os_ s ++ [chr "["]) (<[w := false]> (wready_ s) ++ [true]),
     Throw LogicError) /\
  Writer_writeObject w (fun _ => run_scalar_write op w) s
  = (mk_wstate (os_ s ++ [chr "{"]) (<[w := false]> (wready_ s)),
     Throw LogicError) /\
  (forall what, LogicError <> ParseError what).
Proof.
  intros Hr. split; [| split; [| split]].
  - intros s' Hs'. apply scalar_write_suspended. exact Hs'.
  - rewrite (Writer_writeArray_enter w _ s Hr).
    apply bind_throw, scalar_write_suspended. cbn [wready_].
    apply lookup_suspended. exact Hr.
  - rewrite (Writer_writeObject_enter w _ s Hr).
    apply bind_throw, scalar_write_suspended. cbn [wready_].
    rewrite <- (app_nil_r (<[w := false]> (wready_ s))).
    apply lookup_suspended. exact Hr.
  - intros what. discriminate.
Qed.

Lemma suspended_write_is_usage_error_witness :
  wready_ wstate0 !! 0%nat = Some true /\
  Writer_writeArray 0%nat (fun _ => Writer_writeInt 0%nat 10) wstate0
  = (mk_wstate [chr "["] [false; true], Throw LogicError).
Proof.
  assert (Hr : wready_ wstate0 !! 0%nat = Some true) by reflexivity.
  split; [exact Hr |].
  exact (proj1 (proj2
    (suspended_write_is_usage_error 0%nat wstate0 (SWInt 10) Hr))).
Defined.

(** C9, as the code has it: every [Writer] operation checks [ready_] before
    it writes, so an operation called on a suspended handle fails with
    [LogicError] and leaves the stream as it was, and a scalar write that
    fails with [LogicError] has written nothing.  [writeArray] and
    [writeObject] on a ready handle have written their opening tag by the
    time their callback runs: a [LogicError] raised by the callback leaves
    them from the state the callback reached, opening tag included. *)
Theorem usage_error_writes_nothing (w : Writer) (s : wstate) :
  (forall op s', run_scalar_write op w s = (s', Throw LogicError) -> s' = s) /\
  (wready_ s !! w = Some false ->
     (forall op, run_scalar_write op w s = (s, Throw LogicError)) /\
     (forall func, Writer_writeArray w func s = (s, Throw LogicError)) /\
     (forall func, Writer_writeObject w func s = (s, Throw LogicError))) /\
  (wready_ s !! w = Some true ->
     (forall func s2,
        func (length (wready_ s))
          (mk_wstate (os_ s ++ [chr "["]) (<[w := false]> (wready_ s) ++ [true]))
        = (s2, Throw LogicError) ->
        Writer_writeArray w func s = (s2, Throw LogicError)) /\
     (forall func s2,
        func tt (mk_wstate (os_ s ++ [chr "{"]) (<[w := false]> (wready_ s)))
        = (s2, Throw LogicError) ->
        Writer_writeObject w func s = (s2, Throw LogicError))).
Proof.
  split; [| split].
  - intros op s' Hrun.
    destruct (wready_ s !! w) as [[|] |] eqn:Hr.
    + rewrite (scalar_write_emits op w s Hr) in Hrun. discriminate.
    + rewrite (scalar_write_suspended op w s Hr) in Hrun.
      injection Hrun as <-. reflexivity.
    + rewrite (scalar_write_dangling op w s Hr) in Hrun. discriminate.
  - intros Hr. split; [| split].
    + intros op. apply scalar_write_suspended. exact Hr.
    + intros func. unfold Writer_writeArray.
      apply bind_throw, Writer_checkReady_suspended. exact Hr.
    + intros func. unfold Writer_writeObject.
      apply bind_throw, Writer_checkReady_suspended. exact Hr.
  - intros Hr. split.
    + intros func s2 Hf. rewrite (Writer_writeArray_enter w func s Hr).
      apply (bind_throw _ _ _ _ _ Hf).
    + intros func s2 Hf. rewrite (Writer_writeObject_enter w func s Hr).
      apply (bind_throw _ _ _ _ _ Hf).
Qed.

Lemma usage_error_writes_nothing_witness :
  wready_ (mk_wstate [chr "["] [false; true]) !! 0%nat = Some false /\
  Writer_writeInt 0%nat 10 (mk_wstate [chr "["] [false; true])
  = (mk_wstate [chr "["] [false; true], Throw LogicError) /\
  (forall s',
     Writer_writeInt 0%nat 10 (mk_wstate [chr "["] [false; true])
     = (s', Throw LogicError) ->
     s' = mk_wstate [chr "["] [false; true]) /\
  wready_ wstate0 !! 0%nat = Some true /\
  Writer_writeArray 0%nat (fun _ => Writer_writeInt 0%nat 10) wstate0
  = (mk_wstate [chr "["] [false; true], Throw LogicError).
Proof.
  assert (Hs : wready_ (mk_wstate [chr "["] [false; true]) !! 0%nat = Some false)
    by reflexivity.
  assert (Hr : wready_ wstate0 !! 0%nat = Some true) by reflexivity.
  split; [exact Hs |]. split; [| split; [| split; [exact Hr |]]].
  - exact (proj1 (proj1 (proj2 (usage_error_writes_nothing 0%nat _)) Hs) (SWInt 10)).
  - exact (proj1 (usage_error_writes_nothing 0%nat _) (SWInt 10)).
  - exact (proj1 (proj2 (proj2 (usage_error_writes_nothing 0%nat wstate0)) Hr)
             (fun _ => Writer_writeInt 0%nat 10) _ eq_refl).
Defined.

(** C9 as stated fails: [writeArray] whose callback writes to the suspended
    parent fails with [LogicError] after its opening tag reached the
    stream. *)
Lemma usage_error_writes_nothing_counterexample :
  ~ (forall (w : Writer) (func : Writer -> M wstate unit) (s s' : wstate),
       Writer_writeArray w func s = (s', Throw LogicError) -> os_ s' = os_ s).
Proof.
  intros H.
  specialize (H 0%nat (fun _ => Writer_writeInt 0%nat 10) wstate0
                (mk_wstate [chr "["] [false; true]) eq_refl).
  discriminate H.
Qed.

(** ** Scopes *)

Lemma Reader_getArray_enter {A} r (func : ArrayReader -> A -> M rstate A)
    env input st :
  st !! r = Some true ->
  Reader_getArray r func env (mk_rstate (chr "[" :: input) st)
  = (env <- func tt env ;;
     Reader_set_ready r true ;;
     ch <- Reader_next ;;
     if negb (ch =? chr "]") then throw (ParseError "getArray: Expected ']'")
     else ret env) (mk_rstate input (<[r := false]> st)).
Proof.
  intros Hr. unfold Reader_getArray.
  rewrite (bind_ok _ _ _ _ _ (Reader_ready_mk r _ st Hr)).
  rewrite (bind_ok _ _ _ _ _ (Reader_next_cons _ _ st)).
  reflexivity.
Qed.

Lemma Reader_getObject_enter {A} r (func : ObjectReader -> A -> M rstate A)
    env input st :
  st !! r = Some true ->
  Reader_getObject r func env (mk_rstate (chr "{" :: input) st)
  = (env <- func tt env ;;
     Reader_set_ready r true ;;
     ch <- Reader_next ;;
     if negb (ch =? chr "}") then throw (ParseError "getObject: Expected '}'")
     else ret env) (mk_rstate input (<[r := false]> st)).
Proof.
  intros Hr. unfold Reader_getObject.
  rewrite (bind_ok _ _ _ _ _ (Reader_ready_mk r _ st Hr)).
  rewrite (bind_ok _ _ _ _ _ (Reader_next_cons _ _ st)).
  reflexivity.
Qed.

(** C8, as the code has it: when the callback of a scope returns normally,
    the terminator is written once, right after what the callback wrote
    (write side), or consumed once, provided the callback left the cursor on
    it (read side), and the parent is ready again; when the callback raises
    an error, the error propagates from the state the callback left, with no
    terminator written or consumed. *)
Theorem scope_terminator (w : Writer) (s : wstate) (r : Reader) (st : store)
    (input : list Z) :
  wready_ s !! w = Some true -> st !! r = Some true ->
  let sa := mk_wstate (os_ s ++ [chr "["]) (<[w := false]> (wready_ s) ++ [true]) in
  let so := mk_wstate (os_ s ++ [chr "{"]) (<[w := false]> (wready_ s)) in
  let sr := mk_rstate input (<[r := false]> st) in
  (forall func s2, func (length (wready_ s)) sa = (s2, Ok tt) ->
     Writer_writeArray w func s
     = (mk_wstate (os_ s2 ++ [chr "]"]) (<[w := true]> (wready_ s2)), Ok tt)) /\
  (forall func s2 e, func (length (wready_ s)) sa = (s2, Throw e) ->
     Writer_writeArray w func s = (s2, Throw e)) /\
  (forall func s2, func tt so = (s2, Ok tt) ->
     Writer_writeObject w func s
     = (mk_wstate (os_ s2 ++ [chr "}"]) (<[w := true]> (wready_ s2)), Ok tt)) /\
  (forall func s2 e, func tt so = (s2, Throw e) ->
     Writer_writeObject w func s = (s2, Throw e)) /\
  (forall A (func : ArrayReader -> A -> M rstate A) env env' rest st2,
     func tt env sr = (mk_rstate (chr "]" :: rest) st2, Ok env') ->
     Reader_getArray r func env (mk_rstate (chr "[" :: input) st)
     = (mk_rstate rest (<[r := true]> st2), Ok env')) /\
  (forall A (func : ArrayReader -> A -> M rstate A) env s2 e,
     func tt env sr = (s2, Throw e) ->
     Reader_getArray r func env (mk_rstate (chr "[" :: input) st)
     = (s2, Throw e)) /\
  (forall A (func : ObjectReader -> A -> M rstate A) env env' rest st2,
     func tt env sr = (mk_rstate (chr "}" :: rest) st2, Ok env') ->
     Reader_getObject r func env (mk_rstate (chr "{" :: input) st)
     = (mk_rstate rest (<[r := true]> st2), Ok env')) /\
  (forall A (func : ObjectReader -> A -> M rstate A) env s2 e,
     func tt env sr = (s2, Throw e) ->
     Reader_getObject r func env (mk_rstate (chr "{" :: input) st)
     = (s2, Throw e)).
Proof.
  intros Hw Hr sa so sr.
  split; [| split; [| split; [| split; [| split; [| split; [| split]]]]]].
  - intros func s2 Hf. rewrite (Writer_writeArray_enter w func s Hw).
    fold sa. rewrite (bind_ok _ _ _ _ _ Hf). reflexivity.
  - intros func s2 e Hf. rewrite (Writer_writeArray_enter w func s Hw).
    fold sa. apply (bind_throw _ _ _ _ _ Hf).
  - intros func s2 Hf. rewrite (Writer_writeObject_enter w func s Hw).
    fold so. rewrite (bind_ok _ _ _ _ _ Hf). reflexivity.
  - intros func s2 e Hf. rewrite (Writer_writeObject_enter w func s Hw).
    fold so. apply (bind_throw _ _ _ _ _ Hf).
  - intros A func env env' rest st2 Hf.
    rewrite (Reader_getArray_enter r func env input st Hr).
    fold sr. rewrite (bind_ok _ _ _ _ _ Hf).
    unfold bind at 1. unfold Reader_set_ready. cbn [is_ rready_].
    rewrite (bind_ok _ _ _ _ _ (Reader_next_cons _ _ _)). reflexivity.
  - intros A func env s2 e Hf.
    rewrite (Reader_getArray_enter r func env input st Hr).
    fold sr. apply (bind_throw _ _ _ _ _ Hf).
  - intros A func env env' rest st2 Hf.
    rewrite (Reader_getObject_enter r func env input st Hr).
    fold sr. rewrite (bind_ok _ _ _ _ _ Hf).
    unfold bind at 1. unfold Reader_set_ready. cbn [is_ rready_].
    rewrite (bind_ok _ _ _ _ _ (Reader_next_cons _ _ _)). reflexivity.
  - intros A func env s2 e Hf.
    rewrite (Reader_getObject_enter r func env input st Hr).
    fold sr. apply (bind_throw _ _ _ _ _ Hf).
Qed.

Lemma scope_terminator_witness :
  wready_ wstate0 !! 0%nat = Some true /\ [true] !! 0%nat = Some true /\
  Writer_writeArray 0%nat (fun c => Writer_writeTrue c) wstate0
  = (mk_wstate [chr "["; chr "T"; chr "]"] [true; true], Ok tt) /\
  Writer_writeArray 0%nat (fun _ => throw LogicError) wstate0
  = (mk_wstate [chr "["] [false; true], Throw LogicError) /\
  Reader_getArray 0%nat (fun _ env => ret env) tt (rstate0 [chr "["; chr "]"])
  = (mk_rstate [] [true], Ok tt).
Proof.
  assert (Hw : wready_ wstate0 !! 0%nat = Some true) by reflexivity.
  assert (Hr : [true] !! 0%nat = Some true) by reflexivity.
  destruct (scope_terminator 0%nat wstate0 0%nat [true] [chr "]"] Hw Hr)
    as (Hok & Hthrow & _ & _ & Hrd & _).
  split; [exact Hw |]. split; [exact Hr |]. split; [| split].
  - exact (Hok (fun c => Writer_writeTrue c) _ eq_refl).
  - exact (Hthrow (fun _ => throw LogicError) _ LogicError eq_refl).
  - exact (Hrd unit (fun _ env => ret env) tt tt [] _ eq_refl).
Defined.

(** C8 as stated fails.  Write side: the bytes a [writeArray] call adds are
    not always an opening tag, the callback's output and one terminator: a
    callback that leaves by an exception (here the usage error of writing to
    its suspended parent) leaves the opening tag alone on the stream.  Read
    side: a callback that returns before reading the element makes
    [getArray] take the element's byte for the terminator and fail; the
    [']'] is never consumed. *)
Lemma scope_terminator_counterexample :
  ~ (forall (w : Writer) (func : Writer -> M wstate unit) (s : wstate),
       wready_ s !! w = Some true ->
       exists mid,
         os_ (fst (Writer_writeArray w func s))
         = os_ s ++ chr "[" :: mid ++ [chr "]"]) /\
  Reader_getArray 0%nat (fun _ env => ret env) tt
    (rstate0 [chr "["; chr "T"; chr "]"])
  = (mk_rstate [chr "]"] [true], Throw (ParseError "getArray: Expected ']'")).
Proof.
  split; [| reflexivity].
  intros H.
  destruct (H 0%nat (fun _ => Writer_writeInt 0%nat 10) wstate0 eq_refl)
    as [mid Hmid].
  change (os_ (fst (Writer_writeArray 0%nat
                      (fun _ => Writer_writeInt 0%nat 10) wstate0)))
    with [chr "["] in Hmid.
  cbn [os_ wstate0 app] in Hmid. injection Hmid as Hmid.
  destruct mid; discriminate Hmid.
Qed.

(** ** Truncated input *)

Lemma lookup_fresh (st : store) (b : bool) : (st ++ [b]) !! length st = Some b.
Proof. apply list_lookup_middle. reflexivity. Qed.

Lemma insert_restore (st : store) (r : nat) (b : bool) :
  st !! r = Some true -> <[r := true]> (<[r := b]> st) = st.
Proof.
  intros Hr. rewrite list_insert_insert_eq. apply list_insert_id. exact Hr.
Qed.

(** Every read operation on a ready handle fails with a [ParseError] at the
    end of the input. *)
Lemma read_at_eof op val st :
  st !! val = Some true ->
  exists what,
    run_read op val (mk_rstate [] st) = (mk_rstate [] st, Throw (ParseError what)).
Proof.
  intros Hr.
  assert (Hc := Reader_ready_mk val [] st Hr).
  assert (Hv : forall A (c : M rstate A) s s' e,
            c s = (s', Throw e) -> void c s = (s', Throw e))
    by (intros A c s s' e H; apply (bind_throw _ _ _ _ _ H)).
  destruct op; cbn [run_read]; eexists;
    [ apply Hv | apply Hv | | apply Hv | | apply Hv | | apply Hv | apply Hv
    | apply Hv | apply Hv
    | unfold Reader_skip; cbn [is_ length Reader_skip_fuel]; apply bind_throw ];
    unfold Reader_getType, Reader_getBool, Reader_getNil,
      Reader_getString, Reader_skipString, Reader_getBinary,
      Reader_skipBinary, Reader_getFloat, Reader_getDouble, Reader_getInt,
      Reader_getUInt;
    rewrite (bind_ok _ _ _ _ _ Hc); reflexivity.
Qed.

(** C7: on an input that ends right after the array-open tag, reading the
    array fails with a [ParseError]: [readArray] finds no element and fails
    reading the closer, a [getArray] callback that reads the first element
    fails there, and so does the generic [skip]. *)
Theorem truncated_array_is_format_error (r : Reader) (st : store) :
  st !! r = Some true ->
  (forall A fuel (func : Reader -> A -> M rstate A) env,
     Reader_readArray (S fuel) r func env (mk_rstate [chr "["] st)
     = (mk_rstate [] st, Throw (ParseError "Unexpected EOF"))) /\
  (forall A (func : ArrayReader -> A -> M rstate A) env env' st2,
     func tt env (mk_rstate [] (<[r := false]> st)) = (mk_rstate [] st2, Ok env') ->
     Reader_getArray r func env (mk_rstate [chr "["] st)
     = (mk_rstate [] (<[r := true]> st2), Throw (ParseError "Unexpected EOF"))) /\
  (forall op, exists what,
     Reader_getArray r
       (fun arr _ => val <- ArrayReader_next arr ;; run_read op val) tt
       (mk_rstate [chr "["] st)
     = (mk_rstate [] (<[r := false]> st ++ [true]), Throw (ParseError what))) /\
  Reader_skip r (mk_rstate [chr "["] st)
  = (mk_rstate [] st, Throw (ParseError "Unexpected EOF")).
Proof.
  intros Hr.
  assert (Hclose : forall A (func : ArrayReader -> A -> M rstate A) env env' st2,
    func tt env (mk_rstate [] (<[r := false]> st)) = (mk_rstate [] st2, Ok env') ->
    Reader_getArray r func env (mk_rstate [chr "["] st)
    = (mk_rstate [] (<[r := true]> st2), Throw (ParseError "Unexpected EOF"))).
  { intros A func env env' st2 Hf.
    rewrite (Reader_getArray_enter r func env [] st Hr).
    rewrite (bind_ok _ _ _ _ _ Hf). reflexivity. }
  assert (Hread : forall A fuel (func : Reader -> A -> M rstate A) env,
     Reader_readArray (S fuel) r func env (mk_rstate [chr "["] st)
     = (mk_rstate [] st, Throw (ParseError "Unexpected EOF"))).
  { intros A fuel func env. unfold Reader_readArray.
    rewrite (Hclose A _ env env (<[r := false]> st)) by reflexivity.
    rewrite insert_restore by exact Hr. reflexivity. }
  split; [exact Hread |]. split; [exact Hclose |]. split.
  - intros op.
    destruct (read_at_eof op (length (<[r := false]> st))
                (<[r := false]> st ++ [true]) (lookup_fresh _ _)) as [what Hop].
    exists what.
    rewrite (Reader_getArray_enter r _ tt [] st Hr).
    apply bind_throw. unfold ArrayReader_next.
    unfold bind, new_Reader. cbn [is_ rready_]. exact Hop.
  - unfold Reader_skip. cbn [is_ length Reader_skip_fuel].
    unfold Reader_getType. rewrite bind_assoc.
    rewrite (bind_ok _ _ _ _ _ (Reader_ready_mk r _ st Hr)).
    exact (Hread unit 0%nat _ tt).
Qed.

Lemma truncated_array_is_format_error_witness :
  [true] !! 0%nat = Some true /\
  Reader_skip 0%nat (rstate0 [chr "["])
  = (mk_rstate [] [true], Throw (ParseError "Unexpected EOF")) /\
  Reader_getArray 0%nat (fun _ env => ret env) tt (rstate0 [chr "["])
  = (mk_rstate [] [true], Throw (ParseError "Unexpected EOF")).
Proof.
  assert (Hr : [true] !! 0%nat = Some true) by reflexivity.
  destruct (truncated_array_is_format_error 0%nat [true] Hr)
    as (_ & Hclose & _ & Hskip).
  split; [exact Hr |]. split; [exact Hskip |].
  exact (Hclose unit (fun _ env => ret env) tt tt [false] eq_refl).
Defined.

(** ** Computations that agree up to the value returned *)

Lemma sim_refl {St A} (c : M St A) : sim c c.
Proof. intros s. split; reflexivity. Qed.

Lemma sim_sym {St A B} (c1 : M St A) (c2 : M St B) : sim c1 c2 -> sim c2 c1.
Proof. intros H s. destruct (H s) as [H1 H2]. split; symmetry; assumption. Qed.

Lemma sim_trans {St A B C} (c1 : M St A) (c2 : M St B) (c3 : M St C) :
  sim c1 c2 -> sim c2 c3 -> sim c1 c3.
Proof.
  intros H1 H2 s. destruct (H1 s) as [Ha Hb], (H2 s) as [Hc Hd].
  split; [rewrite Ha | rewrite Hb]; assumption.
Qed.

Lemma sim_ret {St A B} (a : A) (b : B) : sim (St := St) (ret a) (ret b).
Proof. intros s. split; reflexivity. Qed.

Lemma sim_throw {St A B} (e1 e2 : string) :
  sim (St := St) (A := A) (B := B) (throw (ParseError e1)) (throw (ParseError e2)).
Proof. intros s. split; reflexivity. Qed.

Lemma sim_bind {St A B A' B'} (c1 : M St A) (c2 : M St B)
    (k1 : A -> M St A') (k2 : B -> M St B') :
  sim c1 c2 -> (forall a b, sim (k1 a) (k2 b)) ->
  sim (bind c1 k1) (bind c2 k2).
Proof.
  intros Hc Hk s. destruct (Hc s) as [H1 H2]. unfold bind.
  destruct (c1 s) as [s1 o1], (c2 s) as [s2 o2]. cbn in H1, H2. subst s2.
  destruct o1 as [a | [| m1] | |], o2 as [b | [| m2] | |];
    cbn in H2; try discriminate; try (split; reflexivity).
  apply Hk.
Qed.

Lemma sim_bind_same {St A A' B'} (c : M St A)
    (k1 : A -> M St A') (k2 : A -> M St B') :
  (forall a, sim (k1 a) (k2 a)) -> sim (bind c k1) (bind c k2).
Proof.
  intros Hk s. unfold bind.
  destruct (c s) as [s1 [a | e1 | |]]; try (split; reflexivity).
  apply Hk.
Qed.

Lemma sim_bind_ret {St A B} (c : M St A) (f : A -> B) :
  sim (x <- c ;; ret (f x)) c.
Proof.
  intros s. unfold bind, ret.
  destruct (c s) as [s1 [a | e1 | |]]; split; reflexivity.
Qed.

Lemma sim_void {St A} (c : M St A) : sim (void c) c.
Proof. apply (sim_bind_ret c (fun _ => tt)). Qed.

Lemma sim_on_input {A B} (l1 : list Z -> list Z * outcome A)
    (l2 : list Z -> list Z * outcome B) :
  (forall input, fst (l1 input) = fst (l2 input) /\
                 shape (snd (l1 input)) = shape (snd (l2 input))) ->
  sim (on_input l1) (on_input l2).
Proof.
  intros H s. unfold on_input.
  specialize (H (is_ s)).
  destruct (l1 (is_ s)) as [r1 o1], (l2 (is_ s)) as [r2 o2].
  cbn in *. destruct H as [-> ->]. split; reflexivity.
Qed.

Lemma getString_skipString_loop input : forall acc,
  fst (getString_loop input acc) = fst (skipString_loop input) /\
  shape (snd (getString_loop input acc)) = shape (snd (skipString_loop input)).
Proof.
  induction input as [| c input IH]; intros acc; cbn [getString_loop skipString_loop].
  - split; reflexivity.
  - destruct (negb (uchar c =? 0)); [apply IH | split; reflexivity].
Qed.

Lemma getBinary_skipBinary_loop input : forall size bin,
  fst (getBinary_loop input size bin)
  = fst (skipBinary_loop input (size - Z.of_nat (length bin))) /\
  shape (snd (getBinary_loop input size bin))
  = shape (snd (skipBinary_loop input (size - Z.of_nat (length bin)))).
Proof.
  induction input as [| c input IH]; intros size bin;
    cbn [getBinary_loop skipBinary_loop];
    replace (0 <? size - Z.of_nat (length bin))
      with (Z.of_nat (length bin) <? size)
      by (destruct (Z.ltb_spec (Z.of_nat (length bin)) size);
          symmetry; [apply Z.ltb_lt | apply Z.ltb_ge]; lia).
  - destruct (Z.of_nat (length bin) <? size); split; reflexivity.
  - destruct (Z.of_nat (length bin) <? size); [| split; reflexivity].
    specialize (IH size (bin ++ [uchar c])).
    rewrite length_app in IH. cbn [length] in IH.
    replace (size - Z.of_nat (length bin) - 1)
      with (size - Z.of_nat (length bin + 1)) by lia.
    exact IH.
Qed.

Lemma sim_getString_skipString r : sim (Reader_getString r) (Reader_skipString r).
Proof.
  unfold Reader_getString, Reader_skipString.
  apply sim_bind_same. intros _. apply sim_bind_same. intros ch.
  destruct (negb (ch =? chr "S")); [apply sim_throw |].
  apply sim_on_input. intros input. apply getString_skipString_loop.
Qed.

Lemma sim_getBinary_skipBinary r : sim (Reader_getBinary r) (Reader_skipBinary r).
Proof.
  unfold Reader_getBinary, Reader_skipBinary.
  apply sim_bind_same. intros _. apply sim_bind_same. intros ch.
  destruct (negb (ch =? chr "B")); [apply sim_throw |].
  apply sim_bind_same. intros size.
  apply sim_on_input. intros input.
  pose proof (getBinary_skipBinary_loop input (uint64 size) []) as H.
  cbn [length] in H. rewrite Z.sub_0_r in H. exact H.
Qed.

Lemma sim_ArrayReader_all {A B} (f : Reader -> A -> M rstate A)
    (g : Reader -> B -> M rstate B) :
  (forall val a b, sim (f val a) (g val b)) ->
  forall fuel arr a b, sim (ArrayReader_all fuel arr f a) (ArrayReader_all fuel arr g b).
Proof.
  intros Hfg fuel. induction fuel as [| fuel IH]; intros arr a b;
    cbn [ArrayReader_all].
  - intros s. split; reflexivity.
  - apply sim_bind_same. intros [|]; [| apply sim_ret].
    apply sim_bind_same. intros val.
    apply sim_bind; [apply Hfg |]. intros a' b'. apply IH.
Qed.

Lemma sim_ObjectReader_all {A B} (f : list Z -> Reader -> A -> M rstate A)
    (g : list Z -> Reader -> B -> M rstate B) :
  (forall key val a b, sim (f key val a) (g key val b)) ->
  forall fuel obj a b,
    sim (ObjectReader_all fuel obj f a) (ObjectReader_all fuel obj g b).
Proof.
  intros Hfg fuel. induction fuel as [| fuel IH]; intros obj a b;
    cbn [ObjectReader_all].
  - intros s. split; reflexivity.
  - apply sim_bind_same. intros [|]; [| apply sim_ret].
    apply sim_bind_same. intros kv.
    apply sim_bind; [apply Hfg |]. intros a' b'. apply IH.
Qed.

Lemma sim_getArray {A B} r (f : ArrayReader -> A -> M rstate A)
    (g : ArrayReader -> B -> M rstate B) a b :
  (forall arr a b, sim (f arr a) (g arr b)) ->
  sim (Reader_getArray r f a) (Reader_getArray r g b).
Proof.
  intros Hfg. unfold Reader_getArray.
  apply sim_bind_same. intros _. apply sim_bind_same. intros ch.
  destruct (negb (ch =? chr "[")); [apply sim_throw |].
  apply sim_bind_same. intros _.
  apply sim_bind; [apply Hfg |]. intros a' b'.
  apply sim_bind_same. intros _. apply sim_bind_same. intros ch'.
  destruct (negb (ch' =? chr "]")); [apply sim_throw | apply sim_ret].
Qed.

Lemma sim_getObject {A B} r (f : ObjectReader -> A -> M rstate A)
    (g : ObjectReader -> B -> M rstate B) a b :
  (forall obj a b, sim (f obj a) (g obj b)) ->
  sim (Reader_getObject r f a) (Reader_getObject r g b).
Proof.
  intros Hfg. unfold Reader_getObject.
  apply sim_bind_same. intros _. apply sim_bind_same. intros ch.
  destruct (negb (ch =? chr "{")); [apply sim_throw |].
  apply sim_bind_same. intros _.
  apply sim_bind; [apply Hfg |]. intros a' b'.
  apply sim_bind_same. intros _. apply sim_bind_same. intros ch'.
  destruct (negb (ch' =? chr "}")); [apply sim_throw | apply sim_ret].
Qed.

(** Decoding the elements of an array (or the entries of an object) and
    skipping them move in lockstep when decoding and skipping one value do. *)
Lemma sim_readArray_decode_skip fuel r (get : Reader -> M rstate Value)
    (skip : Reader -> M rstate unit) :
  (forall r', sim (get r') (skip r')) ->
  sim (Reader_readArray fuel r (decode_element get) [])
      (Reader_readArray fuel r (fun val _ => r' <- Reader_copy val ;; skip r') tt).
Proof.
  intros Hgs. unfold Reader_readArray. apply sim_getArray. intros arr a b.
  apply sim_ArrayReader_all. intros val a' b'. unfold decode_element.
  apply sim_bind_same. intros r'.
  apply sim_trans with (get r'); [apply sim_bind_ret | apply Hgs].
Qed.

Lemma sim_readObject_decode_skip fuel r (get : Reader -> M rstate Value)
    (skip : Reader -> M rstate unit) :
  (forall r', sim (get r') (skip r')) ->
  sim (Reader_readObject fuel r (decode_entry get) [])
      (Reader_readObject fuel r
         (fun _ val _ => r' <- Reader_copy val ;; skip r') tt).
Proof.
  intros Hgs. unfold Reader_readObject. apply sim_getObject. intros obj a b.
  apply sim_ObjectReader_all. intros key val a' b'. unfold decode_entry.
  apply sim_bind_same. intros r'.
  apply sim_trans with (get r'); [apply sim_bind_ret | apply Hgs].
Qed.

(** Fully decoding the next value and skipping it leave the same state with
    the same outcome, on every input. *)
Lemma sim_getValue_skip fuel : forall r,
  sim (getValue fuel r) (Reader_skip_fuel fuel r).
Proof.
  induction fuel as [| fuel IH]; intros r; cbn [getValue Reader_skip_fuel].
  - intros s. split; reflexivity.
  - apply sim_bind_same. intros [| | | | | | | | |].
    + apply sim_trans with (Reader_getBool r);
        [apply sim_bind_ret | apply sim_sym, sim_void].
    + apply (sim_bind_ret (Reader_getNil r) (fun _ => VNull)).
    + apply sim_trans with (Reader_getString r);
        [apply sim_bind_ret | apply sim_getString_skipString].
    + apply sim_trans with (Reader_getBinary r);
        [apply sim_bind_ret | apply sim_getBinary_skipBinary].
    + apply sim_trans with (Reader_getFloat r);
        [apply sim_bind_ret | apply sim_sym, sim_void].
    + apply sim_trans with (Reader_getDouble r);
        [apply sim_bind_ret | apply sim_sym, sim_void].
    + apply sim_trans with (Reader_getInt r);
        [apply sim_bind_ret | apply sim_sym, sim_void].
    + apply sim_trans with (Reader_getUInt r);
        [apply sim_bind_ret | apply sim_sym, sim_void].
    + eapply sim_trans; [apply sim_bind_ret |].
      apply sim_readArray_decode_skip, IH.
    + eapply sim_trans; [apply sim_bind_ret |].
      apply sim_readObject_decode_skip, IH.
Qed.

(** ** The encoding the writer produces *)

Lemma insert_restore_app (st extra : store) (w : nat) :
  st !! w = Some true -> <[w := true]> (<[w := false]> st ++ extra) = st ++ extra.
Proof.
  intros Hr. apply lookup_lt_Some in Hr as Hlt.
  rewrite insert_app_l by (rewrite length_insert; exact Hlt).
  rewrite insert_restore by exact Hr. reflexivity.
Qed.

Lemma write_elements_run write c vs :
  Forall (fun v => forall w s, wready_ s !! w = Some true ->
                               writes (write v w) s (enc v)) vs ->
  forall s, wready_ s !! c = Some true ->
            writes (write_elements write c vs) s (flat_map enc vs).
Proof.
  induction 1 as [| v vs Hv _ IH]; intros s Hc; cbn [write_elements flat_map];
    unfold writes.
  - exists []. rewrite !app_nil_r. destruct s; reflexivity.
  - destruct (Hv c s Hc) as [e1 H1].
    fold (write_elements write c).
    rewrite (bind_ok _ _ _ _ _ H1).
    destruct (IH (mk_wstate (os_ s ++ enc v) (wready_ s ++ e1))) as [e2 H2].
    { cbn [wready_]. apply lookup_app_l_Some. exact Hc. }
    exists (e1 ++ e2). rewrite H2. cbn [os_ wready_].
    rewrite <- !app_assoc. reflexivity.
Qed.

Lemma write_entries_run write o kvs :
  Forall (fun kv => forall w s, wready_ s !! w = Some true ->
                                writes (write (snd kv) w) s (enc (snd kv))) kvs ->
  forall s,
    writes (write_entries write o kvs) s
      (flat_map (fun kv => (map uchar (c_str (fst kv)) ++ [0]) ++ enc (snd kv))
         kvs).
Proof.
  induction 1 as [| kv kvs Hv _ IH]; intros s; cbn [write_entries flat_map];
    unfold writes.
  - exists []. rewrite !app_nil_r. destruct s; reflexivity.
  - fold (write_entries write o).
    unfold ObjectWriter_key. rewrite !bind_assoc.
    unfold bind at 1. unfold os_write at 1.
    rewrite bind_assoc. unfold bind at 1. unfold os_put at 1.
    unfold bind at 1. unfold new_Writer at 1. cbn [os_ wready_].
    destruct (Hv (length (wready_ s))
                (mk_wstate ((os_ s ++ map uchar (c_str (fst kv))) ++ [uchar 0])
                   (wready_ s ++ [true]))) as [e1 H1].
    { cbn [wready_]. apply lookup_fresh. }
    rewrite (bind_ok _ _ _ _ _ H1). cbn [os_ wready_].
    destruct (IH (mk_wstate
                    (((os_ s ++ map uchar (c_str (fst kv))) ++ [uchar 0])
                       ++ enc (snd kv))
                    ((wready_ s ++ [true]) ++ e1))) as [e2 H2].
    exists ([true] ++ e1 ++ e2). rewrite H2. cbn [os_ wready_].
    change (uchar 0) with 0. rewrite <- !app_assoc. reflexivity.
Qed.

(** [writeValue] returns normally on a ready handle and appends [enc v]. *)
Lemma writeValue_run v : forall w s,
  wready_ s !! w = Some true -> writes (writeValue v w) s (enc v).
Proof.
  induction v as [v Hs | vs IH | kvs IH] using Value_ind; intros w s Hw.
  - exists []. rewrite app_nil_r.
    destruct v; try contradiction; cbn [writeValue enc].
    + apply (scalar_write_emits (SWBool b) w s Hw).
    + apply (scalar_write_emits SWNull w s Hw).
    + apply (scalar_write_emits (SWString str) w s Hw).
    + apply (scalar_write_emits (SWBinary data) w s Hw).
    + apply (scalar_write_emits (SWFloat bits) w s Hw).
    + apply (scalar_write_emits (SWDouble bits) w s Hw).
    + apply (scalar_write_emits (SWInt num) w s Hw).
    + apply (scalar_write_emits (SWUInt num) w s Hw).
  - cbn [writeValue enc]. unfold writes.
    rewrite (Writer_writeArray_enter w _ s Hw).
    destruct (write_elements_run writeValue (length (wready_ s)) vs IH
                (mk_wstate (os_ s ++ [chr "["])
                   (<[w := false]> (wready_ s) ++ [true]))) as [e1 H1].
    { cbn [wready_]. rewrite <- (length_insert (wready_ s) w false).
      apply lookup_fresh. }
    rewrite (bind_ok _ _ _ _ _ H1).
    exists ([true] ++ e1).
    unfold bind, Writer_set_ready, os_put. cbn [os_ wready_].
    rewrite <- !app_assoc, insert_restore_app by exact Hw.
    reflexivity.
  - cbn [writeValue enc]. unfold writes.
    rewrite (Writer_writeObject_enter w _ s Hw).
    destruct (write_entries_run writeValue tt kvs IH
                (mk_wstate (os_ s ++ [chr "{"]) (<[w := false]> (wready_ s))))
      as [e1 H1].
    rewrite (bind_ok _ _ _ _ _ H1).
    exists e1.
    unfold bind, Writer_set_ready, os_put. cbn [os_ wready_].
    rewrite <- !app_assoc, insert_restore_app by exact Hw.
    reflexivity.
Qed.

Lemma encode_enc v : encode v = enc v.
Proof.
  unfold encode.
  destruct (writeValue_run v 0%nat wstate0 eq_refl) as [extra H].
  rewrite H. reflexivity.
Qed.

(** ** Skipping what the writer wrote *)

Ltac norm_chr :=
  change (chr "T") with 84 in *; change (chr "F") with 70 in *;
  change (chr "N") with 78 in *; change (chr "f") with 102 in *;
  change (chr "d") with 100 in *; change (chr "S") with 83 in *;
  change (chr "B") with 66 in *; change (chr "+") with 43 in *;
  change (chr "-") with 45 in *; change (chr "0") with 48 in *;
  change (chr "9") with 57 in *; change (chr "[") with 91 in *;
  change (chr "]") with 93 in *; change (chr "{") with 123 in *;
  change (chr "}") with 125 in *; change EOF with (-1) in *.

Ltac decide_tests :=
  repeat match goal with
    | |- context [?a =? ?b] => destruct (Z.eqb_spec a b); try lia
    | |- context [?a <=? ?b] => destruct (Z.leb_spec a b); try lia
    | |- context [?a <? ?b] => destruct (Z.ltb_spec a b); try lia
    end.

Lemma c_str_id str : Forall (fun c => uchar c <> 0) str -> c_str str = str.
Proof.
  induction 1 as [| c str Hc _ IH]; cbn [c_str]; [reflexivity |].
  apply Z.eqb_neq in Hc. rewrite Hc, IH. reflexivity.
Qed.

Lemma skipString_loop_run str rest :
  Forall (fun c => uchar c <> 0) str ->
  skipString_loop (map uchar str ++ 0 :: rest) = (rest, Ok tt).
Proof.
  induction 1 as [| c str Hc _ IH]; cbn [map app skipString_loop].
  - reflexivity.
  - rewrite uchar_idem. apply Z.eqb_neq in Hc. rewrite Hc. exact IH.
Qed.

Lemma skipBinary_loop_run data rest :
  skipBinary_loop (data ++ rest) (Z.of_nat (length data)) = (rest, Ok tt).
Proof.
  induction data as [| c data IH]; cbn [app length].
  - destruct rest; reflexivity.
  - cbn [skipBinary_loop].
    replace (0 <? Z.of_nat (S (length data))) with true
      by (symmetry; apply Z.ltb_lt; lia).
    replace (Z.of_nat (S (length data)) - 1) with (Z.of_nat (length data)) by lia.
    exact IH.
Qed.

Lemma ObjectReader_next_loop_run key rest : forall acc,
  Forall (fun c => uchar c <> 0) key ->
  ObjectReader_next_loop (map uchar key ++ 0 :: rest) acc
  = (rest, Ok (acc ++ map uchar key)).
Proof.
  induction key as [| c key IH]; intros acc Hk; cbn [map app ObjectReader_next_loop].
  - rewrite app_nil_r. reflexivity.
  - apply Forall_cons in Hk as [Hc Hk].
    rewrite uchar_idem. apply Z.eqb_neq in Hc. rewrite Hc.
    rewrite IH by exact Hk. rewrite <- app_assoc. reflexivity.
Qed.

Lemma Reader_getType_digit r ch rest st :
  st !! r = Some true -> 48 <= ch <= 57 ->
  Reader_getType r (mk_rstate (ch :: rest) st)
  = (mk_rstate (ch :: rest) st, Ok UINT).
Proof.
  intros Hr Hch. unfold Reader_getType.
  rewrite (bind_ok _ _ _ _ _ (Reader_ready_mk r _ st Hr)).
  unfold bind, is_peek. cbn [is_ rready_].
  rewrite (uchar_small ch) by lia. norm_chr.
  decide_tests; reflexivity.
Qed.

(** The outcome of [getType] on each tag the writer uses. *)
Lemma Reader_getType_tags r rest st :
  st !! r = Some true ->
  let at_tag tag t :=
    Reader_getType r (mk_rstate (tag :: rest) st)
    = (mk_rstate (tag :: rest) st, Ok t) in
  at_tag (chr "T") BOOL /\ at_tag (chr "F") BOOL /\ at_tag (chr "N") NIL /\
  at_tag (chr "S") STRING /\ at_tag (chr "B") BINARY /\
  at_tag (chr "f") FLOAT /\ at_tag (chr "d") DOUBLE /\
  at_tag (chr "+") UINT /\ at_tag (chr "-") INT /\
  at_tag (chr "[") ARRAY /\ at_tag (chr "{") OBJECT.
Proof.
  intros Hr at_tag. unfold at_tag, Reader_getType.
  repeat split;
    rewrite (bind_ok _ _ _ _ _ (Reader_ready_mk r _ st Hr)); reflexivity.
Qed.

Lemma Reader_get_cons c rest st (k : Z -> M rstate unit) :
  bind is_get k (mk_rstate (c :: rest) st) = k (uchar c) (mk_rstate rest st).
Proof. reflexivity. Qed.

Lemma Reader_getInt_minus r m rest st :
  st !! r = Some true -> 0 <= m < 2 ^ 64 ->
  Reader_getInt r (mk_rstate (chr "-" :: LEB128_bytes m ++ rest) st)
  = (mk_rstate rest st, Ok (int64 (uint64 (- m)))).
Proof.
  intros Hr Hm. unfold Reader_getInt.
  rewrite (bind_ok _ _ _ _ _ (Reader_ready_mk r _ st Hr)).
  rewrite (bind_ok _ _ _ _ _ (Reader_next_cons _ _ st)).
  change (uchar (chr "-")) with 45.
  change ((chr "0" <=? 45) && (45 <=? chr "9")) with false.
  change (45 =? chr "+") with false. change (45 =? chr "-") with true.
  cbv iota.
  rewrite (bind_ok _ _ _ _ _ (Reader_nextLEB128_bytes m rest st Hm)).
  reflexivity.
Qed.

Lemma Reader_getInt_plus r m rest st :
  st !! r = Some true -> 0 <= m < 2 ^ 64 ->
  Reader_getInt r (mk_rstate (chr "+" :: LEB128_bytes m ++ rest) st)
  = (mk_rstate rest st, Ok (int64 m)).
Proof.
  intros Hr Hm. unfold Reader_getInt.
  rewrite (bind_ok _ _ _ _ _ (Reader_ready_mk r _ st Hr)).
  rewrite (bind_ok _ _ _ _ _ (Reader_next_cons _ _ st)).
  change (uchar (chr "+")) with 43.
  change ((chr "0" <=? 43) && (43 <=? chr "9")) with false.
  change (43 =? chr "+") with true. cbv iota.
  rewrite (bind_ok _ _ _ _ _ (Reader_nextLEB128_bytes m rest st Hm)).
  reflexivity.
Qed.

Lemma Reader_getUInt_plus r m rest st :
  st !! r = Some true -> 0 <= m < 2 ^ 64 ->
  Reader_getUInt r (mk_rstate (chr "+" :: LEB128_bytes m ++ rest) st)
  = (mk_rstate rest st, Ok m).
Proof.
  intros Hr Hm. unfold Reader_getUInt.
  rewrite (bind_ok _ _ _ _ _ (Reader_ready_mk r _ st Hr)).
  rewrite (bind_ok _ _ _ _ _ (Reader_next_cons _ _ st)).
  change (uchar (chr "+")) with 43.
  change ((chr "0" <=? 43) && (43 <=? chr "9")) with false.
  change (43 =? chr "+") with true. cbv iota.
  apply Reader_nextLEB128_bytes. exact Hm.
Qed.

Lemma Reader_getInt_digit r ch rest st :
  st !! r = Some true -> 48 <= ch <= 57 ->
  Reader_getInt r (mk_rstate (ch :: rest) st)
  = (mk_rstate rest st, Ok (int64 (ch - 48))).
Proof.
  intros Hr Hch. unfold Reader_getInt.
  rewrite (bind_ok _ _ _ _ _ (Reader_ready_mk r _ st Hr)).
  rewrite (bind_ok _ _ _ _ _ (Reader_next_cons _ _ st)).
  rewrite (uchar_small ch) by lia. norm_chr.
  decide_tests. reflexivity.
Qed.

Lemma Reader_getUInt_digit r ch rest st :
  st !! r = Some true -> 48 <= ch <= 57 ->
  Reader_getUInt r (mk_rstate (ch :: rest) st)
  = (mk_rstate rest st, Ok (uint64 (ch - 48))).
Proof.
  intros Hr Hch. unfold Reader_getUInt.
  rewrite (bind_ok _ _ _ _ _ (Reader_ready_mk r _ st Hr)).
  rewrite (bind_ok _ _ _ _ _ (Reader_next_cons _ _ st)).
  rewrite (uchar_small ch) by lia. norm_chr.
  decide_tests. reflexivity.
Qed.

Lemma void_ok {St A} (c : M St A) s s' a :
  c s = (s', Ok a) -> void c s = (s', Ok tt).
Proof. intros H. unfold void. rewrite (bind_ok _ _ _ _ _ H). reflexivity. Qed.

(** [getType] on the encoding of a valid value. *)
Lemma Reader_getType_enc v r rest st :
  valid v -> st !! r = Some true ->
  Reader_getType r (mk_rstate (enc v ++ rest) st)
  = (mk_rstate (enc v ++ rest) st, Ok (type_of_value v)).
Proof.
  intros Hv Hr.
  destruct v; cbn [enc scalar_bytes type_of_value app].
  - destruct b; apply (Reader_getType_tags r _ st Hr).
  - apply (Reader_getType_tags r _ st Hr).
  - apply (Reader_getType_tags r _ st Hr).
  - apply (Reader_getType_tags r _ st Hr).
  - apply (Reader_getType_tags r _ st Hr).
  - apply (Reader_getType_tags r _ st Hr).
  - cbn [valid] in Hv. unfold INT64_MIN, INT64_MAX in *.
    destruct (Z.eqb_spec num (- 2 ^ 63)) as [-> | Hne].
    { apply (Reader_getType_tags r _ st Hr). }
    destruct (Z.ltb_spec num 0) as [Hneg | Hpos].
    { apply (Reader_getType_tags r _ st Hr). }
    destruct (Z.leb_spec num 9) as [H9 | H10].
    + cbn [app]. rewrite uchar_small by (norm_chr; lia).
      apply Reader_getType_digit; [exact Hr | norm_chr; lia].
    + apply (Reader_getType_tags r _ st Hr).
  - cbn [valid] in Hv.
    destruct (Z.leb_spec num 9) as [H9 | H10].
    + cbn [app]. rewrite uchar_small by (norm_chr; lia).
      apply Reader_getType_digit; [exact Hr | norm_chr; lia].
    + apply (Reader_getType_tags r _ st Hr).
  - apply (Reader_getType_tags r _ st Hr).
  - apply (Reader_getType_tags r _ st Hr).
Qed.

Lemma Reader_getFloat_run r b0 b1 b2 b3 rest st :
  st !! r = Some true ->
  exists f,
    Reader_getFloat r (mk_rstate (chr "f" :: b0 :: b1 :: b2 :: b3 :: rest) st)
    = (mk_rstate rest st, Ok f).
Proof.
  intros Hr. unfold Reader_getFloat.
  rewrite (bind_ok _ _ _ _ _ (Reader_ready_mk r _ st Hr)).
  unfold bind at 1. unfold is_get. cbn [is_ rready_].
  change (negb (uchar (chr "f") =? chr "f")) with false. cbv iota.
  do 4 rewrite (bind_ok _ _ _ _ _ (Reader_next_cons _ _ st)).
  eexists. reflexivity.
Qed.

Lemma Reader_getDouble_run r b0 b1 b2 b3 b4 b5 b6 b7 rest st :
  st !! r = Some true ->
  exists d,
    Reader_getDouble r
      (mk_rstate (chr "d" :: b0 :: b1 :: b2 :: b3 :: b4 :: b5 :: b6 :: b7 :: rest) st)
    = (mk_rstate rest st, Ok d).
Proof.
  intros Hr. unfold Reader_getDouble.
  rewrite (bind_ok _ _ _ _ _ (Reader_ready_mk r _ st Hr)).
  unfold bind at 1. unfold is_get. cbn [is_ rready_].
  change (negb (uchar (chr "d") =? chr "d")) with false. cbv iota.
  do 8 rewrite (bind_ok _ _ _ _ _ (Reader_next_cons _ _ st)).
  eexists. reflexivity.
Qed.

(** Skipping the encoding of a scalar stops right after it. *)
Lemma skip_scalar v fuel r rest st :
  scalar v -> valid v -> st !! r = Some true ->
  Reader_skip_fuel (S fuel) r (mk_rstate (enc v ++ rest) st)
  = (mk_rstate rest st, Ok tt).
Proof.
  intros Hs Hv Hr. cbn [Reader_skip_fuel].
  rewrite (bind_ok _ _ _ _ _ (Reader_getType_enc v r rest st Hv Hr)).
  assert (Hc := fun input => Reader_ready_mk r input st Hr).
  destruct v; try contradiction; cbn [enc scalar_bytes type_of_value app valid] in *.
  - unfold void, Reader_getBool. rewrite bind_assoc, (bind_ok _ _ _ _ _ (Hc _)).
    destruct b; reflexivity.
  - unfold Reader_getNil. rewrite (bind_ok _ _ _ _ _ (Hc _)). reflexivity.
  - unfold Reader_skipString. rewrite (bind_ok _ _ _ _ _ (Hc _)).
    rewrite Reader_get_cons.
    change (negb (uchar (chr "S") =? chr "S")) with false. cbv iota.
    unfold on_input. cbn [is_ rready_].
    rewrite (c_str_id str Hv), <- app_assoc. cbn [app].
    rewrite (skipString_loop_run str rest Hv). reflexivity.
  - unfold Reader_skipBinary. rewrite (bind_ok _ _ _ _ _ (Hc _)).
    rewrite Reader_get_cons.
    change (negb (uchar (chr "B") =? chr "B")) with false. cbv iota.
    rewrite <- app_assoc.
    assert (Hlen : 0 <= Z.of_nat (length data) < 2 ^ 64) by lia.
    rewrite (bind_ok _ _ _ _ _ (Reader_nextLEB128_bytes _ _ st Hlen)).
    unfold on_input. cbn [is_ rready_].
    rewrite uint64_small by lia.
    rewrite <- (length_map uchar data).
    rewrite skipBinary_loop_run. reflexivity.
  - cbn [le_bytes seq map app].
    match goal with
    | |- context [mk_rstate (_ :: ?b0 :: ?b1 :: ?b2 :: ?b3 :: rest) st] =>
        destruct (Reader_getFloat_run r b0 b1 b2 b3 rest st Hr) as [f Hf]
    end.
    apply (void_ok _ _ _ _ Hf).
  - cbn [le_bytes seq map app].
    match goal with
    | |- context [mk_rstate (_ :: ?b0 :: ?b1 :: ?b2 :: ?b3 :: ?b4 :: ?b5
                               :: ?b6 :: ?b7 :: rest) st] =>
        destruct (Reader_getDouble_run r b0 b1 b2 b3 b4 b5 b6 b7 rest st Hr)
          as [d Hd]
    end.
    apply (void_ok _ _ _ _ Hd).
  - unfold INT64_MIN, INT64_MAX in *.
    destruct (Z.eqb_spec num (- 2 ^ 63)) as [-> | Hne].
    { cbn [Z.ltb Z.compare Z.opp Z.pow Z.pow_pos Pos.iter Pos.mul]. cbn [app].
      eapply void_ok. apply Reader_getInt_minus; [exact Hr | lia]. }
    destruct (Z.ltb_spec num 0) as [Hneg | Hpos].
    { cbn [app]. eapply void_ok.
      apply Reader_getInt_minus; [exact Hr | rewrite int64_small; lia]. }
    destruct (Z.leb_spec num 9) as [H9 | H10]; cbn [app]; eapply void_ok.
    + rewrite uchar_small by (norm_chr; lia).
      apply Reader_getUInt_digit; [exact Hr | norm_chr; lia].
    + apply Reader_getUInt_plus; [exact Hr | lia].
  - destruct (Z.leb_spec num 9) as [H9 | H10]; cbn [app]; eapply void_ok.
    + rewrite uchar_small by (norm_chr; lia).
      apply Reader_getUInt_digit; [exact Hr | norm_chr; lia].
    + apply Reader_getUInt_plus; [exact Hr | lia].
Qed.

(** The encoding of a valid value starts with a byte that is not a
    terminator. *)
Lemma enc_head v :
  valid v ->
  exists tag tl, enc v = tag :: tl /\ 0 <= tag < 256 /\
                 tag <> chr "]" /\ tag <> chr "}".
Proof.
  intros Hv.
  assert (Htag : forall a tl, a <> "]"%char -> a <> "}"%char ->
            exists tag tl', chr a :: tl = tag :: tl' /\ 0 <= tag < 256 /\
                            tag <> chr "]" /\ tag <> chr "}").
  { intros a tl H1 H2. exists (chr a), tl. split; [reflexivity |].
    unfold chr. pose proof (N_ascii_bounded a) as Hb.
    split; [lia |]. split; intros He; apply Z2N.inj_iff in He; try lia;
      rewrite !N2Z.id in He; apply (f_equal ascii_of_N) in He;
      rewrite !ascii_N_embedding in He; congruence. }
  assert (Hdigit : forall n, 0 <= n <= 9 ->
            exists tag tl', [uchar (chr "0" + n)] = tag :: tl' /\
                            0 <= tag < 256 /\ tag <> chr "]" /\ tag <> chr "}").
  { intros n Hn. exists (uchar (chr "0" + n)), []. split; [reflexivity |].
    rewrite uchar_small by (norm_chr; lia). norm_chr. lia. }
  destruct v; cbn [enc scalar_bytes valid] in *;
    try (apply Htag; discriminate).
  - destruct b; apply Htag; discriminate.
  - unfold INT64_MIN, INT64_MAX in *.
    destruct (num =? - 2 ^ 63); [apply Htag; discriminate |].
    destruct (Z.ltb_spec num 0); [apply Htag; discriminate |].
    destruct (Z.leb_spec num 9); [apply Hdigit; lia | apply Htag; discriminate].
  - destruct (Z.leb_spec num 9); [apply Hdigit; lia | apply Htag; discriminate].
Qed.

Lemma enc_nonempty v : valid v -> (1 <= length (enc v))%nat.
Proof.
  intros Hv. destruct (enc_head v Hv) as (tag & tl & -> & _). cbn. lia.
Qed.

Lemma ArrayReader_hasNext_enc v rest st :
  valid v ->
  ArrayReader_hasNext tt (mk_rstate (enc v ++ rest) st)
  = (mk_rstate (enc v ++ rest) st, Ok true).
Proof.
  intros Hv. destruct (enc_head v Hv) as (tag & tl & -> & Hb & H1 & _).
  unfold ArrayReader_hasNext, bind, is_peek. cbn [app is_ rready_].
  rewrite uchar_small by exact Hb. unfold ret. norm_chr.
  decide_tests. reflexivity.
Qed.

Lemma Reader_copy_fresh input (st : store) b :
  Reader_copy (length st) (mk_rstate input (st ++ [b]))
  = (mk_rstate input ((st ++ [b]) ++ [b]), Ok (length (st ++ [b]))).
Proof. unfold Reader_copy. cbn [is_ rready_]. rewrite lookup_fresh. reflexivity. Qed.

Lemma skip_elements f vs :
  Forall (fun v => valid v /\
            forall r rest st, st !! r = Some true ->
              exists extra,
                Reader_skip_fuel f r (mk_rstate (enc v ++ rest) st)
                = (mk_rstate rest (st ++ extra), Ok tt)) vs ->
  forall n rest st, (length vs < n)%nat ->
    exists extra,
      ArrayReader_all n tt
        (fun val _ => r' <- Reader_copy val ;; Reader_skip_fuel f r') tt
        (mk_rstate (flat_map enc vs ++ chr "]" :: rest) st)
      = (mk_rstate (chr "]" :: rest) (st ++ extra), Ok tt).
Proof.
  induction 1 as [| v vs [Hv Hskip] _ IH]; intros n rest st Hn;
    (destruct n as [| n]; [cbn [length] in Hn; lia |]);
    cbn [ArrayReader_all flat_map app].
  - exists []. rewrite app_nil_r. reflexivity.
  - rewrite <- app_assoc.
    rewrite (bind_ok _ _ _ _ _ (ArrayReader_hasNext_enc v _ st Hv)).
    unfold ArrayReader_next. unfold bind at 1. unfold new_Reader.
    cbn [is_ rready_]. rewrite bind_assoc.
    rewrite (bind_ok _ _ _ _ _ (Reader_copy_fresh _ st true)).
    destruct (Hskip (length (st ++ [true])) (flat_map enc vs ++ chr "]" :: rest)
                ((st ++ [true]) ++ [true]) (lookup_fresh _ _)) as [e1 H1].
    rewrite (bind_ok _ _ _ _ _ H1).
    destruct (IH n rest (((st ++ [true]) ++ [true]) ++ e1)) as [e2 H2].
    { cbn [length] in Hn. lia. }
    exists ([true] ++ [true] ++ e1 ++ e2). rewrite H2.
    rewrite <- !app_assoc. reflexivity.
Qed.

Lemma ObjectReader_hasNext_key key more st :
  (forall c key', key = c :: key' -> uchar c <> chr "}") ->
  ObjectReader_hasNext tt (mk_rstate (map uchar key ++ 0 :: more) st)
  = (mk_rstate (map uchar key ++ 0 :: more) st, Ok true).
Proof.
  intros Hk. destruct key as [| c key]; [reflexivity |].
  specialize (Hk c key eq_refl).
  unfold ObjectReader_hasNext, bind, is_peek. cbn [map app is_ rready_].
  rewrite uchar_idem. pose proof (uchar_range c) as Hc. unfold ret.
  norm_chr. decide_tests. reflexivity.
Qed.

Lemma ObjectReader_next_run key more st :
  Forall (fun c => uchar c <> 0) key ->
  ObjectReader_next tt (mk_rstate (map uchar key ++ 0 :: more) st)
  = (mk_rstate more (st ++ [true]), Ok (map uchar key, length st)).
Proof.
  intros Hk. unfold ObjectReader_next. unfold bind at 1. unfold on_input.
  cbn [is_ rready_]. rewrite (ObjectReader_next_loop_run key more [] Hk).
  reflexivity.
Qed.

Lemma skip_entries f kvs :
  Forall (fun kv =>
            Forall (fun c => uchar c <> 0) (fst kv) /\
            (forall c key', fst kv = c :: key' -> uchar c <> chr "}") /\
            forall r rest st, st !! r = Some true ->
              exists extra,
                Reader_skip_fuel f r (mk_rstate (enc (snd kv) ++ rest) st)
                = (mk_rstate rest (st ++ extra), Ok tt)) kvs ->
  forall n rest st, (length kvs < n)%nat ->
    exists extra,
      ObjectReader_all n tt
        (fun _ val _ => r' <- Reader_copy val ;; Reader_skip_fuel f r') tt
        (mk_rstate
           (flat_map
              (fun kv => (map uchar (c_str (fst kv)) ++ [0]) ++ enc (snd kv))
              kvs ++ chr "}" :: rest) st)
      = (mk_rstate (chr "}" :: rest) (st ++ extra), Ok tt).
Proof.
  induction 1 as [| kv kvs (Hnul & Hhead & Hskip) _ IH]; intros n rest st Hn;
    (destruct n as [| n]; [cbn [length] in Hn; lia |]);
    cbn [ObjectReader_all flat_map app].
  - exists []. rewrite app_nil_r. reflexivity.
  - rewrite (c_str_id _ Hnul), <- !app_assoc. cbn [app].
    rewrite (bind_ok _ _ _ _ _ (ObjectReader_hasNext_key _ _ st Hhead)).
    rewrite (bind_ok _ _ _ _ _ (ObjectReader_next_run _ _ st Hnul)).
    cbn [fst snd]. rewrite bind_assoc.
    rewrite (bind_ok _ _ _ _ _ (Reader_copy_fresh _ st true)).
    match goal with
    | |- context [mk_rstate (enc (snd kv) ++ ?more) _] =>
        destruct (Hskip (length (st ++ [true])) more
                    ((st ++ [true]) ++ [true]) (lookup_fresh _ _)) as [e1 H1]
    end.
    rewrite (bind_ok _ _ _ _ _ H1).
    destruct (IH n rest (((st ++ [true]) ++ [true]) ++ e1)) as [e2 H2].
    { cbn [length] in Hn. lia. }
    exists ([true] ++ [true] ++ e1 ++ e2). rewrite H2.
    rewrite <- !app_assoc. reflexivity.
Qed.

Lemma valid_VArray vs : valid (VArray vs) <-> Forall valid vs.
Proof.
  cbn [valid]. induction vs as [| v vs IH]; cbn [fold_right].
  - split; [constructor | trivial].
  - rewrite Forall_cons, IH. reflexivity.
Qed.

Lemma valid_VObject kvs :
  valid (VObject kvs) <->
  Forall (fun kv => Forall (fun c => uchar c <> 0) (fst kv) /\ valid (snd kv)) kvs.
Proof.
  cbn [valid]. induction kvs as [| kv kvs IH]; cbn [fold_right].
  - split; [constructor | trivial].
  - rewrite Forall_cons, IH. tauto.
Qed.

Lemma keys_readable_VArray vs :
  keys_readable (VArray vs) <-> Forall keys_readable vs.
Proof.
  cbn [keys_readable]. induction vs as [| v vs IH]; cbn [fold_right].
  - split; [constructor | trivial].
  - rewrite Forall_cons, IH. reflexivity.
Qed.

Lemma keys_readable_VObject kvs :
  keys_readable (VObject kvs) <->
  Forall (fun kv => (forall c key', fst kv = c :: key' -> uchar c <> chr "}") /\
                    keys_readable (snd kv)) kvs.
Proof.
  cbn [keys_readable]. induction kvs as [| kv kvs IH]; cbn [fold_right].
  - split; [constructor | trivial].
  - rewrite Forall_cons, IH. tauto.
Qed.

Lemma flat_map_length_bound {A} (f : A -> list Z) (l : list A) :
  Forall (fun x => (1 <= length (f x))%nat) l ->
  (length l <= length (flat_map f l))%nat /\
  Forall (fun x => (length (f x) <= length (flat_map f l))%nat) l.
Proof.
  induction 1 as [| x l Hx _ [IH1 IH2]]; cbn [flat_map length].
  - split; [lia | constructor].
  - rewrite length_app. split; [lia |]. constructor; [lia |].
    eapply Forall_impl; [exact IH2 |]. cbn. intros y Hy. lia.
Qed.

(** Skipping the encoding of a valid value whose keys can be read back stops
    right after it, given more fuel than the encoding has bytes. *)
Lemma skip_enc v :
  valid v -> keys_readable v ->
  forall fuel r rest st,
    st !! r = Some true -> (length (enc v) < fuel)%nat ->
    exists extra,
      Reader_skip_fuel fuel r (mk_rstate (enc v ++ rest) st)
      = (mk_rstate rest (st ++ extra), Ok tt).
Proof.
  induction v as [v Hs | vs IH | kvs IH] using Value_ind;
    intros Hv Hk fuel r rest st Hr Hfuel;
    (destruct fuel as [| f]; [lia |]).
  - exists []. rewrite app_nil_r. apply skip_scalar; assumption.
  - pose proof (proj1 (valid_VArray vs) Hv) as Hvs.
    pose proof (proj1 (keys_readable_VArray vs) Hk) as Hks.
    destruct (flat_map_length_bound enc vs) as [Hlen Hlens].
    { eapply Forall_impl; [exact Hvs |]. intros x. apply enc_nonempty. }
    cbn [enc length] in Hfuel. rewrite length_app in Hfuel. cbn [length] in Hfuel.
    assert (Helems : Forall (fun v => valid v /\
              forall r rest st, st !! r = Some true ->
                exists extra,
                  Reader_skip_fuel f r (mk_rstate (enc v ++ rest) st)
                  = (mk_rstate rest (st ++ extra), Ok tt)) vs).
    { rewrite Forall_forall in *. intros x Hx. split; [apply Hvs, Hx |].
      intros r' rest' st' Hr'.
      apply (IH x Hx (Hvs x Hx) (Hks x Hx)); [exact Hr' |].
      specialize (Hlens x Hx). lia. }
    destruct (skip_elements f vs Helems f rest (<[r := false]> st) ltac:(lia))
      as [e1 H1].
    cbn [Reader_skip_fuel].
    rewrite (bind_ok _ _ _ _ _ (Reader_getType_enc _ r rest st Hv Hr)).
    cbn [type_of_value]. unfold Reader_readArray.
    cbn [enc app]. rewrite <- app_assoc. cbn [app].
    rewrite (Reader_getArray_enter r _ tt _ st Hr).
    rewrite (bind_ok _ _ _ _ _ H1).
    unfold bind at 1. unfold Reader_set_ready. cbn [is_ rready_].
    rewrite insert_restore_app by exact Hr.
    rewrite (bind_ok _ _ _ _ _ (Reader_next_cons _ _ _)).
    exists e1. reflexivity.
  - pose proof (proj1 (valid_VObject kvs) Hv) as Hvs.
    pose proof (proj1 (keys_readable_VObject kvs) Hk) as Hks.
    destruct (flat_map_length_bound
                (fun kv => (map uchar (c_str (fst kv)) ++ [0]) ++ enc (snd kv))
                kvs) as [Hlen Hlens].
    { eapply Forall_impl; [exact Hvs |]. intros x [_ Hx].
      rewrite !length_app. cbn [length]. lia. }
    cbn [enc length] in Hfuel. rewrite length_app in Hfuel. cbn [length] in Hfuel.
    assert (Hentries : Forall (fun kv =>
              Forall (fun c => uchar c <> 0) (fst kv) /\
              (forall c key', fst kv = c :: key' -> uchar c <> chr "}") /\
              forall r rest st, st !! r = Some true ->
                exists extra,
                  Reader_skip_fuel f r (mk_rstate (enc (snd kv) ++ rest) st)
                  = (mk_rstate rest (st ++ extra), Ok tt)) kvs).
    { rewrite Forall_forall in *. intros x Hx.
      split; [apply Hvs, Hx |]. split; [apply Hks, Hx |].
      intros r' rest' st' Hr'.
      apply (IH x Hx (proj2 (Hvs x Hx)) (proj2 (Hks x Hx))); [exact Hr' |].
      specialize (Hlens x Hx). rewrite !length_app in Hlens. lia. }
    destruct (skip_entries f kvs Hentries f rest (<[r := false]> st) ltac:(lia))
      as [e1 H1].
    cbn [Reader_skip_fuel].
    rewrite (bind_ok _ _ _ _ _ (Reader_getType_enc _ r rest st Hv Hr)).
    cbn [type_of_value]. unfold Reader_readObject.
    cbn [enc app]. rewrite <- app_assoc. cbn [app].
    rewrite (Reader_getObject_enter r _ tt _ st Hr).
    rewrite (bind_ok _ _ _ _ _ H1).
    unfold bind at 1. unfold Reader_set_ready. cbn [is_ rready_].
    rewrite insert_restore_app by exact Hr.
    rewrite (bind_ok _ _ _ _ _ (Reader_next_cons _ _ _)).
    exists e1. reflexivity.
Qed.

(** ** [skip] never runs out of fuel *)

Lemma progresses_bounded {A} n (c : M rstate A) : progresses n c -> bounded n c.
Proof. intros H s Hs. destruct (H s Hs) as (H1 & H2 & _). split; assumption. Qed.

Lemma bounded_ret {A} n (a : A) : bounded n (ret a).
Proof. intros s _. split; [discriminate | reflexivity]. Qed.

Lemma bounded_throw {A} n e : bounded (A := A) n (throw e).
Proof. intros s _. split; [discriminate | reflexivity]. Qed.

Lemma bounded_bind {A B} n (c : M rstate A) (k : A -> M rstate B) :
  bounded n c -> (forall a, bounded n (k a)) -> bounded n (bind c k).
Proof.
  intros Hc Hk s Hs. destruct (Hc s Hs) as [H1 H2]. unfold bind.
  destruct (c s) as [s1 [a | e | |]]; cbn [fst snd] in *;
    try (split; [discriminate | exact H2]); [| contradiction].
  destruct (Hk a s1 ltac:(lia)) as [H3 H4]. split; [exact H3 | lia].
Qed.

Lemma progresses_bind_l {A B} n (c : M rstate A) (k : A -> M rstate B) :
  progresses (S n) c -> (forall a, bounded n (k a)) ->
  progresses (S n) (bind c k).
Proof.
  intros Hc Hk s Hs. destruct (Hc s Hs) as (H1 & H2 & H3). unfold bind.
  destruct (c s) as [s1 [a | e | |]]; cbn [fst snd] in *;
    try (split; [discriminate | split; [exact H2 | discriminate]]);
    [| contradiction].
  specialize (H3 a eq_refl).
  destruct (Hk a s1 ltac:(lia)) as [H4 H5].
  split; [exact H4 |]. split; [lia |]. intros b _. lia.
Qed.

Lemma progresses_bind_r {A B} n (c : M rstate A) (k : A -> M rstate B) :
  bounded n c -> (forall a, progresses n (k a)) -> progresses n (bind c k).
Proof.
  intros Hc Hk s Hs. destruct (Hc s Hs) as [H1 H2]. unfold bind.
  destruct (c s) as [s1 [a | e | |]]; cbn [fst snd] in *;
    try (split; [discriminate | split; [exact H2 | discriminate]]);
    [| contradiction].
  destruct (Hk a s1 ltac:(lia)) as (H3 & H4 & H5).
  split; [exact H3 |]. split; [lia |]. intros b Hb. specialize (H5 b Hb). lia.
Qed.

Lemma bounded_weaken {A} n m (c : M rstate A) :
  (m <= n)%nat -> bounded n c -> bounded m c.
Proof. intros Hm H s Hs. apply H. lia. Qed.

Lemma bounded_checkReady n r : bounded n (Reader_checkReady r).
Proof.
  intros s _. unfold Reader_checkReady.
  destruct (rready_ s !! r) as [[|] |]; split; (discriminate || reflexivity).
Qed.

Lemma bounded_set_ready n r b : bounded n (Reader_set_ready r b).
Proof. intros s _. split; [discriminate | reflexivity]. Qed.

Lemma bounded_new_Reader n : bounded n new_Reader.
Proof. intros s _. split; [discriminate | reflexivity]. Qed.

Lemma bounded_copy n r : bounded n (Reader_copy r).
Proof.
  intros s _. unfold Reader_copy.
  destruct (rready_ s !! r); split; (discriminate || reflexivity).
Qed.

Lemma bounded_peek n : bounded n is_peek.
Proof.
  intros [[| c rest] st] _; cbn; split; (discriminate || lia).
Qed.

Lemma bounded_get n : bounded n is_get.
Proof.
  intros [[| c rest] st] _; cbn; split; (discriminate || lia).
Qed.

Lemma progresses_next n : progresses n Reader_next.
Proof.
  intros s _. unfold Reader_next, bind, is_get.
  destruct s as [[| c rest] st]; cbn [is_ rready_].
  - split; [discriminate |]. split; [reflexivity | discriminate].
  - pose proof (uchar_range c) as Hc.
    replace (uchar c =? EOF) with false
      by (symmetry; apply Z.eqb_neq; unfold EOF; lia).
    split; [discriminate |]. cbn. split; [lia |]. intros _ _. lia.
Qed.

(** An operation that starts with [get()] and rejects [EOF]. *)
Lemma progresses_get {A} n (k : Z -> M rstate A) :
  (forall ch, bounded n (k ch)) ->
  (forall s a, snd (k EOF s) <> Ok a) ->
  progresses n (bind is_get k).
Proof.
  intros Hk Heof s Hs. unfold bind, is_get.
  destruct s as [[| c rest] st]; cbn [is_ rready_ length] in *.
  - destruct (Hk EOF (mk_rstate [] st) Hs) as [H1 H2].
    split; [exact H1 |]. split; [exact H2 |].
    intros a Ha. exfalso. exact (Heof _ a Ha).
  - destruct (Hk (uchar c) (mk_rstate rest st) ltac:(cbn [is_]; lia)) as [H1 H2].
    cbn [is_] in H2.
    split; [exact H1 |]. split; [lia |]. intros a _. lia.
Qed.

Lemma bounded_on_input {A} n (loop : list Z -> list Z * outcome A) :
  (forall input, snd (loop input) <> OutOfFuel /\
                 (length (fst (loop input)) <= length input)%nat) ->
  bounded n (on_input loop).
Proof.
  intros H s _. unfold on_input. specialize (H (is_ s)).
  destruct (loop (is_ s)) as [rest o]. exact H.
Qed.

Lemma nextLEB128_loop_bounded input : forall num shift,
  snd (nextLEB128_loop input num shift) <> OutOfFuel /\
  (length (fst (nextLEB128_loop input num shift)) <= length input)%nat.
Proof.
  induction input as [| c input IH]; intros num shift; cbn [nextLEB128_loop].
  - split; [discriminate | reflexivity].
  - destruct (64 <=? shift); [split; [discriminate | cbn; lia] |].
    destruct (128 <=? uchar c); [| split; [discriminate | cbn; lia]].
    match goal with
    | |- context [nextLEB128_loop input ?a ?b] => destruct (IH a b) as [H1 H2]
    end.
    split; [exact H1 | cbn [length]; lia].
Qed.

Lemma skipString_loop_bounded input :
  snd (skipString_loop input) <> OutOfFuel /\
  (length (fst (skipString_loop input)) <= length input)%nat.
Proof.
  induction input as [| c input [H1 H2]]; cbn [skipString_loop].
  - split; [discriminate | reflexivity].
  - destruct (negb (uchar c =? 0)).
    + split; [exact H1 | cbn [length]; lia].
    + split; [discriminate | cbn; lia].
Qed.

Lemma skipBinary_loop_bounded input : forall size,
  snd (skipBinary_loop input size) <> OutOfFuel /\
  (length (fst (skipBinary_loop input size)) <= length input)%nat.
Proof.
  induction input as [| c input IH]; intros size; cbn [skipBinary_loop].
  - destruct (0 <? size); split; (discriminate || reflexivity).
  - destruct (0 <? size).
    + destruct (IH (size - 1)) as [H1 H2].
      split; [exact H1 | cbn [length]; lia].
    + split; [discriminate | reflexivity].
Qed.

Lemma ObjectReader_next_loop_bounded input : forall key,
  snd (ObjectReader_next_loop input key) <> OutOfFuel /\
  (length (fst (ObjectReader_next_loop input key)) <= length input)%nat.
Proof.
  induction input as [| c input IH]; intros key; cbn [ObjectReader_next_loop].
  - split; [discriminate | reflexivity].
  - destruct (uchar c =? 0).
    + split; [discriminate | cbn; lia].
    + destruct (IH (key ++ [uchar c])) as [H1 H2].
      split; [exact H1 | cbn [length]; lia].
Qed.

Create HintDb nbon_bounded.

#[local] Hint Resolve bounded_ret bounded_throw bounded_checkReady
  bounded_set_ready bounded_new_Reader bounded_copy bounded_peek bounded_get
  : nbon_bounded.

Lemma bounded_next n : bounded n Reader_next.
Proof. apply progresses_bounded, progresses_next. Qed.

Lemma bounded_nextLEB128 n : bounded n Reader_nextLEB128.
Proof.
  apply bounded_on_input. intros input. apply nextLEB128_loop_bounded.
Qed.

#[local] Hint Resolve bounded_next bounded_nextLEB128 : nbon_bounded.

(** Straight-line code over bounded steps is bounded. *)
Ltac bounded_steps :=
  repeat first
    [ solve [auto with nbon_bounded]
    | apply bounded_bind; [| intros ?]
    | match goal with
      | |- bounded _ (if ?b then _ else _) => destruct b
      end ].

Lemma bounded_getType n r : bounded n (Reader_getType r).
Proof. unfold Reader_getType. bounded_steps. Qed.

Lemma progresses_void {A} n (c : M rstate A) : progresses n c -> progresses n (void c).
Proof.
  intros H s Hs. destruct (H s Hs) as (H1 & H2 & H3). unfold void, bind, ret.
  destruct (c s) as [s1 [a | e | |]]; cbn [fst snd] in *;
    try (split; [discriminate | split; [exact H2 | discriminate]]);
    [| contradiction].
  split; [discriminate |]. split; [exact H2 |]. intros _ _. exact (H3 a eq_refl).
Qed.

(** An operation that checks [ready_] and then progresses. *)
Lemma progresses_checked {A} n r (c : M rstate A) :
  progresses n c -> progresses n (Reader_checkReady r ;; c).
Proof.
  intros H. apply progresses_bind_r; [apply bounded_checkReady | intros _; exact H].
Qed.

Lemma progresses_getBool n r : progresses n (Reader_getBool r).
Proof.
  unfold Reader_getBool. apply progresses_checked, progresses_get.
  - intros ch. bounded_steps.
  - intros s a. cbn. discriminate.
Qed.

Lemma progresses_getNil n r : progresses n (Reader_getNil r).
Proof.
  unfold Reader_getNil. apply progresses_checked, progresses_get.
  - intros ch. bounded_steps.
  - intros s a. cbn. discriminate.
Qed.

Lemma progresses_skipString n r : progresses n (Reader_skipString r).
Proof.
  unfold Reader_skipString. apply progresses_checked, progresses_get.
  - intros ch. bounded_steps.
    apply bounded_on_input. intros input. apply skipString_loop_bounded.
  - intros s a. cbn. discriminate.
Qed.

Lemma progresses_skipBinary n r : progresses n (Reader_skipBinary r).
Proof.
  unfold Reader_skipBinary. apply progresses_checked, progresses_get.
  - intros ch. bounded_steps.
    apply bounded_on_input. intros input. apply skipBinary_loop_bounded.
  - intros s a. cbn. discriminate.
Qed.

Lemma progresses_getFloat n r : progresses n (Reader_getFloat r).
Proof.
  unfold Reader_getFloat. apply progresses_checked, progresses_get.
  - intros ch. bounded_steps.
  - intros s a. cbn. discriminate.
Qed.

Lemma progresses_getDouble n r : progresses n (Reader_getDouble r).
Proof.
  unfold Reader_getDouble. apply progresses_checked, progresses_get.
  - intros ch. bounded_steps.
  - intros s a. cbn. discriminate.
Qed.

Lemma progresses_next_then {A} n (k : Z -> M rstate A) :
  (forall ch, bounded n (k ch)) -> progresses n (bind Reader_next k).
Proof.
  intros Hk s Hs. destruct (progresses_next n s Hs) as (H1 & H2 & H3).
  unfold bind. destruct (Reader_next s) as [s1 [ch | e | |]]; cbn [fst snd] in *;
    try (split; [discriminate | split; [exact H2 | discriminate]]);
    [| contradiction].
  specialize (H3 ch eq_refl).
  destruct (Hk ch s1 ltac:(lia)) as [H4 H5].
  split; [exact H4 |]. split; [lia |]. intros a _. lia.
Qed.

Lemma progresses_getInt n r : progresses n (Reader_getInt r).
Proof.
  unfold Reader_getInt. apply progresses_checked, progresses_next_then.
  intros ch. bounded_steps.
Qed.

Lemma progresses_getUInt n r : progresses n (Reader_getUInt r).
Proof.
  unfold Reader_getUInt. apply progresses_checked, progresses_next_then.
  intros ch. bounded_steps.
Qed.

Lemma progresses_weaken {A} n m (c : M rstate A) :
  (m <= n)%nat -> progresses n c -> progresses m c.
Proof. intros Hm H s Hs. apply H. lia. Qed.

Lemma bounded_0 {A} (c : M rstate A) : bounded 0 c.
Proof. intros s Hs. lia. Qed.

(** The loop of [ArrayReader::all] ends when every turn of the callback
    consumes input and the loop has more turns than there are bytes. *)
Lemma bounded_ArrayReader_all {A} f arr (cb : Reader -> A -> M rstate A) :
  (forall val a, progresses f (cb val a)) ->
  forall m a, bounded (Nat.min m f) (ArrayReader_all m arr cb a).
Proof.
  intros Hcb m. induction m as [| m IH]; intros a; [apply bounded_0 |].
  destruct f as [| f]; [rewrite Nat.min_0_r; apply bounded_0 |].
  rewrite <- Nat.succ_min_distr. cbn [ArrayReader_all].
  unfold ArrayReader_hasNext, ArrayReader_next.
  apply bounded_bind; [bounded_steps |]. intros [|]; [| apply bounded_ret].
  apply bounded_bind; [apply bounded_new_Reader |]. intros val.
  apply progresses_bounded, progresses_bind_l.
  - eapply progresses_weaken; [| apply Hcb]. lia.
  - intros a'. eapply bounded_weaken; [| apply IH]. lia.
Qed.

Lemma bounded_ObjectReader_next n obj : bounded n (ObjectReader_next obj).
Proof.
  unfold ObjectReader_next. bounded_steps.
  apply bounded_on_input. intros input. apply ObjectReader_next_loop_bounded.
Qed.

Lemma bounded_ObjectReader_all {A} f obj
    (cb : list Z -> Reader -> A -> M rstate A) :
  (forall key val a, progresses f (cb key val a)) ->
  forall m a, bounded (Nat.min m f) (ObjectReader_all m obj cb a).
Proof.
  intros Hcb m. induction m as [| m IH]; intros a; [apply bounded_0 |].
  destruct f as [| f]; [rewrite Nat.min_0_r; apply bounded_0 |].
  rewrite <- Nat.succ_min_distr. cbn [ObjectReader_all].
  unfold ObjectReader_hasNext.
  apply bounded_bind; [bounded_steps |]. intros [|]; [| apply bounded_ret].
  apply bounded_bind; [apply bounded_ObjectReader_next |]. intros kv.
  apply progresses_bounded, progresses_bind_l.
  - eapply progresses_weaken; [| apply Hcb]. lia.
  - intros a'. eapply bounded_weaken; [| apply IH]. lia.
Qed.

Lemma progresses_getArray {A} n r (func : ArrayReader -> A -> M rstate A) a :
  (forall arr a, bounded n (func arr a)) ->
  progresses (S n) (Reader_getArray r func a).
Proof.
  intros Hf. unfold Reader_getArray.
  apply progresses_checked, progresses_bind_l; [apply progresses_next |].
  intros ch. bounded_steps.
Qed.

Lemma progresses_getObject {A} n r (func : ObjectReader -> A -> M rstate A) a :
  (forall obj a, bounded n (func obj a)) ->
  progresses (S n) (Reader_getObject r func a).
Proof.
  intros Hf. unfold Reader_getObject.
  apply progresses_checked, progresses_bind_l; [apply progresses_next |].
  intros ch. bounded_steps.
Qed.

(** With more fuel than the input has bytes, [skip] does not run out of
    fuel, does not put bytes back, and consumes at least one byte when it
    returns. *)
Lemma progresses_skip fuel : forall r, progresses fuel (Reader_skip_fuel fuel r).
Proof.
  induction fuel as [| f IH]; intros r; [intros s Hs; lia |].
  cbn [Reader_skip_fuel].
  apply progresses_bind_r; [apply bounded_getType |].
  assert (Hcb : forall val, progresses f (r' <- Reader_copy val ;; Reader_skip_fuel f r')).
  { intros val. apply progresses_bind_r; [apply bounded_copy | intros r'; apply IH]. }
  intros [| | | | | | | | |].
  - apply progresses_void, progresses_getBool.
  - apply progresses_getNil.
  - apply progresses_skipString.
  - apply progresses_skipBinary.
  - apply progresses_void, progresses_getFloat.
  - apply progresses_void, progresses_getDouble.
  - apply progresses_void, progresses_getInt.
  - apply progresses_void, progresses_getUInt.
  - unfold Reader_readArray. apply progresses_getArray. intros arr a.
    rewrite <- (Nat.min_id f) at 1.
    apply bounded_ArrayReader_all. intros val _. apply Hcb.
  - unfold Reader_readObject. apply progresses_getObject. intros obj a.
    rewrite <- (Nat.min_id f) at 1.
    apply bounded_ObjectReader_all. intros _ val _. apply Hcb.
Qed.

(** [Reader::skip] always ends: the fuel [Reader_skip] gives itself is
    enough on every input. *)
Lemma Reader_skip_total r s : snd (Reader_skip r s) <> OutOfFuel.
Proof.
  unfold Reader_skip.
  apply (progresses_skip (S (length (is_ s))) r s). lia.
Qed.

(** *** The result of [skip] does not depend on the fuel *)

Lemma more_fuel_refl {A} (c : M rstate A) : more_fuel c c.
Proof. intros s _. reflexivity. Qed.

Lemma more_fuel_bind {A B} (c1 c2 : M rstate A) (k1 k2 : A -> M rstate B) :
  more_fuel c1 c2 -> (forall a, more_fuel (k1 a) (k2 a)) ->
  more_fuel (bind c1 k1) (bind c2 k2).
Proof.
  intros Hc Hk s Hs. unfold bind in *. specialize (Hc s).
  destruct (c1 s) as [s1 [a | e | |]]; cbn [snd] in *;
    try (rewrite Hc by discriminate; reflexivity);
    [| contradiction].
  rewrite Hc by discriminate. apply Hk. exact Hs.
Qed.

Lemma more_fuel_ArrayReader_all {A} arr (cb1 cb2 : Reader -> A -> M rstate A) :
  (forall val a, more_fuel (cb1 val a) (cb2 val a)) ->
  forall n m a, (n <= m)%nat ->
    more_fuel (ArrayReader_all n arr cb1 a) (ArrayReader_all m arr cb2 a).
Proof.
  intros Hcb n. induction n as [| n IH]; intros m a Hm.
  { intros s Hs. exfalso. apply Hs. reflexivity. }
  destruct m as [| m]; [lia |]. cbn [ArrayReader_all].
  apply more_fuel_bind; [apply more_fuel_refl |].
  intros [|]; [| apply more_fuel_refl].
  apply more_fuel_bind; [apply more_fuel_refl |]. intros val.
  apply more_fuel_bind; [apply Hcb |]. intros a'. apply IH. lia.
Qed.

Lemma more_fuel_ObjectReader_all {A} obj
    (cb1 cb2 : list Z -> Reader -> A -> M rstate A) :
  (forall key val a, more_fuel (cb1 key val a) (cb2 key val a)) ->
  forall n m a, (n <= m)%nat ->
    more_fuel (ObjectReader_all n obj cb1 a) (ObjectReader_all m obj cb2 a).
Proof.
  intros Hcb n. induction n as [| n IH]; intros m a Hm.
  { intros s Hs. exfalso. apply Hs. reflexivity. }
  destruct m as [| m]; [lia |]. cbn [ObjectReader_all].
  apply more_fuel_bind; [apply more_fuel_refl |].
  intros [|]; [| apply more_fuel_refl].
  apply more_fuel_bind; [apply more_fuel_refl |]. intros kv.
  apply more_fuel_bind; [apply Hcb |]. intros a'. apply IH. lia.
Qed.

Lemma more_fuel_getArray {A} r (f1 f2 : ArrayReader -> A -> M rstate A) a :
  (forall arr a, more_fuel (f1 arr a) (f2 arr a)) ->
  more_fuel (Reader_getArray r f1 a) (Reader_getArray r f2 a).
Proof.
  intros Hf. unfold Reader_getArray.
  apply more_fuel_bind; [apply more_fuel_refl |]. intros _.
  apply more_fuel_bind; [apply more_fuel_refl |]. intros ch.
  destruct (negb (ch =? chr "[")); [apply more_fuel_refl |].
  apply more_fuel_bind; [apply more_fuel_refl |]. intros _.
  apply more_fuel_bind; [apply Hf |]. intros a'. apply more_fuel_refl.
Qed.

Lemma more_fuel_getObject {A} r (f1 f2 : ObjectReader -> A -> M rstate A) a :
  (forall obj a, more_fuel (f1 obj a) (f2 obj a)) ->
  more_fuel (Reader_getObject r f1 a) (Reader_getObject r f2 a).
Proof.
  intros Hf. unfold Reader_getObject.
  apply more_fuel_bind; [apply more_fuel_refl |]. intros _.
  apply more_fuel_bind; [apply more_fuel_refl |]. intros ch.
  destruct (negb (ch =? chr "{")); [apply more_fuel_refl |].
  apply more_fuel_bind; [apply more_fuel_refl |]. intros _.
  apply more_fuel_bind; [apply Hf |]. intros a'. apply more_fuel_refl.
Qed.

Lemma more_fuel_skip n : forall m r, (n <= m)%nat ->
  more_fuel (Reader_skip_fuel n r) (Reader_skip_fuel m r).
Proof.
  induction n as [| n IH]; intros m r Hm.
  { intros s Hs. exfalso. apply Hs. reflexivity. }
  destruct m as [| m]; [lia |]. cbn [Reader_skip_fuel].
  apply more_fuel_bind; [apply more_fuel_refl |].
  assert (Hcb : forall val,
            more_fuel (r' <- Reader_copy val ;; Reader_skip_fuel n r')
                      (r' <- Reader_copy val ;; Reader_skip_fuel m r')).
  { intros val. apply more_fuel_bind; [apply more_fuel_refl |].
    intros r'. apply IH. lia. }
  intros [| | | | | | | | |]; try apply more_fuel_refl.
  - unfold Reader_readArray. apply more_fuel_getArray. intros arr a.
    apply more_fuel_ArrayReader_all; [intros val _; apply Hcb | lia].
  - unfold Reader_readObject. apply more_fuel_getObject. intros obj a.
    apply more_fuel_ObjectReader_all; [intros _ val _; apply Hcb | lia].
Qed.

(** Any fuel above the number of unread bytes gives the result of
    [Reader_skip]. *)
Lemma Reader_skip_fuel_enough fuel r s :
  (length (is_ s) < fuel)%nat -> Reader_skip_fuel fuel r s = Reader_skip r s.
Proof.
  intros Hf. unfold Reader_skip.
  apply (more_fuel_skip (S (length (is_ s))) fuel r ltac:(lia) s).
  apply (Reader_skip_total r s).
Qed.

(** Decoding a non-negative integer with [getInt] or with [getUInt] consumes
    the same bytes. *)
Lemma getInt_getUInt_enc num r rest st :
  0 <= num <= INT64_MAX -> st !! r = Some true ->
  exists a b,
    Reader_getInt r (mk_rstate (enc (VInt num) ++ rest) st)
    = (mk_rstate rest st, Ok a) /\
    Reader_getUInt r (mk_rstate (enc (VInt num) ++ rest) st)
    = (mk_rstate rest st, Ok b).
Proof.
  intros Hn Hr. unfold INT64_MAX in Hn. cbn [enc scalar_bytes].
  replace (num =? INT64_MIN) with false
    by (symmetry; apply Z.eqb_neq; unfold INT64_MIN; lia).
  replace (num <? 0) with false by (symmetry; apply Z.ltb_ge; lia).
  destruct (Z.leb_spec num 9) as [H9 | H10]; cbn [app].
  - rewrite uchar_small by (norm_chr; lia).
    eexists. eexists. split.
    + apply Reader_getInt_digit; [exact Hr | norm_chr; lia].
    + apply Reader_getUInt_digit; [exact Hr | norm_chr; lia].
  - eexists. eexists. split.
    + apply Reader_getInt_plus; [exact Hr | lia].
    + apply Reader_getUInt_plus; [exact Hr | lia].
Qed.

(** On the encoding of a valid value, the get or read operation that matches
    the value's type does what the generic decoder does. *)
Lemma get_matching_getValue v n r rest st :
  valid v -> st !! r = Some true ->
  let s := mk_rstate (enc v ++ rest) st in
  fst (get_matching v n r s) = fst (getValue (S n) r s) /\
  shape (snd (get_matching v n r s)) = shape (snd (getValue (S n) r s)).
Proof.
  intros Hv Hr s. subst s. cbn [getValue].
  rewrite (bind_ok _ _ _ _ _ (Reader_getType_enc v r rest st Hv Hr)).
  destruct v; cbn [type_of_value get_matching]; try (split; reflexivity).
  destruct (Z.ltb_spec num 0) as [Hneg | Hpos]; [split; reflexivity |].
  cbn [valid] in Hv.
  destruct (getInt_getUInt_enc num r rest st ltac:(lia) Hr) as (a & b & Ha & Hb).
  rewrite (bind_ok _ _ _ _ _ Ha), (bind_ok _ _ _ _ _ Hb). split; reflexivity.
Qed.

(** For every valid value, of any type and nesting, followed by any bytes,
    [skip] and the get or read operation that matches the value end in the
    same state, so with the cursor at the same position, and with the same
    kind of outcome; and [skip] always ends.  This also holds when a key
    begins with ['}'], where both stop early. *)
Lemma skip_get_matching_same_state (v : Value) (rest : list Z) (r : Reader)
    (st : store) :
  valid v -> st !! r = Some true ->
  let s := mk_rstate (encode v ++ rest) st in
  let decode := get_matching v (length (is_ s)) r in
  fst (decode s) = fst (Reader_skip r s) /\
  shape (snd (decode s)) = shape (snd (Reader_skip r s)) /\
  snd (Reader_skip r s) <> OutOfFuel.
Proof.
  intros Hv Hr s decode.
  split; [| split; [| apply Reader_skip_total]].
  - unfold Reader_skip.
    destruct (sim_getValue_skip (S (length (is_ s))) r s) as [H1 _].
    rewrite <- H1. subst decode s. rewrite encode_enc.
    apply get_matching_getValue; assumption.
  - unfold Reader_skip.
    destruct (sim_getValue_skip (S (length (is_ s))) r s) as [_ H2].
    rewrite <- H2. subst decode s. rewrite encode_enc.
    apply get_matching_getValue; assumption.
Qed.

(** An object key may begin with ['}'].  The writer writes it as any other
    key; [skip] and the decoder then both take that byte for the terminator
    and stop there, at the same position. *)
Example key_with_closing_brace :
  let input := encode (VObject [([chr "}"], VNull)]) in
  input = [chr "{"; chr "}"; 0; chr "N"; chr "}"] /\
  Reader_skip 0%nat (rstate0 input)
  = (mk_rstate [0; chr "N"; chr "}"] [true], Ok tt) /\
  get_matching (VObject [([chr "}"], VNull)]) (length input) 0%nat (rstate0 input)
  = (mk_rstate [0; chr "N"; chr "}"] [true], Ok (VObject [])).
Proof. repeat split. Qed.

(** C4, as stated, fails on the code.  The object with the one key ["}"]
    and the value null is written as the five bytes ['{' '}' 00 'N' '}'].
    [skip] takes the key's first byte for the terminator: it returns
    normally after two bytes, with three left unread.  A client that decodes
    the object with [getObject], [ObjectReader::next] and [getNil] reads the
    key ["}"] and the null and consumes all five bytes. *)
Lemma skip_equivalence_counterexample :
  valid (VObject [([chr "}"], VNull)]) /\
  encode (VObject [([chr "}"], VNull)]) = [chr "{"; chr "}"; 0; chr "N"; chr "}"] /\
  Reader_skip 0%nat (rstate0 (encode (VObject [([chr "}"], VNull)])))
  = (mk_rstate [0; chr "N"; chr "}"] [true], Ok tt) /\
  Reader_getObject 0%nat
    (fun obj _ =>
       kv <- ObjectReader_next obj ;; Reader_getNil (snd kv) ;; ret (fst kv))
    [] (rstate0 (encode (VObject [([chr "}"], VNull)])))
  = (mk_rstate [] [true; true], Ok [chr "}"]).
Proof.
  split.
  { cbn [valid fold_right fst snd]. repeat split.
    apply Forall_cons. split; [discriminate | apply Forall_nil; exact I]. }
  repeat split.
Qed.

(** * Further properties of the code *)

(** ** Varints *)

Lemma LEB128_bytes_length num :
  (1 <= length (LEB128_bytes num) <= 10)%nat.
Proof.
  destruct (needs_groups_exists (uint64 num) (uint64_range num)) as [k Hg].
  rewrite (LEB128_bytes_groups num k Hg), leb_groups_length.
  pose proof (needs_groups_le_10 (uint64 num) k (proj2 (uint64_range num)) Hg).
  destruct Hg as (Hk & _). lia.
Qed.

(** X1: [nextLEB128] inverts [writeLEB128] on every [uint64_t]: the encoder
    appends between 1 and 10 bytes, and the decoder, given those bytes
    followed by anything, returns the number and stops right after them. *)
Theorem varint_roundtrip (num : Z) (s : wstate) (rest : list Z) (st : store) :
  0 <= num < 2 ^ 64 ->
  exists bs,
    Writer_writeLEB128 num s = (mk_wstate (os_ s ++ bs) (wready_ s), Ok tt) /\
    (1 <= length bs <= 10)%nat /\
    Reader_nextLEB128 (mk_rstate (bs ++ rest) st) = (mk_rstate rest st, Ok num).
Proof.
  intros Hn. exists (LEB128_bytes num).
  split; [apply Writer_writeLEB128_run |].
  split; [apply LEB128_bytes_length |].
  apply Reader_nextLEB128_bytes. exact Hn.
Qed.

Lemma varint_roundtrip_witness :
  0 <= 300 < 2 ^ 64 /\
  exists bs,
    Writer_writeLEB128 300 wstate0 = (mk_wstate ([] ++ bs) [true], Ok tt) /\
    (1 <= length bs <= 10)%nat /\
    Reader_nextLEB128 (mk_rstate (bs ++ [7]) [true]) = (mk_rstate [7] [true], Ok 300).
Proof.
  assert (Hn : 0 <= 300 < 2 ^ 64) by lia.
  split; [exact Hn |].
  exact (varint_roundtrip 300 wstate0 [7] [true] Hn).
Defined.

(** Bytes with the continuation bit set keep the decoder's loop going. *)
Lemma nextLEB128_loop_continues pre : forall tail num shift,
  Forall (fun b => 128 <= uchar b) pre ->
  0 <= shift -> shift + 7 * Z.of_nat (length pre) <= 70 ->
  exists num',
    nextLEB128_loop (pre ++ tail) num shift
    = nextLEB128_loop tail num' (shift + 7 * Z.of_nat (length pre)) /\
    (Forall (fun b => uchar b = 128) pre -> num' = num).
Proof.
  induction pre as [| b pre IH]; intros tail num shift Hc Hs Hlen.
  - exists num. cbn [app length]. rewrite Z.add_0_r. split; [reflexivity | trivial].
  - apply Forall_cons in Hc as [Hb Hc]. cbn [length] in Hlen.
    cbn [app nextLEB128_loop].
    replace (64 <=? shift) with false by (symmetry; apply Z.leb_gt; lia).
    replace (128 <=? uchar b) with true by (symmetry; apply Z.leb_le; exact Hb).
    rewrite (uint64_small (shift + 7)) by lia.
    destruct (IH tail (Z.lor num (uint64 (Z.shiftl (Z.land (uchar b) 127) shift)))
                (shift + 7) Hc ltac:(lia) ltac:(lia)) as (num' & Hrun & Hsame).
    exists num'. rewrite Hrun. split.
    + f_equal. cbn [length]. lia.
    + intros Hz. apply Forall_cons in Hz as [Hb0 Hz]. rewrite (Hsame Hz), Hb0.
      change (Z.land 128 127) with 0. rewrite Z.shiftl_0_l.
      change (uint64 0) with 0. apply Z.lor_0_r.
Qed.

(** X2: the varint decoder checks neither the length nor the form of what
    it reads.  Zero can be padded: up to nine bytes [0x80] followed by
    [0x00] decode to 0, like the single byte [0x00].  After ten bytes with
    the continuation bit set, an eleventh byte is shifted by 70 bits, which
    C++ leaves undefined.  Continuation bytes that run into the end of the
    input are a [ParseError]. *)
Theorem varint_decoder_unchecked (pre rest : list Z) (c : Z) (st : store) :
  Forall (fun b => 128 <= uchar b) pre ->
  ((length pre <= 9)%nat -> Forall (fun b => uchar b = 128) pre ->
   Reader_nextLEB128 (mk_rstate (pre ++ 0 :: rest) st)
   = (mk_rstate rest st, Ok 0)) /\
  (length pre = 10%nat ->
   Reader_nextLEB128 (mk_rstate (pre ++ c :: rest) st)
   = (mk_rstate rest st, Undefined)) /\
  ((length pre <= 10)%nat ->
   Reader_nextLEB128 (mk_rstate pre st)
   = (mk_rstate [] st, Throw (ParseError "Unexpected EOF"))).
Proof.
  intros Hc. unfold Reader_nextLEB128, on_input. cbn [is_ rready_].
  split; [| split].
  - intros Hlen Hz.
    destruct (nextLEB128_loop_continues pre (0 :: rest) 0 0 Hc ltac:(lia) ltac:(lia))
      as (num' & Hrun & Hsame).
    rewrite Hrun, (Hsame Hz). cbn [nextLEB128_loop].
    replace (64 <=? 0 + 7 * Z.of_nat (length pre)) with false
      by (symmetry; apply Z.leb_gt; lia).
    change (uchar 0) with 0. change (Z.land 0 127) with 0.
    rewrite Z.shiftl_0_l. reflexivity.
  - intros Hlen.
    destruct (nextLEB128_loop_continues pre (c :: rest) 0 0 Hc ltac:(lia) ltac:(lia))
      as (num' & Hrun & _).
    rewrite Hrun, Hlen. reflexivity.
  - intros Hlen.
    destruct (nextLEB128_loop_continues pre [] 0 0 Hc ltac:(lia) ltac:(lia))
      as (num' & Hrun & _).
    rewrite app_nil_r in Hrun. rewrite Hrun. reflexivity.
Qed.

Lemma varint_decoder_unchecked_witness :
  Forall (fun b => 128 <= uchar b) (repeat 128 10) /\
  Reader_nextLEB128 (mk_rstate (repeat 128 10 ++ 0 :: [chr "T"]) [true])
  = (mk_rstate [chr "T"] [true], Undefined) /\
  Forall (fun b => 128 <= uchar b) [128; 128] /\
  Reader_nextLEB128 (mk_rstate ([128; 128] ++ 0 :: [chr "T"]) [true])
  = (mk_rstate [chr "T"] [true], Ok 0).
Proof.
  assert (H10 : Forall (fun b => 128 <= uchar b) (repeat 128 10)).
  { cbn [repeat]. repeat constructor; vm_compute; discriminate. }
  assert (H2 : Forall (fun b => 128 <= uchar b) [128; 128]).
  { repeat constructor; vm_compute; discriminate. }
  split; [exact H10 |]. split.
  - exact (proj1 (proj2 (varint_decoder_unchecked _ [chr "T"] 0 [true] H10)) eq_refl).
  - split; [exact H2 |].
    apply (proj1 (varint_decoder_unchecked _ [chr "T"] 0 [true] H2)).
    + cbn. lia.
    + repeat constructor.
Defined.

(** ** Scalars written and read back *)

Lemma Reader_getUInt_minus r tail st :
  st !! r = Some true ->
  Reader_getUInt r (mk_rstate (chr "-" :: tail) st)
  = (mk_rstate tail st, Throw (ParseError "getInt: Expected '0'-'9' or '+'")).
Proof.
  intros Hr. unfold Reader_getUInt.
  rewrite (bind_ok _ _ _ _ _ (Reader_ready_mk r _ st Hr)).
  rewrite (bind_ok _ _ _ _ _ (Reader_next_cons _ _ st)).
  reflexivity.
Qed.

(** X3: [getInt] inverts [writeInt] on every [int64_t].  The bytes of a
    non-negative number are also read by [getUInt], with the same result;
    on the bytes of a negative number [getUInt] consumes the ['-'] tag and
    throws a [ParseError]. *)
Theorem int_roundtrip (w : Writer) (s : wstate) (r : Reader) (st : store)
    (rest : list Z) (n : Z) :
  wready_ s !! w = Some true -> st !! r = Some true ->
  INT64_MIN <= n <= INT64_MAX ->
  exists bs,
    Writer_writeInt w n s = (mk_wstate (os_ s ++ bs) (wready_ s), Ok tt) /\
    Reader_getInt r (mk_rstate (bs ++ rest) st) = (mk_rstate rest st, Ok n) /\
    (0 <= n ->
     Reader_getUInt r (mk_rstate (bs ++ rest) st) = (mk_rstate rest st, Ok n)) /\
    (n < 0 ->
     exists tail, bs = chr "-" :: tail /\
       Reader_getUInt r (mk_rstate (bs ++ rest) st)
       = (mk_rstate (tail ++ rest) st,
          Throw (ParseError "getInt: Expected '0'-'9' or '+'"))).
Proof.
  intros Hw Hr Hn. unfold INT64_MIN, INT64_MAX in Hn.
  exists (scalar_bytes (SWInt n)).
  split; [apply (scalar_write_emits (SWInt n) w s Hw) |].
  cbn [scalar_bytes]. unfold INT64_MIN.
  destruct (Z.eqb_spec n (- 2 ^ 63)) as [-> | Hne].
  { cbn [app]. split; [| split; [lia |]].
    - apply Reader_getInt_minus; [exact Hr | lia].
    - intros _. eexists. split; [reflexivity |].
      apply Reader_getUInt_minus. exact Hr. }
  destruct (Z.ltb_spec n 0) as [Hneg | Hpos].
  { cbn [app]. rewrite int64_small by lia. split; [| split; [lia |]].
    - rewrite (Reader_getInt_minus r (- n) rest st Hr) by lia.
      rewrite int64_uint64, Z.opp_involutive, int64_small by lia. reflexivity.
    - intros _. eexists. split; [reflexivity |].
      apply Reader_getUInt_minus. exact Hr. }
  destruct (Z.leb_spec n 9) as [H9 | H10]; cbn [app].
  - rewrite uchar_small by (norm_chr; lia).
    split; [| split; [| lia]].
    + rewrite Reader_getInt_digit by (exact Hr || (norm_chr; lia)).
      norm_chr. rewrite int64_small by lia. do 2 f_equal. lia.
    + intros _. rewrite Reader_getUInt_digit by (exact Hr || (norm_chr; lia)).
      norm_chr. rewrite uint64_small by lia. do 2 f_equal. lia.
  - split; [| split; [| lia]].
    + rewrite Reader_getInt_plus by (exact Hr || lia).
      rewrite int64_small by lia. reflexivity.
    + intros _. apply Reader_getUInt_plus; [exact Hr | lia].
Qed.

Lemma int_roundtrip_witness :
  wready_ wstate0 !! 0%nat = Some true /\ [true] !! 0%nat = Some true /\
  INT64_MIN <= -300 <= INT64_MAX /\
  exists bs,
    Writer_writeInt 0%nat (-300) wstate0 = (mk_wstate ([] ++ bs) [true], Ok tt) /\
    Reader_getInt 0%nat (mk_rstate (bs ++ []) [true]) = (mk_rstate [] [true], Ok (-300)).
Proof.
  assert (Hw : wready_ wstate0 !! 0%nat = Some true) by reflexivity.
  assert (Hr : [true] !! 0%nat = Some true) by reflexivity.
  assert (Hn : INT64_MIN <= -300 <= INT64_MAX) by (unfold INT64_MIN, INT64_MAX; lia).
  split; [exact Hw |]. split; [exact Hr |]. split; [exact Hn |].
  destruct (int_roundtrip 0%nat wstate0 0%nat [true] [] (-300) Hw Hr Hn)
    as (bs & H1 & H2 & _).
  exists bs. split; assumption.
Defined.

(** X4: [getUInt] inverts [writeUInt] on every [uint64_t], and [getInt]
    reads the same bytes to the same number as long as it fits an
    [int64_t]. *)
Theorem uint_roundtrip (w : Writer) (s : wstate) (r : Reader) (st : store)
    (rest : list Z) (n : Z) :
  wready_ s !! w = Some true -> st !! r = Some true ->
  0 <= n < 2 ^ 64 ->
  exists bs,
    Writer_writeUInt w n s = (mk_wstate (os_ s ++ bs) (wready_ s), Ok tt) /\
    Reader_getUInt r (mk_rstate (bs ++ rest) st) = (mk_rstate rest st, Ok n) /\
    (n <= INT64_MAX ->
     Reader_getInt r (mk_rstate (bs ++ rest) st) = (mk_rstate rest st, Ok n)).
Proof.
  intros Hw Hr Hn. unfold INT64_MAX.
  exists (scalar_bytes (SWUInt n)).
  split; [apply (scalar_write_emits (SWUInt n) w s Hw) |].
  cbn [scalar_bytes].
  destruct (Z.leb_spec n 9) as [H9 | H10]; cbn [app].
  - rewrite uchar_small by (norm_chr; lia). split.
    + rewrite Reader_getUInt_digit by (exact Hr || (norm_chr; lia)).
      norm_chr. rewrite uint64_small by lia. do 2 f_equal. lia.
    + intros _. rewrite Reader_getInt_digit by (exact Hr || (norm_chr; lia)).
      norm_chr. rewrite int64_small by lia. do 2 f_equal. lia.
  - split.
    + apply Reader_getUInt_plus; [exact Hr | lia].
    + intros Hmax. rewrite Reader_getInt_plus by (exact Hr || lia).
      rewrite int64_small by lia. reflexivity.
Qed.

Lemma uint_roundtrip_witness :
  wready_ wstate0 !! 0%nat = Some true /\ [true] !! 0%nat = Some true /\
  0 <= 2 ^ 64 - 1 < 2 ^ 64 /\
  exists bs,
    Writer_writeUInt 0%nat (2 ^ 64 - 1) wstate0
    = (mk_wstate ([] ++ bs) [true], Ok tt) /\
    Reader_getUInt 0%nat (mk_rstate (bs ++ []) [true])
    = (mk_rstate [] [true], Ok (2 ^ 64 - 1)).
Proof.
  assert (Hw : wready_ wstate0 !! 0%nat = Some true) by reflexivity.
  assert (Hr : [true] !! 0%nat = Some true) by reflexivity.
  assert (Hn : 0 <= 2 ^ 64 - 1 < 2 ^ 64) by lia.
  split; [exact Hw |]. split; [exact Hr |]. split; [exact Hn |].
  destruct (uint_roundtrip 0%nat wstate0 0%nat [true] [] (2 ^ 64 - 1) Hw Hr Hn)
    as (bs & H1 & H2 & _).
  exists bs. split; assumption.
Defined.

(** X5: [getBool] inverts [writeBool] (and [writeTrue], [writeFalse]), and
    [getNil] accepts what [writeNull] wrote; each is one byte. *)
Theorem bool_null_roundtrip (w : Writer) (s : wstate) (r : Reader) (st : store)
    (rest : list Z) (b : bool) :
  wready_ s !! w = Some true -> st !! r = Some true ->
  (exists tag,
     Writer_writeBool w b s = (mk_wstate (os_ s ++ [tag]) (wready_ s), Ok tt) /\
     (if b then Writer_writeTrue w s else Writer_writeFalse w s)
     = Writer_writeBool w b s /\
     Reader_getBool r (mk_rstate (tag :: rest) st) = (mk_rstate rest st, Ok b)) /\
  (exists tag,
     Writer_writeNull w s = (mk_wstate (os_ s ++ [tag]) (wready_ s), Ok tt) /\
     Reader_getNil r (mk_rstate (tag :: rest) st) = (mk_rstate rest st, Ok tt)).
Proof.
  intros Hw Hr.
  assert (Hc := Reader_ready_mk r).
  split.
  - exists (if b then chr "T" else chr "F").
    split; [apply (scalar_write_emits (SWBool b) w s Hw) |]. split.
    + unfold Writer_writeBool.
      rewrite (bind_ok _ _ _ _ _ (Writer_checkReady_ok w s Hw)).
      destruct b; reflexivity.
    + unfold Reader_getBool. rewrite (bind_ok _ _ _ _ _ (Hc _ st Hr)).
      destruct b; reflexivity.
  - exists (chr "N").
    split; [apply (scalar_write_emits SWNull w s Hw) |].
    unfold Reader_getNil. rewrite (bind_ok _ _ _ _ _ (Hc _ st Hr)). reflexivity.
Qed.

Lemma bool_null_roundtrip_witness :
  wready_ wstate0 !! 0%nat = Some true /\ [true] !! 0%nat = Some true /\
  exists tag,
    Writer_writeBool 0%nat true wstate0 = (mk_wstate ([] ++ [tag]) [true], Ok tt) /\
    Reader_getBool 0%nat (mk_rstate (tag :: []) [true]) = (mk_rstate [] [true], Ok true).
Proof.
  assert (Hw : wready_ wstate0 !! 0%nat = Some true) by reflexivity.
  assert (Hr : [true] !! 0%nat = Some true) by reflexivity.
  split; [exact Hw |]. split; [exact Hr |].
  destruct (proj1 (bool_null_roundtrip 0%nat wstate0 0%nat [true] [] true Hw Hr))
    as (tag & H1 & _ & H2).
  exists tag. split; assumption.
Defined.

Lemma getString_loop_run str rest : forall acc,
  Forall (fun c => uchar c <> 0) str ->
  getString_loop (map uchar str ++ 0 :: rest) acc
  = (rest, Ok (acc ++ map uchar str)).
Proof.
  induction str as [| c str IH]; intros acc Hs; cbn [map app getString_loop].
  - rewrite app_nil_r. reflexivity.
  - apply Forall_cons in Hs as [Hc Hs].
    rewrite uchar_idem. apply Z.eqb_neq in Hc. rewrite Hc. cbn [negb].
    rewrite IH by exact Hs. rewrite <- app_assoc. reflexivity.
Qed.

Lemma map_uchar_id bs : Forall (fun c => 0 <= c < 256) bs -> map uchar bs = bs.
Proof.
  induction 1 as [| c bs Hc _ IH]; cbn [map]; [reflexivity |].
  rewrite (uchar_small c Hc), IH. reflexivity.
Qed.

(** X6: [getString] inverts [writeString] on every C string (bytes other
    than NUL), the empty one included; the encoding is the tag, the bytes
    and one NUL. *)
Theorem string_roundtrip (w : Writer) (s : wstate) (r : Reader) (st : store)
    (rest : list Z) (str : list Z) :
  wready_ s !! w = Some true -> st !! r = Some true ->
  Forall (fun c => 0 < c < 256) str ->
  Writer_writeString w str s
  = (mk_wstate (os_ s ++ chr "S" :: str ++ [0]) (wready_ s), Ok tt) /\
  Reader_getString r (mk_rstate ((chr "S" :: str ++ [0]) ++ rest) st)
  = (mk_rstate rest st, Ok str).
Proof.
  intros Hw Hr Hs.
  assert (Hnz : Forall (fun c => uchar c <> 0) str).
  { eapply Forall_impl; [exact Hs |]. cbn. intros c Hc.
    rewrite uchar_small by lia. lia. }
  assert (Hid : map uchar str = str).
  { apply map_uchar_id. eapply Forall_impl; [exact Hs |]. cbn. intros c Hc. lia. }
  split.
  - pose proof (scalar_write_emits (SWString str) w s Hw) as He.
    cbn [run_scalar_write scalar_bytes] in He.
    rewrite He, (c_str_id str Hnz), Hid. reflexivity.
  - unfold Reader_getString.
    rewrite (bind_ok _ _ _ _ _ (Reader_ready_mk r _ st Hr)).
    unfold bind, is_get, on_input. cbn [app is_ rready_].
    change (negb (uchar (chr "S") =? chr "S")) with false. cbv iota.
    cbn [is_ rready_]. rewrite <- app_assoc. cbn [app].
    rewrite <- Hid at 1. rewrite (getString_loop_run str rest [] Hnz), Hid.
    reflexivity.
Qed.

Lemma string_roundtrip_witness :
  wready_ wstate0 !! 0%nat = Some true /\ [true] !! 0%nat = Some true /\
  Forall (fun c => 0 < c < 256) [chr "h"; chr "i"] /\
  Reader_getString 0%nat
    (mk_rstate ((chr "S" :: [chr "h"; chr "i"] ++ [0]) ++ [chr "T"]) [true])
  = (mk_rstate [chr "T"] [true], Ok [chr "h"; chr "i"]).
Proof.
  assert (Hw : wready_ wstate0 !! 0%nat = Some true) by reflexivity.
  assert (Hr : [true] !! 0%nat = Some true) by reflexivity.
  assert (Hs : Forall (fun c => 0 < c < 256) [chr "h"; chr "i"]).
  { repeat constructor; vm_compute; reflexivity. }
  split; [exact Hw |]. split; [exact Hr |]. split; [exact Hs |].
  exact (proj2 (string_roundtrip 0%nat wstate0 0%nat [true] [chr "T"] _ Hw Hr Hs)).
Defined.

Lemma getBinary_loop_run data rest : forall bin,
  getBinary_loop (data ++ rest) (Z.of_nat (length bin + length data)) bin
  = (rest, Ok (bin ++ map uchar data)).
Proof.
  induction data as [| c data IH]; intros bin; cbn [app length map].
  - rewrite Nat.add_0_r, app_nil_r.
    destruct rest; cbn [getBinary_loop]; rewrite Z.ltb_irrefl; reflexivity.
  - cbn [getBinary_loop].
    replace (Z.of_nat (length bin) <? Z.of_nat (length bin + S (length data)))
      with true by (symmetry; apply Z.ltb_lt; lia).
    specialize (IH (bin ++ [uchar c])).
    rewrite length_app in IH. cbn [length] in IH.
    replace (length bin + S (length data))%nat
      with (length bin + 1 + length data)%nat by lia.
    rewrite IH, <- app_assoc. reflexivity.
Qed.

(** X7: [getBinary] inverts [writeBinary] on every byte sequence, NUL bytes
    and the empty sequence included; the encoding is the tag, the varint of
    the length and the bytes. *)
Theorem binary_roundtrip (w : Writer) (s : wstate) (r : Reader) (st : store)
    (rest : list Z) (data : list Z) :
  wready_ s !! w = Some true -> st !! r = Some true ->
  Forall (fun c => 0 <= c < 256) data -> Z.of_nat (length data) < 2 ^ 64 ->
  Writer_writeBinary w data s
  = (mk_wstate
       (os_ s ++ chr "B" :: LEB128_bytes (Z.of_nat (length data)) ++ data)
       (wready_ s), Ok tt) /\
  Reader_getBinary r
    (mk_rstate
       ((chr "B" :: LEB128_bytes (Z.of_nat (length data)) ++ data) ++ rest) st)
  = (mk_rstate rest st, Ok data).
Proof.
  intros Hw Hr Hd Hlen.
  assert (Hid : map uchar data = data) by (apply map_uchar_id; exact Hd).
  split.
  - pose proof (scalar_write_emits (SWBinary data) w s Hw) as He.
    cbn [run_scalar_write scalar_bytes] in He.
    rewrite He, Hid. reflexivity.
  - unfold Reader_getBinary.
    rewrite (bind_ok _ _ _ _ _ (Reader_ready_mk r _ st Hr)).
    unfold bind at 1. unfold is_get. cbn [app is_ rready_].
    change (negb (uchar (chr "B") =? chr "B")) with false. cbv iota.
    rewrite <- app_assoc.
    assert (Hl : 0 <= Z.of_nat (length data) < 2 ^ 64) by lia.
    rewrite (bind_ok _ _ _ _ _ (Reader_nextLEB128_bytes _ _ st Hl)).
    unfold on_input. cbn [is_ rready_]. rewrite uint64_small by exact Hl.
    pose proof (getBinary_loop_run data rest []) as Hrun.
    cbn [length app] in Hrun. rewrite Nat.add_0_l in Hrun.
    rewrite Hrun, Hid. reflexivity.
Qed.

Lemma binary_roundtrip_witness :
  wready_ wstate0 !! 0%nat = Some true /\ [true] !! 0%nat = Some true /\
  Forall (fun c => 0 <= c < 256) [0; 255; 0] /\
  Z.of_nat (length [0; 255; 0]) < 2 ^ 64 /\
  Reader_getBinary 0%nat
    (mk_rstate ((chr "B" :: LEB128_bytes 3 ++ [0; 255; 0]) ++ []) [true])
  = (mk_rstate [] [true], Ok [0; 255; 0]).
Proof.
  assert (Hw : wready_ wstate0 !! 0%nat = Some true) by reflexivity.
  assert (Hr : [true] !! 0%nat = Some true) by reflexivity.
  assert (Hd : Forall (fun c => 0 <= c < 256) [0; 255; 0]).
  { repeat constructor; lia. }
  assert (Hl : Z.of_nat (length [0; 255; 0]) < 2 ^ 64) by (cbn; lia).
  split; [exact Hw |]. split; [exact Hr |]. split; [exact Hd |].
  split; [exact Hl |].
  exact (proj2 (binary_roundtrip 0%nat wstate0 0%nat [true] [] _ Hw Hr Hd Hl)).
Defined.

(** ** Truncated payloads *)

Lemma getString_loop_eof str : forall acc,
  Forall (fun c => uchar c <> 0) str ->
  getString_loop str acc = ([], Throw (ParseError "Unexpected EOF")).
Proof.
  induction str as [| c str IH]; intros acc Hs; cbn [getString_loop].
  - reflexivity.
  - apply Forall_cons in Hs as [Hc Hs]. apply Z.eqb_neq in Hc. rewrite Hc.
    apply IH. exact Hs.
Qed.

Lemma skipString_loop_eof str :
  Forall (fun c => uchar c <> 0) str ->
  skipString_loop str = ([], Throw (ParseError "Unexpected EOF")).
Proof.
  induction 1 as [| c str Hc _ IH]; cbn [skipString_loop]; [reflexivity |].
  apply Z.eqb_neq in Hc. rewrite Hc. exact IH.
Qed.

Lemma getBinary_loop_eof data : forall size bin,
  Z.of_nat (length bin + length data) < size ->
  getBinary_loop data size bin = ([], Throw (ParseError "Unexpected EOF")).
Proof.
  induction data as [| c data IH]; intros size bin Hs; cbn [getBinary_loop length] in *.
  - replace (Z.of_nat (length bin) <? size) with true
      by (symmetry; apply Z.ltb_lt; lia).
    reflexivity.
  - replace (Z.of_nat (length bin) <? size) with true
      by (symmetry; apply Z.ltb_lt; lia).
    apply IH. rewrite length_app. cbn [length]. lia.
Qed.

Lemma skipBinary_loop_eof data : forall size,
  Z.of_nat (length data) < size ->
  skipBinary_loop data size = ([], Throw (ParseError "Unexpected EOF")).
Proof.
  induction data as [| c data IH]; intros size Hs; cbn [skipBinary_loop length] in *.
  - replace (0 <? size) with true by (symmetry; apply Z.ltb_lt; lia).
    reflexivity.
  - replace (0 <? size) with true by (symmetry; apply Z.ltb_lt; lia).
    apply IH. lia.
Qed.

(** X8: a payload cut short by the end of the input is a [ParseError], and
    the reader has consumed everything by then: a string with no NUL, a
    binary shorter than its declared length, a float with fewer than 4 or a
    double with fewer than 8 payload bytes. *)
Theorem truncated_payload (r : Reader) (st : store) :
  st !! r = Some true ->
  (forall str, Forall (fun c => uchar c <> 0) str ->
     Reader_getString r (mk_rstate (chr "S" :: str) st)
     = (mk_rstate [] st, Throw (ParseError "Unexpected EOF")) /\
     Reader_skipString r (mk_rstate (chr "S" :: str) st)
     = (mk_rstate [] st, Throw (ParseError "Unexpected EOF"))) /\
  (forall size data, Z.of_nat (length data) < size < 2 ^ 64 ->
     Reader_getBinary r (mk_rstate (chr "B" :: LEB128_bytes size ++ data) st)
     = (mk_rstate [] st, Throw (ParseError "Unexpected EOF")) /\
     Reader_skipBinary r (mk_rstate (chr "B" :: LEB128_bytes size ++ data) st)
     = (mk_rstate [] st, Throw (ParseError "Unexpected EOF"))) /\
  (forall payload, (length payload < 4)%nat ->
     Reader_getFloat r (mk_rstate (chr "f" :: payload) st)
     = (mk_rstate [] st, Throw (ParseError "Unexpected EOF"))) /\
  (forall payload, (length payload < 8)%nat ->
     Reader_getDouble r (mk_rstate (chr "d" :: payload) st)
     = (mk_rstate [] st, Throw (ParseError "Unexpected EOF"))).
Proof.
  intros Hr.
  assert (Hc := fun input => Reader_ready_mk r input st Hr).
  split; [| split; [| split]].
  - intros str Hs. split.
    + unfold Reader_getString. rewrite (bind_ok _ _ _ _ _ (Hc _)).
      unfold bind, is_get, on_input. cbn [is_ rready_].
      change (negb (uchar (chr "S") =? chr "S")) with false. cbv iota.
      cbn [is_ rready_]. rewrite (getString_loop_eof str [] Hs). reflexivity.
    + unfold Reader_skipString. rewrite (bind_ok _ _ _ _ _ (Hc _)).
      unfold bind, is_get, on_input. cbn [is_ rready_].
      change (negb (uchar (chr "S") =? chr "S")) with false. cbv iota.
      cbn [is_ rready_]. rewrite (skipString_loop_eof str Hs). reflexivity.
  - intros size data Hs.
    assert (Hl : 0 <= size < 2 ^ 64) by lia.
    split.
    + unfold Reader_getBinary. rewrite (bind_ok _ _ _ _ _ (Hc _)).
      unfold bind at 1. unfold is_get. cbn [is_ rready_].
      change (negb (uchar (chr "B") =? chr "B")) with false. cbv iota.
      rewrite (bind_ok _ _ _ _ _ (Reader_nextLEB128_bytes _ _ st Hl)).
      unfold on_input. cbn [is_ rready_]. rewrite uint64_small by exact Hl.
      rewrite getBinary_loop_eof by (cbn [length]; lia). reflexivity.
    + unfold Reader_skipBinary. rewrite (bind_ok _ _ _ _ _ (Hc _)).
      unfold bind at 1. unfold is_get. cbn [is_ rready_].
      change (negb (uchar (chr "B") =? chr "B")) with false. cbv iota.
      rewrite (bind_ok _ _ _ _ _ (Reader_nextLEB128_bytes _ _ st Hl)).
      unfold on_input. cbn [is_ rready_]. rewrite uint64_small by exact Hl.
      rewrite skipBinary_loop_eof by lia. reflexivity.
  - intros payload Hlen. unfold Reader_getFloat.
    rewrite (bind_ok _ _ _ _ _ (Hc _)).
    unfold bind at 1. unfold is_get. cbn [is_ rready_].
    change (negb (uchar (chr "f") =? chr "f")) with false. cbv iota.
    destruct payload as [| b0 [| b1 [| b2 [| b3 ?]]]];
      cbn [length] in Hlen; try lia;
      repeat rewrite (bind_ok _ _ _ _ _ (Reader_next_cons _ _ st));
      reflexivity.
  - intros payload Hlen. unfold Reader_getDouble.
    rewrite (bind_ok _ _ _ _ _ (Hc _)).
    unfold bind at 1. unfold is_get. cbn [is_ rready_].
    change (negb (uchar (chr "d") =? chr "d")) with false. cbv iota.
    destruct payload as [| b0 [| b1 [| b2 [| b3 [| b4 [| b5 [| b6 [| b7 ?]]]]]]]];
      cbn [length] in Hlen; try lia;
      repeat rewrite (bind_ok _ _ _ _ _ (Reader_next_cons _ _ st));
      reflexivity.
Qed.

Lemma truncated_payload_witness :
  [true] !! 0%nat = Some true /\
  Reader_getBinary 0%nat (mk_rstate (chr "B" :: LEB128_bytes 5 ++ [1; 2]) [true])
  = (mk_rstate [] [true], Throw (ParseError "Unexpected EOF")) /\
  Reader_getString 0%nat (mk_rstate (chr "S" :: [chr "a"]) [true])
  = (mk_rstate [] [true], Throw (ParseError "Unexpected EOF")).
Proof.
  assert (Hr : [true] !! 0%nat = Some true) by reflexivity.
  destruct (truncated_payload 0%nat [true] Hr) as (Hs & Hb & _).
  split; [exact Hr |]. split.
  - apply (proj1 (Hb 5 [1; 2] ltac:(cbn; lia))).
  - apply (proj1 (Hs [chr "a"] ltac:(repeat constructor; vm_compute; discriminate))).
Defined.

(** ** Type dispatch *)

(** X9: [getType] never consumes anything.  On a byte that starts a value
    it returns a type; on any other byte, the terminators [']'] and ['}']
    among them, it throws the [ParseError] "Unexpected character"; at the
    end of the input it throws "Unexpected EOF". *)
Theorem getType_classifies (r : Reader) (st : store) (b : Z) (rest : list Z) :
  st !! r = Some true -> 0 <= b < 256 ->
  fst (Reader_getType r (mk_rstate (b :: rest) st)) = mk_rstate (b :: rest) st /\
  ((exists t, snd (Reader_getType r (mk_rstate (b :: rest) st)) = Ok t)
   <-> value_tag b) /\
  (~ value_tag b ->
   snd (Reader_getType r (mk_rstate (b :: rest) st))
   = Throw (ParseError "Unexpected character")) /\
  ~ value_tag (chr "]") /\ ~ value_tag (chr "}") /\
  Reader_getType r (mk_rstate [] st)
  = (mk_rstate [] st, Throw (ParseError "Unexpected EOF")).
Proof.
  intros Hr Hb.
  assert (Hterm : ~ value_tag (chr "]") /\ ~ value_tag (chr "}")).
  { unfold value_tag. norm_chr. cbn [In]. lia. }
  assert (Heof : Reader_getType r (mk_rstate [] st)
                 = (mk_rstate [] st, Throw (ParseError "Unexpected EOF"))).
  { unfold Reader_getType.
    rewrite (bind_ok _ _ _ _ _ (Reader_ready_mk r _ st Hr)). reflexivity. }
  cut (fst (Reader_getType r (mk_rstate (b :: rest) st)) = mk_rstate (b :: rest) st /\
       ((exists t, snd (Reader_getType r (mk_rstate (b :: rest) st)) = Ok t)
        <-> value_tag b) /\
       (~ value_tag b ->
        snd (Reader_getType r (mk_rstate (b :: rest) st))
        = Throw (ParseError "Unexpected character"))).
  { intros (H1 & H2 & H3). destruct Hterm. repeat split; try assumption; apply H2. }
  unfold Reader_getType.
  rewrite (bind_ok _ _ _ _ _ (Reader_ready_mk r _ st Hr)).
  unfold bind, is_peek. cbn [is_ rready_].
  rewrite (uchar_small b Hb). unfold value_tag. norm_chr. cbn [In].
  decide_tests; cbn [orb andb fst snd ret throw];
    (split; [reflexivity |]); split;
    first
      [ split; [intros _; lia | intros _; eexists; reflexivity]
      | split; [intros [t Ht]; discriminate | intros Hvt; exfalso; lia]
      | intros Hnvt; exfalso; apply Hnvt; lia
      | intros _; reflexivity ].
Qed.

Lemma getType_classifies_witness :
  [true] !! 0%nat = Some true /\ 0 <= chr "]" < 256 /\
  Reader_getType 0%nat (mk_rstate [chr "]"] [true])
  = (mk_rstate [chr "]"] [true], Throw (ParseError "Unexpected character")).
Proof.
  assert (Hr : [true] !! 0%nat = Some true) by reflexivity.
  assert (Hb : 0 <= chr "]" < 256) by (change (chr "]") with 93; lia).
  destruct (getType_classifies 0%nat [true] (chr "]") [] Hr Hb)
    as (H1 & _ & H3 & Hn & _).
  split; [exact Hr |]. split; [exact Hb |].
  specialize (H3 Hn).
  destruct (Reader_getType 0%nat (mk_rstate [chr "]"] [true])) as [s o].
  cbn [fst snd] in *. subst. reflexivity.
Defined.

Lemma is_get_cons {A} c rest st (k : Z -> M rstate A) :
  bind is_get k (mk_rstate (c :: rest) st) = k (uchar c) (mk_rstate rest st).
Proof. reflexivity. Qed.

Lemma void_throw {A} (c : M rstate A) s s' e :
  c s = (s', Throw e) -> void c s = (s', Throw e).
Proof. intros H. apply (bind_throw _ _ _ _ _ H). Qed.

(** X10: the typed read operations do not look before they read.  When the
    next byte is not one the operation expects, it throws a [ParseError]
    and that byte is gone; [getArray] and [getObject] do so without running
    their callback or touching [ready_].  [skip], which peeks through
    [getType], leaves the input as it was. *)
Theorem wrong_tag_is_consumed (r : Reader) (st : store) (c : Z) (rest : list Z) :
  st !! r = Some true ->
  (forall op, expects op (uchar c) = false ->
     exists msg,
       run_read op r (mk_rstate (c :: rest) st)
       = (mk_rstate rest st, Throw (ParseError msg))) /\
  (forall A (func : ArrayReader -> A -> M rstate A) env,
     uchar c <> chr "[" ->
     Reader_getArray r func env (mk_rstate (c :: rest) st)
     = (mk_rstate rest st, Throw (ParseError "getArray: Expected '['"))) /\
  (forall A (func : ObjectReader -> A -> M rstate A) env,
     uchar c <> chr "{" ->
     Reader_getObject r func env (mk_rstate (c :: rest) st)
     = (mk_rstate rest st, Throw (ParseError "getObject: Expected '{'"))) /\
  (~ value_tag (uchar c) ->
   Reader_skip r (mk_rstate (c :: rest) st)
   = (mk_rstate (c :: rest) st, Throw (ParseError "Unexpected character"))).
Proof.
  intros Hr.
  assert (Hc := fun input => Reader_ready_mk r input st Hr).
  split; [| split; [| split]].
  - intros op Hexp.
    destruct op; cbn [expects] in Hexp; try discriminate; cbn [run_read];
      eexists.
    + apply void_throw. unfold Reader_getBool.
      rewrite (bind_ok _ _ _ _ _ (Hc _)), is_get_cons.
      apply orb_false_iff in Hexp as [-> ->]. reflexivity.
    + unfold Reader_getNil. rewrite (bind_ok _ _ _ _ _ (Hc _)), is_get_cons.
      rewrite Hexp. reflexivity.
    + apply void_throw. unfold Reader_getString.
      rewrite (bind_ok _ _ _ _ _ (Hc _)), is_get_cons.
      rewrite Hexp. reflexivity.
    + unfold Reader_skipString. rewrite (bind_ok _ _ _ _ _ (Hc _)), is_get_cons.
      rewrite Hexp. reflexivity.
    + apply void_throw. unfold Reader_getBinary.
      rewrite (bind_ok _ _ _ _ _ (Hc _)), is_get_cons.
      rewrite Hexp. reflexivity.
    + unfold Reader_skipBinary. rewrite (bind_ok _ _ _ _ _ (Hc _)), is_get_cons.
      rewrite Hexp. reflexivity.
    + apply void_throw. unfold Reader_getFloat.
      rewrite (bind_ok _ _ _ _ _ (Hc _)), is_get_cons.
      rewrite Hexp. reflexivity.
    + apply void_throw. unfold Reader_getDouble.
      rewrite (bind_ok _ _ _ _ _ (Hc _)), is_get_cons.
      rewrite Hexp. reflexivity.
    + apply void_throw. unfold Reader_getInt.
      rewrite (bind_ok _ _ _ _ _ (Hc _)).
      rewrite (bind_ok _ _ _ _ _ (Reader_next_cons _ _ st)).
      apply orb_false_iff in Hexp as [Hexp ->].
      apply orb_false_iff in Hexp as [-> ->]. reflexivity.
    + apply void_throw. unfold Reader_getUInt.
      rewrite (bind_ok _ _ _ _ _ (Hc _)).
      rewrite (bind_ok _ _ _ _ _ (Reader_next_cons _ _ st)).
      apply orb_false_iff in Hexp as [-> ->]. reflexivity.
  - intros A func env Hne. unfold Reader_getArray.
    rewrite (bind_ok _ _ _ _ _ (Hc _)).
    rewrite (bind_ok _ _ _ _ _ (Reader_next_cons _ _ st)).
    apply Z.eqb_neq in Hne. rewrite Hne. reflexivity.
  - intros A func env Hne. unfold Reader_getObject.
    rewrite (bind_ok _ _ _ _ _ (Hc _)).
    rewrite (bind_ok _ _ _ _ _ (Reader_next_cons _ _ st)).
    apply Z.eqb_neq in Hne. rewrite Hne. reflexivity.
  - intros Hnv. unfold Reader_skip. cbn [is_ length Reader_skip_fuel].
    apply bind_throw. unfold Reader_getType.
    rewrite (bind_ok _ _ _ _ _ (Hc _)).
    unfold bind, is_peek. cbn [is_ rready_].
    pose proof (uchar_range c) as Hb.
    unfold value_tag in Hnv. revert Hnv. norm_chr. cbn [In]. intros Hnv.
    decide_tests; try reflexivity; exfalso; apply Hnv; lia.
Qed.

Lemma wrong_tag_is_consumed_witness :
  [true] !! 0%nat = Some true /\
  expects RNil (uchar (chr "T")) = false /\
  exists msg,
    Reader_getNil 0%nat (mk_rstate [chr "T"; chr "N"] [true])
    = (mk_rstate [chr "N"] [true], Throw (ParseError msg)).
Proof.
  assert (Hr : [true] !! 0%nat = Some true) by reflexivity.
  assert (He : expects RNil (uchar (chr "T")) = false) by reflexivity.
  split; [exact Hr |]. split; [exact He |].
  exact (proj1 (wrong_tag_is_consumed 0%nat [true] (chr "T") [chr "N"] Hr) RNil He).
Defined.

(** ** The ready discipline of the reader, and what it leaves open *)

Lemma read_suspended op r s :
  rready_ s !! r = Some false -> run_read op r s = (s, Throw LogicError).
Proof.
  intros Hr.
  assert (Hc := Reader_checkReady_suspended r s Hr).
  assert (Ht : Reader_getType r s = (s, Throw LogicError))
    by (unfold Reader_getType; apply (bind_throw _ _ _ _ _ Hc)).
  destruct op; cbn [run_read];
    [ apply void_throw; exact Ht
    | apply void_throw | | apply void_throw | | apply void_throw |
    | apply void_throw | apply void_throw | apply void_throw | apply void_throw
    | unfold Reader_skip; cbn [Reader_skip_fuel];
      apply (bind_throw _ _ _ _ _ Ht) ];
    unfold Reader_getBool, Reader_getNil, Reader_getString, Reader_skipString,
      Reader_getBinary, Reader_skipBinary, Reader_getFloat, Reader_getDouble,
      Reader_getInt, Reader_getUInt;
    apply (bind_throw _ _ _ _ _ Hc).
Qed.

(** X11: the reader mirrors the writer's usage check.  Every read operation
    on a [Reader] whose [ready_] flag is down, [getType] and [skip]
    included, throws [LogicError] and consumes nothing, and so do
    [getArray] and [getObject]; the flag is down while the callback of a
    [getArray] or [getObject] of that reader runs, so reading the parent
    from inside the callback fails the whole call with [LogicError], with
    only the opening tag consumed. *)
Theorem suspended_read_is_usage_error (r : Reader) (st : store)
    (input : list Z) (op : read_op) :
  st !! r = Some true ->
  (forall s', rready_ s' !! r = Some false ->
     run_read op r s' = (s', Throw LogicError) /\
     (forall A (func : ArrayReader -> A -> M rstate A) env,
        Reader_getArray r func env s' = (s', Throw LogicError)) /\
     (forall A (func : ObjectReader -> A -> M rstate A) env,
        Reader_getObject r func env s' = (s', Throw LogicError))) /\
  Reader_getArray r (fun _ _ => run_read op r) tt (mk_rstate (chr "[" :: input) st)
  = (mk_rstate input (<[r := false]> st), Throw LogicError) /\
  Reader_getObject r (fun _ _ => run_read op r) tt (mk_rstate (chr "{" :: input) st)
  = (mk_rstate input (<[r := false]> st), Throw LogicError).
Proof.
  intros Hr.
  assert (Hdown : <[r := false]> st !! r = Some false).
  { apply list_lookup_insert_eq. apply lookup_lt_Some in Hr. exact Hr. }
  split; [| split].
  - intros s' Hs'. split; [apply read_suspended; exact Hs' |]. split.
    + intros A func env. unfold Reader_getArray.
      apply bind_throw, Reader_checkReady_suspended. exact Hs'.
    + intros A func env. unfold Reader_getObject.
      apply bind_throw, Reader_checkReady_suspended. exact Hs'.
  - rewrite (Reader_getArray_enter r _ tt input st Hr).
    apply bind_throw, read_suspended. exact Hdown.
  - rewrite (Reader_getObject_enter r _ tt input st Hr).
    apply bind_throw, read_suspended. exact Hdown.
Qed.

Lemma suspended_read_is_usage_error_witness :
  [true] !! 0%nat = Some true /\
  Reader_getArray 0%nat (fun _ _ => void (Reader_getBool 0%nat)) tt
    (mk_rstate [chr "["; chr "T"; chr "]"] [true])
  = (mk_rstate [chr "T"; chr "]"] [false], Throw LogicError).
Proof.
  assert (Hr : [true] !! 0%nat = Some true) by reflexivity.
  split; [exact Hr |].
  exact (proj1 (proj2
    (suspended_read_is_usage_error 0%nat [true] [chr "T"; chr "]"] RBool Hr))).
Defined.



Lemma ObjectWriter_key_run o key s :
  ObjectWriter_key o key s
  = (mk_wstate (os_ s ++ map uchar (c_str key) ++ [0]) (wready_ s ++ [true]),
     Ok (length (wready_ s))).
Proof.
  unfold ObjectWriter_key, bind, os_write, os_put, new_Writer.
  cbn [os_ wready_]. rewrite <- app_assoc. reflexivity.
Qed.

Lemma scalar_write_emits_mk op w os (st : store) :
  st !! w = Some true ->
  run_scalar_write op w (mk_wstate os st)
  = (mk_wstate (os ++ scalar_bytes op) st, Ok tt).
Proof. intros H. apply (scalar_write_emits op w (mk_wstate os st) H). Qed.

(** X13: the usage check guards a parent while its scope is open, and
    nothing else.  The child [Writer] of an array scope stays ready after
    the scope is closed: a scalar written through it then lands after the
    terminator, with no error. *)
Theorem child_handle_outlives_scope (w : Writer) (s : wstate)
    (op1 op2 : scalar_write) :
  wready_ s !! w = Some true ->
  (Writer_writeArray w (fun c => run_scalar_write op1 c) ;;
   run_scalar_write op2 (length (wready_ s))) s
  = (mk_wstate
       (os_ s ++ chr "[" :: scalar_bytes op1 ++ chr "]" :: scalar_bytes op2)
       (wready_ s ++ [true]), Ok tt).
Proof.
  intros Hw.
  assert (Hlt : (w < length (wready_ s))%nat) by (apply lookup_lt_Some in Hw; exact Hw).
  assert (Hc : (<[w := false]> (wready_ s) ++ [true]) !! length (wready_ s)
               = Some true).
  { rewrite <- (length_insert (wready_ s) w false). apply lookup_fresh. }
  assert (Harr : Writer_writeArray w (fun c => run_scalar_write op1 c) s
                 = (mk_wstate (os_ s ++ chr "[" :: scalar_bytes op1 ++ [chr "]"])
                      (wready_ s ++ [true]), Ok tt)).
  { rewrite (Writer_writeArray_enter w _ s Hw).
    rewrite (bind_ok _ _ _ _ _ (scalar_write_emits_mk op1 _ _ _ Hc)).
    unfold bind, Writer_set_ready, os_put. cbn [os_ wready_].
    rewrite insert_restore_app by exact Hw.
    rewrite <- !app_assoc. reflexivity. }
  rewrite (bind_ok _ _ _ _ _ Harr).
  rewrite (scalar_write_emits_mk op2 _ _ _ (lookup_fresh _ _)).
  repeat (rewrite <- app_assoc; cbn [app]). reflexivity.
Qed.

Lemma child_handle_outlives_scope_witness :
  wready_ wstate0 !! 0%nat = Some true /\
  (Writer_writeArray 0%nat (fun c => Writer_writeTrue c) ;;
   Writer_writeFalse 1%nat) wstate0
  = (mk_wstate [chr "["; chr "T"; chr "]"; chr "F"] [true; true], Ok tt).
Proof.
  assert (Hw : wready_ wstate0 !! 0%nat = Some true) by reflexivity.
  split; [exact Hw |].
  exact (child_handle_outlives_scope 0%nat wstate0 SWTrue SWFalse Hw).
Defined.


(** X14: [ObjectWriter::key] checks nothing.  For keys of non-NUL bytes the
    first of which does not begin with ['}']: inside [writeObject], two keys
    may be written in a row and their values afterwards, in any order, and a
    key may be left without a value; no error is raised and the bytes go
    out as they come.  An object whose only key has no value is not
    readable: [skip] reads the key and then finds ['}'] where the value
    should start.  (A key that begins with ['}'] is excluded: the reader
    takes its first byte for the terminator.) *)
Theorem object_writer_is_unchecked (w : Writer) (s : wstate) (r : Reader)
    (st : store) (rest : list Z) (k1 k2 : list Z) (op1 op2 : scalar_write) :
  wready_ s !! w = Some true -> st !! r = Some true ->
  Forall (fun c => 0 < c < 256) k1 -> Forall (fun c => 0 < c < 256) k2 ->
  (forall c key', k1 = c :: key' -> c <> chr "}") ->
  Writer_writeObject w (fun o =>
    c1 <- ObjectWriter_key o k1 ;;
    c2 <- ObjectWriter_key o k2 ;;
    run_scalar_write op2 c2 ;;
    run_scalar_write op1 c1) s
  = (mk_wstate
       (os_ s ++ chr "{" :: k1 ++ 0 :: k2 ++ 0 :: scalar_bytes op2
          ++ scalar_bytes op1 ++ [chr "}"])
       (wready_ s ++ [true; true]), Ok tt) /\
  Writer_writeObject w (fun o => void (ObjectWriter_key o k1)) s
  = (mk_wstate (os_ s ++ chr "{" :: k1 ++ [0; chr "}"]) (wready_ s ++ [true]),
     Ok tt) /\
  exists st',
    Reader_skip r (mk_rstate (chr "{" :: k1 ++ 0 :: chr "}" :: rest) st)
    = (mk_rstate (chr "}" :: rest) st',
       Throw (ParseError "Unexpected character")).
Proof.
  intros Hw Hr Hk1 Hk2 Hhead.
  assert (Hbytes : forall k, Forall (fun c => 0 < c < 256) k ->
            Forall (fun c => uchar c <> 0) k /\ map uchar k = k).
  { intros k Hk. split.
    - eapply Forall_impl; [exact Hk |]. cbn. intros c Hc.
      rewrite uchar_small by lia. lia.
    - apply map_uchar_id. eapply Forall_impl; [exact Hk |]. cbn. intros c Hc. lia. }
  destruct (Hbytes k1 Hk1) as [Hnz1 Hid1], (Hbytes k2 Hk2) as [Hnz2 Hid2].
  split; [| split].
  - rewrite (Writer_writeObject_enter w _ s Hw).
    rewrite bind_assoc, (bind_ok _ _ _ _ _ (ObjectWriter_key_run _ _ _)).
    rewrite bind_assoc, (bind_ok _ _ _ _ _ (ObjectWriter_key_run _ _ _)).
    cbn [os_ wready_].
    rewrite bind_assoc,
      (bind_ok _ _ _ _ _ (scalar_write_emits_mk op2 _ _ _ (lookup_fresh _ _))).
    rewrite (bind_ok _ _ _ _ _
               (scalar_write_emits_mk op1 _ _ _
                  (lookup_app_l_Some _ _ _ _ (lookup_fresh _ _)))).
    unfold bind, Writer_set_ready, os_put. cbn [os_ wready_].
    rewrite <- (app_assoc _ [true] [true]).
    rewrite insert_restore_app by exact Hw.
    rewrite (c_str_id k1 Hnz1), (c_str_id k2 Hnz2), Hid1, Hid2.
    repeat (rewrite <- app_assoc; cbn [app]). reflexivity.
  - rewrite (Writer_writeObject_enter w _ s Hw).
    unfold void. rewrite bind_assoc.
    rewrite (bind_ok _ _ _ _ _ (ObjectWriter_key_run _ _ _)).
    unfold bind, ret, Writer_set_ready, os_put. cbn [os_ wready_].
    rewrite insert_restore_app by exact Hw.
    rewrite (c_str_id k1 Hnz1), Hid1.
    repeat (rewrite <- app_assoc; cbn [app]). reflexivity.
  - unfold Reader_skip. cbn [is_ length Reader_skip_fuel].
    assert (Htag : Reader_getType r
                     (mk_rstate (chr "{" :: k1 ++ 0 :: chr "}" :: rest) st)
                   = (mk_rstate (chr "{" :: k1 ++ 0 :: chr "}" :: rest) st,
                      Ok OBJECT)) by apply (Reader_getType_tags r _ st Hr).
    rewrite (bind_ok _ _ _ _ _ Htag).
    unfold Reader_readObject.
    rewrite (Reader_getObject_enter r _ tt _ st Hr).
    rewrite length_app. cbn [length]. rewrite Nat.add_succ_r.
    cbn [ObjectReader_all]. rewrite !bind_assoc.
    assert (Hhead' : forall c key', k1 = c :: key' -> uchar c <> chr "}").
    { intros c key' Heq. rewrite uchar_small.
      - apply (Hhead c key' Heq).
      - subst k1. apply Forall_cons in Hk1 as [Hc _]. lia. }
    replace (k1 ++ 0 :: chr "}" :: rest)
      with (map uchar k1 ++ 0 :: chr "}" :: rest) by (rewrite Hid1; reflexivity).
    rewrite (bind_ok _ _ _ _ _ (ObjectReader_hasNext_key k1 _ _ Hhead')).
    rewrite !bind_assoc.
    rewrite (bind_ok _ _ _ _ _ (ObjectReader_next_run k1 _ _ Hnz1)).
    cbn [fst snd]. rewrite !bind_assoc.
    rewrite (bind_ok _ _ _ _ _ (Reader_copy_fresh _ _ true)).
    eexists. apply bind_throw.
    cbn [Reader_skip_fuel]. apply bind_throw.
    unfold Reader_getType.
    rewrite (bind_ok _ _ _ _ _ (Reader_ready_mk _ _ _ (lookup_fresh _ _))).
    reflexivity.
Qed.

Lemma object_writer_is_unchecked_witness :
  wready_ wstate0 !! 0%nat = Some true /\ [true] !! 0%nat = Some true /\
  Forall (fun c => 0 < c < 256) [chr "a"] /\
  Forall (fun c => 0 < c < 256) [chr "b"] /\
  Writer_writeObject 0%nat (fun o => void (ObjectWriter_key o [chr "a"])) wstate0
  = (mk_wstate [chr "{"; chr "a"; 0; chr "}"] [true; true], Ok tt).
Proof.
  assert (Hw : wready_ wstate0 !! 0%nat = Some true) by reflexivity.
  assert (Hr : [true] !! 0%nat = Some true) by reflexivity.
  assert (Ha : Forall (fun c => 0 < c < 256) [chr "a"])
    by (repeat constructor; vm_compute; reflexivity).
  assert (Hb : Forall (fun c => 0 < c < 256) [chr "b"])
    by (repeat constructor; vm_compute; reflexivity).
  assert (Hh : forall c key', [chr "a"] = c :: key' -> c <> chr "}").
  { intros c key' Heq. injection Heq as <- _. discriminate. }
  split; [exact Hw |]. split; [exact Hr |]. split; [exact Ha |].
  split; [exact Hb |].
  exact (proj1 (proj2
    (object_writer_is_unchecked 0%nat wstate0 0%nat [true] [] _ _
       SWTrue SWFalse Hw Hr Ha Hb Hh))).
Defined.

(** ** Containers *)

(** X15: an empty scope is just its two tags.  [writeArray] and
    [writeObject] with a callback that writes nothing produce ["[]"] and
    ["{}"]; reading those, [readArray] and [readObject] never call their
    callback, whatever it is, and return with the cursor after the
    terminator, and so does [skip]. *)
Theorem empty_containers (w : Writer) (s : wstate) (r : Reader) (st : store)
    (rest : list Z) :
  wready_ s !! w = Some true -> st !! r = Some true ->
  Writer_writeArray w (fun _ => ret tt) s
  = (mk_wstate (os_ s ++ [chr "["; chr "]"]) (wready_ s ++ [true]), Ok tt) /\
  Writer_writeObject w (fun _ => ret tt) s
  = (mk_wstate (os_ s ++ [chr "{"; chr "}"]) (wready_ s), Ok tt) /\
  (forall A fuel (func : Reader -> A -> M rstate A) env,
     Reader_readArray (S fuel) r func env (mk_rstate (chr "[" :: chr "]" :: rest) st)
     = (mk_rstate rest st, Ok env)) /\
  (forall A fuel (func : list Z -> Reader -> A -> M rstate A) env,
     Reader_readObject (S fuel) r func env
       (mk_rstate (chr "{" :: chr "}" :: rest) st)
     = (mk_rstate rest st, Ok env)) /\
  Reader_skip r (mk_rstate (chr "[" :: chr "]" :: rest) st)
  = (mk_rstate rest st, Ok tt) /\
  Reader_skip r (mk_rstate (chr "{" :: chr "}" :: rest) st)
  = (mk_rstate rest st, Ok tt).
Proof.
  intros Hw Hr.
  assert (Hra : forall A fuel (func : Reader -> A -> M rstate A) env,
     Reader_readArray (S fuel) r func env (mk_rstate (chr "[" :: chr "]" :: rest) st)
     = (mk_rstate rest st, Ok env)).
  { intros A fuel func env. unfold Reader_readArray.
    rewrite (Reader_getArray_enter r _ env _ st Hr).
    cbn [ArrayReader_all]. rewrite bind_assoc.
    assert (Hn : ArrayReader_hasNext tt
                   (mk_rstate (chr "]" :: rest) (<[r := false]> st))
                 = (mk_rstate (chr "]" :: rest) (<[r := false]> st), Ok false))
      by reflexivity.
    rewrite (bind_ok _ _ _ _ _ Hn).
    unfold bind at 1. unfold ret at 1.
    unfold bind at 1. unfold Reader_set_ready. cbn [is_ rready_].
    rewrite insert_restore by exact Hr.
    rewrite (bind_ok _ _ _ _ _ (Reader_next_cons _ _ st)). reflexivity. }
  assert (Hro : forall A fuel (func : list Z -> Reader -> A -> M rstate A) env,
     Reader_readObject (S fuel) r func env
       (mk_rstate (chr "{" :: chr "}" :: rest) st)
     = (mk_rstate rest st, Ok env)).
  { intros A fuel func env. unfold Reader_readObject.
    rewrite (Reader_getObject_enter r _ env _ st Hr).
    cbn [ObjectReader_all]. rewrite bind_assoc.
    assert (Hn : ObjectReader_hasNext tt
                   (mk_rstate (chr "}" :: rest) (<[r := false]> st))
                 = (mk_rstate (chr "}" :: rest) (<[r := false]> st), Ok false))
      by reflexivity.
    rewrite (bind_ok _ _ _ _ _ Hn).
    unfold bind at 1. unfold ret at 1.
    unfold bind at 1. unfold Reader_set_ready. cbn [is_ rready_].
    rewrite insert_restore by exact Hr.
    rewrite (bind_ok _ _ _ _ _ (Reader_next_cons _ _ st)). reflexivity. }
  split; [| split; [| split; [exact Hra | split; [exact Hro | split]]]].
  - rewrite (Writer_writeArray_enter w _ s Hw).
    unfold bind, ret, Writer_set_ready, os_put. cbn [os_ wready_].
    rewrite insert_restore_app by exact Hw. rewrite <- app_assoc. reflexivity.
  - rewrite (Writer_writeObject_enter w _ s Hw).
    unfold bind, ret, Writer_set_ready, os_put. cbn [os_ wready_].
    rewrite insert_restore by exact Hw. rewrite <- app_assoc. reflexivity.
  - unfold Reader_skip. cbn [is_ length Reader_skip_fuel].
    assert (Htag : Reader_getType r (mk_rstate (chr "[" :: chr "]" :: rest) st)
                   = (mk_rstate (chr "[" :: chr "]" :: rest) st, Ok ARRAY))
      by apply (Reader_getType_tags r _ st Hr).
    rewrite (bind_ok _ _ _ _ _ Htag). apply Hra.
  - unfold Reader_skip. cbn [is_ length Reader_skip_fuel].
    assert (Htag : Reader_getType r (mk_rstate (chr "{" :: chr "}" :: rest) st)
                   = (mk_rstate (chr "{" :: chr "}" :: rest) st, Ok OBJECT))
      by apply (Reader_getType_tags r _ st Hr).
    rewrite (bind_ok _ _ _ _ _ Htag). apply Hro.
Qed.

Lemma empty_containers_witness :
  wready_ wstate0 !! 0%nat = Some true /\ [true] !! 0%nat = Some true /\
  Writer_writeArray 0%nat (fun _ => ret tt) wstate0
  = (mk_wstate [chr "["; chr "]"] [true; true], Ok tt) /\
  Reader_skip 0%nat (mk_rstate (chr "[" :: chr "]" :: [chr "N"]) [true])
  = (mk_rstate [chr "N"] [true], Ok tt).
Proof.
  assert (Hw : wready_ wstate0 !! 0%nat = Some true) by reflexivity.
  assert (Hr : [true] !! 0%nat = Some true) by reflexivity.
  destruct (empty_containers 0%nat wstate0 0%nat [true] [chr "N"] Hw Hr)
    as (Ha & _ & _ & _ & Hs & _).
  split; [exact Hw |]. split; [exact Hr |]. split; [exact Ha | exact Hs].
Defined.

(** X17: containers are framed concatenations, to any depth.  The encoding
    of an array is ['['], the encodings of its elements in order, [']']; of
    an object ['{'], for each entry in order the key, a NUL and the
    encoding of the value, ['}'].  Writing a value through any ready handle
    appends exactly its encoding to whatever the stream held, returns
    normally, and leaves every [Writer] that existed as it was. *)
Theorem container_framing (w : Writer) (s : wstate) (v : Value)
    (vs : list Value) (kvs : list (list Z * Value)) :
  wready_ s !! w = Some true ->
  encode (VArray vs) = chr "[" :: flat_map encode vs ++ [chr "]"] /\
  encode (VObject kvs)
  = chr "{" ::
    flat_map (fun kv => map uchar (c_str (fst kv)) ++ 0 :: encode (snd kv)) kvs
    ++ [chr "}"] /\
  exists extra,
    writeValue v w s = (mk_wstate (os_ s ++ encode v) (wready_ s ++ extra), Ok tt).
Proof.
  intros Hw.
  assert (Hfm : forall l : list Value, flat_map encode l = flat_map enc l).
  { intros l. induction l as [| x l IH]; cbn [flat_map]; [reflexivity |].
    rewrite encode_enc, IH. reflexivity. }
  split; [| split].
  - rewrite encode_enc, Hfm. reflexivity.
  - rewrite encode_enc. cbn [enc]. do 2 f_equal.
    induction kvs as [| kv kvs IH]; cbn [flat_map]; [reflexivity |].
    rewrite IH, encode_enc.
    repeat (rewrite <- app_assoc; cbn [app]). reflexivity.
  - rewrite encode_enc. apply writeValue_run. exact Hw.
Qed.

Lemma container_framing_witness :
  wready_ wstate0 !! 0%nat = Some true /\
  exists extra,
    writeValue sample_value 0%nat wstate0
    = (mk_wstate ([] ++ encode sample_value) ([true] ++ extra), Ok tt).
Proof.
  assert (Hw : wready_ wstate0 !! 0%nat = Some true) by reflexivity.
  split; [exact Hw |].
  exact (proj2 (proj2 (container_framing 0%nat wstate0 sample_value [] [] Hw))).
Defined.

(** X20: [skip] moves forward only.  On every input it ends having put no
    byte back, and when it returns normally it has consumed at least one
    byte; any fuel above the number of unread bytes gives the same result. *)
Theorem skip_moves_forward (r : Reader) (s : rstate) (fuel : nat) :
  (length (is_ s) < fuel)%nat ->
  Reader_skip_fuel fuel r s = Reader_skip r s /\
  (length (is_ (fst (Reader_skip r s))) <= length (is_ s))%nat /\
  (snd (Reader_skip r s) = Ok tt ->
   (length (is_ (fst (Reader_skip r s))) < length (is_ s))%nat).
Proof.
  intros Hf. split; [apply Reader_skip_fuel_enough; exact Hf |].
  unfold Reader_skip.
  destruct (progresses_skip (S (length (is_ s))) r s ltac:(lia)) as (_ & H2 & H3).
  split; [exact H2 | apply H3].
Qed.

Lemma skip_moves_forward_witness :
  (length (is_ (rstate0 [chr "T"; chr "F"])) < 5)%nat /\
  Reader_skip_fuel 5 0%nat (rstate0 [chr "T"; chr "F"])
  = (mk_rstate [chr "F"] [true], Ok tt).
Proof.
  assert (Hf : (length (is_ (rstate0 [chr "T"; chr "F"])) < 5)%nat) by (cbn; lia).
  split; [exact Hf |].
  exact (proj1 (skip_moves_forward 0%nat (rstate0 [chr "T"; chr "F"]) 5 Hf)).
Defined.

Lemma Reader_hasNext_cons r c rest st :
  Reader_hasNext r (mk_rstate (c :: rest) st) = (mk_rstate (c :: rest) st, Ok true).
Proof.
  unfold Reader_hasNext, bind, is_peek, ret. cbn [is_ rready_].
  pose proof (uchar_range c) as Hc.
  replace (uchar c =? EOF) with false
    by (symmetry; apply Z.eqb_neq; unfold EOF; lia).
  reflexivity.
Qed.

Lemma Reader_skip_enc v r rest st :
  valid v -> keys_readable v -> st !! r = Some true ->
  exists extra,
    Reader_skip r (mk_rstate (enc v ++ rest) st)
    = (mk_rstate rest (st ++ extra), Ok tt).
Proof.
  intros Hv Hk Hr. unfold Reader_skip. cbn [is_].
  apply skip_enc; try assumption. rewrite length_app. lia.
Qed.

(** X16: a document is its values back to back.  On the concatenated
    encodings of any list of valid values (no key beginning with ['}']),
    the loop [while (r.hasNext()) r.skip();] runs once per value and ends
    with the input exhausted; [Reader::hasNext] is what tells the end of the
    document. *)
Theorem document_is_walked (r : Reader) (vs : list Value) :
  Forall valid vs -> Forall keys_readable vs ->
  forall st, st !! r = Some true ->
  exists st',
    skip_document (S (length vs)) r (mk_rstate (flat_map encode vs) st)
    = (mk_rstate [] st', Ok (length vs)).
Proof.
  intros Hv Hk. induction vs as [| v vs IH]; intros st Hr.
  - exists st. reflexivity.
  - apply Forall_cons in Hv as [Hv Hvs]. apply Forall_cons in Hk as [Hk Hks].
    cbn [flat_map length]. rewrite encode_enc.
    destruct (enc_head v Hv) as (tag & tl & Henc & _).
    destruct (Reader_skip_enc v r (flat_map encode vs) st Hv Hk Hr) as [extra Hs].
    destruct (IH Hvs Hks (st ++ extra) (lookup_app_l_Some _ _ _ _ Hr)) as [st' Hd].
    exists st'.
    change (skip_document (S (S (length vs))) r)
      with (b <- Reader_hasNext r ;;
            if (b : bool) then
              Reader_skip r ;; n <- skip_document (S (length vs)) r ;; ret (S n)
            else ret 0%nat).
    assert (Hn : Reader_hasNext r (mk_rstate (enc v ++ flat_map encode vs) st)
                 = (mk_rstate (enc v ++ flat_map encode vs) st, Ok true)).
    { rewrite Henc. apply Reader_hasNext_cons. }
    rewrite (bind_ok _ _ _ _ _ Hn), (bind_ok _ _ _ _ _ Hs), (bind_ok _ _ _ _ _ Hd).
    reflexivity.
Qed.

Lemma document_is_walked_witness :
  Forall valid [VNull; sample_value] /\ Forall keys_readable [VNull; sample_value] /\
  [true] !! 0%nat = Some true /\
  exists st',
    skip_document 3 0%nat (mk_rstate (flat_map encode [VNull; sample_value]) [true])
    = (mk_rstate [] st', Ok 2%nat).
Proof.
  assert (Hsv : valid sample_value).
  { cbn [sample_value valid fold_right fst snd]. unfold INT64_MIN, INT64_MAX.
    repeat split; try lia; repeat constructor; discriminate. }
  assert (Hsk : keys_readable sample_value).
  { cbn [sample_value keys_readable fold_right fst snd].
    repeat split. intros c key' Heq. injection Heq as <- _. discriminate. }
  assert (Hv : Forall valid [VNull; sample_value]).
  { constructor; [exact I |]. constructor; [exact Hsv | constructor]. }
  assert (Hk : Forall keys_readable [VNull; sample_value]).
  { constructor; [exact I |]. constructor; [exact Hsk | constructor]. }
  assert (Hr : [true] !! 0%nat = Some true) by reflexivity.
  split; [exact Hv |]. split; [exact Hk |]. split; [exact Hr |].
  exact (document_is_walked 0%nat [VNull; sample_value] Hv Hk [true] Hr).
Defined.

(** ** Values written and decoded *)

Lemma Reader_getFloat_le_bytes r f rest st :
  st !! r = Some true -> 0 <= f < 2 ^ 32 ->
  Reader_getFloat r (mk_rstate (chr "f" :: le_bytes 4 f ++ rest) st)
  = (mk_rstate rest st, Ok f).
Proof.
  intros Hr Hf. unfold Reader_getFloat.
  rewrite (bind_ok _ _ _ _ _ (Reader_ready_mk r _ st Hr)).
  unfold bind at 1. unfold is_get. cbn [is_ rready_ negb le_bytes seq map app].
  change (uchar (chr "f") =? chr "f") with true. cbv iota. cbn [negb].
  do 4 rewrite (bind_ok _ _ _ _ _ (Reader_next_cons _ _ st)).
  unfold ret. rewrite (le_join_32 f Hf). reflexivity.
Qed.

Lemma Reader_getDouble_le_bytes r d rest st :
  st !! r = Some true -> 0 <= d < 2 ^ 64 ->
  Reader_getDouble r (mk_rstate (chr "d" :: le_bytes 8 d ++ rest) st)
  = (mk_rstate rest st, Ok d).
Proof.
  intros Hr Hd. unfold Reader_getDouble.
  rewrite (bind_ok _ _ _ _ _ (Reader_ready_mk r _ st Hr)).
  unfold bind at 1. unfold is_get. cbn [is_ rready_ negb le_bytes seq map app].
  change (uchar (chr "d") =? chr "d") with true. cbv iota. cbn [negb].
  do 8 rewrite (bind_ok _ _ _ _ _ (Reader_next_cons _ _ st)).
  unfold ret. rewrite (le_join_64 d Hd). reflexivity.
Qed.

Lemma map_uchar_idem bs : map uchar (map uchar bs) = map uchar bs.
Proof.
  induction bs as [| c bs IH]; cbn [map]; [reflexivity |].
  rewrite uchar_idem, IH. reflexivity.
Qed.

(** The generic decoder on the encoding of a scalar. *)
Lemma getValue_scalar v fuel r rest st :
  scalar v -> valid v -> st !! r = Some true ->
  getValue (S fuel) r (mk_rstate (enc v ++ rest) st)
  = (mk_rstate rest st, Ok (canon v)).
Proof.
  intros Hs Hv Hr. cbn [getValue].
  rewrite (bind_ok _ _ _ _ _ (Reader_getType_enc v r rest st Hv Hr)).
  assert (Hc := fun input => Reader_ready_mk r input st Hr).
  destruct v; try contradiction;
    cbn [enc scalar_bytes type_of_value app valid canon] in *.
  - unfold Reader_getBool. rewrite bind_assoc, (bind_ok _ _ _ _ _ (Hc _)).
    destruct b; reflexivity.
  - unfold Reader_getNil. rewrite bind_assoc, (bind_ok _ _ _ _ _ (Hc _)).
    reflexivity.
  - unfold Reader_getString. rewrite bind_assoc, (bind_ok _ _ _ _ _ (Hc _)).
    rewrite bind_assoc, is_get_cons.
    change (negb (uchar (chr "S") =? chr "S")) with false. cbv iota.
    unfold bind, on_input. cbn [is_ rready_].
    rewrite (c_str_id str Hv), <- app_assoc. cbn [app].
    rewrite (getString_loop_run str rest [] Hv). reflexivity.
  - unfold Reader_getBinary. rewrite bind_assoc, (bind_ok _ _ _ _ _ (Hc _)).
    rewrite bind_assoc, is_get_cons.
    change (negb (uchar (chr "B") =? chr "B")) with false. cbv iota.
    rewrite <- app_assoc.
    assert (Hlen : 0 <= Z.of_nat (length data) < 2 ^ 64) by lia.
    rewrite bind_assoc, (bind_ok _ _ _ _ _ (Reader_nextLEB128_bytes _ _ st Hlen)).
    unfold bind, on_input. cbn [is_ rready_].
    rewrite uint64_small by lia.
    pose proof (getBinary_loop_run (map uchar data) rest []) as Hrun.
    cbn [length app] in Hrun. rewrite Nat.add_0_l, length_map in Hrun.
    rewrite Hrun, map_uchar_idem. reflexivity.
  - rewrite (uint32_small bits Hv).
    rewrite (bind_ok _ _ _ _ _ (Reader_getFloat_le_bytes r bits rest st Hr Hv)).
    reflexivity.
  - rewrite (uint64_small bits Hv).
    rewrite (bind_ok _ _ _ _ _ (Reader_getDouble_le_bytes r bits rest st Hr Hv)).
    reflexivity.
  - unfold INT64_MIN, INT64_MAX in *.
    destruct (Z.ltb_spec num 0) as [Hneg | Hpos].
    { destruct (Z.eqb_spec num (- 2 ^ 63)) as [-> | Hne]; cbn [app].
      - rewrite (bind_ok _ _ _ _ _
                   (Reader_getInt_minus r (2 ^ 63) rest st Hr ltac:(lia))).
        reflexivity.
      - rewrite (int64_small (- num)) by lia.
        rewrite (bind_ok _ _ _ _ _
                   (Reader_getInt_minus r (- num) rest st Hr ltac:(lia))).
        rewrite int64_uint64, Z.opp_involutive, int64_small by lia.
        reflexivity. }
    destruct (Z.eqb_spec num (- 2 ^ 63)) as [-> | Hne]; [lia |].
    destruct (Z.leb_spec num 9) as [H9 | H10]; cbn [app].
    + rewrite uchar_small by (norm_chr; lia).
      assert (Hd : 48 <= chr "0" + num <= 57) by (norm_chr; lia).
      rewrite (bind_ok _ _ _ _ _ (Reader_getUInt_digit r _ rest st Hr Hd)).
      norm_chr. rewrite uint64_small by lia. unfold ret. do 3 f_equal. lia.
    + rewrite (bind_ok _ _ _ _ _ (Reader_getUInt_plus r num rest st Hr ltac:(lia))).
      reflexivity.
  - destruct (Z.leb_spec num 9) as [H9 | H10]; cbn [app].
    + rewrite uchar_small by (norm_chr; lia).
      assert (Hd : 48 <= chr "0" + num <= 57) by (norm_chr; lia).
      rewrite (bind_ok _ _ _ _ _ (Reader_getUInt_digit r _ rest st Hr Hd)).
      norm_chr. rewrite uint64_small by lia. unfold ret. do 3 f_equal. lia.
    + rewrite (bind_ok _ _ _ _ _ (Reader_getUInt_plus r num rest st Hr ltac:(lia))).
      reflexivity.
Qed.

Lemma decode_elements f vs :
  Forall (fun v => valid v /\
            forall r rest st, st !! r = Some true ->
              exists extra,
                getValue f r (mk_rstate (enc v ++ rest) st)
                = (mk_rstate rest (st ++ extra), Ok (canon v))) vs ->
  forall n rest st acc, (length vs < n)%nat ->
    exists extra,
      ArrayReader_all n tt (decode_element (getValue f)) acc
        (mk_rstate (flat_map enc vs ++ chr "]" :: rest) st)
      = (mk_rstate (chr "]" :: rest) (st ++ extra), Ok (acc ++ map canon vs)).
Proof.
  induction 1 as [| v vs [Hv Hget] _ IH]; intros n rest st acc Hn;
    (destruct n as [| n]; [cbn [length] in Hn; lia |]);
    cbn [ArrayReader_all flat_map app map].
  - exists []. rewrite !app_nil_r. reflexivity.
  - rewrite <- app_assoc.
    rewrite (bind_ok _ _ _ _ _ (ArrayReader_hasNext_enc v _ st Hv)).
    unfold ArrayReader_next. unfold bind at 1. unfold new_Reader.
    cbn [is_ rready_]. unfold decode_element at 1. rewrite bind_assoc.
    rewrite (bind_ok _ _ _ _ _ (Reader_copy_fresh _ st true)).
    destruct (Hget (length (st ++ [true])) (flat_map enc vs ++ chr "]" :: rest)
                ((st ++ [true]) ++ [true]) (lookup_fresh _ _)) as [e1 H1].
    rewrite bind_assoc, (bind_ok _ _ _ _ _ H1).
    unfold bind at 1. unfold ret at 1.
    destruct (IH n rest (((st ++ [true]) ++ [true]) ++ e1) (acc ++ [canon v]))
      as [e2 H2].
    { cbn [length] in Hn. lia. }
    exists ([true] ++ [true] ++ e1 ++ e2). rewrite H2.
    rewrite <- !app_assoc. reflexivity.
Qed.

Lemma decode_entries f kvs :
  Forall (fun kv =>
            Forall (fun c => uchar c <> 0) (fst kv) /\
            (forall c key', fst kv = c :: key' -> uchar c <> chr "}") /\
            forall r rest st, st !! r = Some true ->
              exists extra,
                getValue f r (mk_rstate (enc (snd kv) ++ rest) st)
                = (mk_rstate rest (st ++ extra), Ok (canon (snd kv)))) kvs ->
  forall n rest st acc, (length kvs < n)%nat ->
    exists extra,
      ObjectReader_all n tt (decode_entry (getValue f)) acc
        (mk_rstate
           (flat_map
              (fun kv => (map uchar (c_str (fst kv)) ++ [0]) ++ enc (snd kv))
              kvs ++ chr "}" :: rest) st)
      = (mk_rstate (chr "}" :: rest) (st ++ extra),
         Ok (acc ++ map (fun kv => (map uchar (fst kv), canon (snd kv))) kvs)).
Proof.
  induction 1 as [| kv kvs (Hnul & Hhead & Hget) _ IH]; intros n rest st acc Hn;
    (destruct n as [| n]; [cbn [length] in Hn; lia |]);
    cbn [ObjectReader_all flat_map app map].
  - exists []. rewrite !app_nil_r. reflexivity.
  - rewrite (c_str_id _ Hnul), <- !app_assoc. cbn [app].
    rewrite (bind_ok _ _ _ _ _ (ObjectReader_hasNext_key _ _ st Hhead)).
    rewrite (bind_ok _ _ _ _ _ (ObjectReader_next_run _ _ st Hnul)).
    cbn [fst snd]. unfold decode_entry at 1. rewrite bind_assoc.
    rewrite (bind_ok _ _ _ _ _ (Reader_copy_fresh _ st true)).
    match goal with
    | |- context [mk_rstate (enc (snd kv) ++ ?more) _] =>
        destruct (Hget (length (st ++ [true])) more
                    ((st ++ [true]) ++ [true]) (lookup_fresh _ _)) as [e1 H1]
    end.
    rewrite bind_assoc, (bind_ok _ _ _ _ _ H1).
    unfold bind at 1. unfold ret at 1.
    destruct (IH n rest (((st ++ [true]) ++ [true]) ++ e1)
                (acc ++ [(map uchar (fst kv), canon (snd kv))])) as [e2 H2].
    { cbn [length] in Hn. lia. }
    exists ([true] ++ [true] ++ e1 ++ e2). rewrite H2.
    rewrite <- !app_assoc. reflexivity.
Qed.

(** The generic decoder on the encoding of a valid value whose keys can be
    read back: it stops right after the encoding and returns the value in
    the form the reader gives it. *)
Lemma getValue_enc v :
  valid v -> keys_readable v ->
  forall fuel r rest st,
    st !! r = Some true -> (length (enc v) < fuel)%nat ->
    exists extra,
      getValue fuel r (mk_rstate (enc v ++ rest) st)
      = (mk_rstate rest (st ++ extra), Ok (canon v)).
Proof.
  induction v as [v Hs | vs IH | kvs IH] using Value_ind;
    intros Hv Hk fuel r rest st Hr Hfuel;
    (destruct fuel as [| f]; [lia |]).
  - exists []. rewrite app_nil_r. apply getValue_scalar; assumption.
  - pose proof (proj1 (valid_VArray vs) Hv) as Hvs.
    pose proof (proj1 (keys_readable_VArray vs) Hk) as Hks.
    destruct (flat_map_length_bound enc vs) as [Hlen Hlens].
    { eapply Forall_impl; [exact Hvs |]. intros x. apply enc_nonempty. }
    cbn [enc length] in Hfuel. rewrite length_app in Hfuel. cbn [length] in Hfuel.
    assert (Helems : Forall (fun v => valid v /\
              forall r rest st, st !! r = Some true ->
                exists extra,
                  getValue f r (mk_rstate (enc v ++ rest) st)
                  = (mk_rstate rest (st ++ extra), Ok (canon v))) vs).
    { rewrite Forall_forall in *. intros x Hx. split; [apply Hvs, Hx |].
      intros r' rest' st' Hr'.
      apply (IH x Hx (Hvs x Hx) (Hks x Hx)); [exact Hr' |].
      specialize (Hlens x Hx). lia. }
    destruct (decode_elements f vs Helems f rest (<[r := false]> st) []
                ltac:(lia)) as [e1 H1].
    cbn [getValue].
    rewrite (bind_ok _ _ _ _ _ (Reader_getType_enc _ r rest st Hv Hr)).
    cbn [type_of_value]. unfold Reader_readArray.
    cbn [enc app]. rewrite <- app_assoc. cbn [app].
    unfold bind at 1.
    rewrite (Reader_getArray_enter r _ [] _ st Hr).
    rewrite (bind_ok _ _ _ _ _ H1).
    unfold bind at 1. unfold Reader_set_ready. cbn [is_ rready_].
    rewrite insert_restore_app by exact Hr.
    rewrite (bind_ok _ _ _ _ _ (Reader_next_cons _ _ _)).
    exists e1. reflexivity.
  - pose proof (proj1 (valid_VObject kvs) Hv) as Hvs.
    pose proof (proj1 (keys_readable_VObject kvs) Hk) as Hks.
    destruct (flat_map_length_bound
                (fun kv => (map uchar (c_str (fst kv)) ++ [0]) ++ enc (snd kv))
                kvs) as [Hlen Hlens].
    { eapply Forall_impl; [exact Hvs |]. intros x [_ Hx].
      rewrite !length_app. cbn [length]. lia. }
    cbn [enc length] in Hfuel. rewrite length_app in Hfuel. cbn [length] in Hfuel.
    assert (Hentries : Forall (fun kv =>
              Forall (fun c => uchar c <> 0) (fst kv) /\
              (forall c key', fst kv = c :: key' -> uchar c <> chr "}") /\
              forall r rest st, st !! r = Some true ->
                exists extra,
                  getValue f r (mk_rstate (enc (snd kv) ++ rest) st)
                  = (mk_rstate rest (st ++ extra), Ok (canon (snd kv)))) kvs).
    { rewrite Forall_forall in *. intros x Hx.
      split; [apply Hvs, Hx |]. split; [apply Hks, Hx |].
      intros r' rest' st' Hr'.
      apply (IH x Hx (proj2 (Hvs x Hx)) (proj2 (Hks x Hx))); [exact Hr' |].
      specialize (Hlens x Hx). rewrite !length_app in Hlens. lia. }
    destruct (decode_entries f kvs Hentries f rest (<[r := false]> st) []
                ltac:(lia)) as [e1 H1].
    cbn [getValue].
    rewrite (bind_ok _ _ _ _ _ (Reader_getType_enc _ r rest st Hv Hr)).
    cbn [type_of_value]. unfold Reader_readObject.
    cbn [enc app]. rewrite <- app_assoc. cbn [app].
    unfold bind at 1.
    rewrite (Reader_getObject_enter r _ [] _ st Hr).
    rewrite (bind_ok _ _ _ _ _ H1).
    unfold bind at 1. unfold Reader_set_ready. cbn [is_ rready_].
    rewrite insert_restore_app by exact Hr.
    rewrite (bind_ok _ _ _ _ _ (Reader_next_cons _ _ _)).
    exists e1. reflexivity.
Qed.

Lemma nonzero_map_uchar str :
  Forall (fun c => uchar c <> 0) str ->
  Forall (fun c => uchar c <> 0) (map uchar str).
Proof.
  induction 1 as [| c str Hc _ IH]; cbn [map]; constructor;
    [rewrite uchar_idem; exact Hc | exact IH].
Qed.

(** The decoded form of a valid value is written as the same bytes. *)
Lemma enc_canon v : valid v -> enc (canon v) = enc v.
Proof.
  induction v as [v Hs | vs IH | kvs IH] using Value_ind; intros Hv.
  - destruct v; try contradiction; cbn [canon valid] in *; try reflexivity.
    + cbn [enc scalar_bytes].
      rewrite (c_str_id _ (nonzero_map_uchar _ Hv)), (c_str_id _ Hv).
      rewrite map_uchar_idem. reflexivity.
    + cbn [enc scalar_bytes]. rewrite length_map, map_uchar_idem. reflexivity.
    + unfold INT64_MIN, INT64_MAX in *.
      destruct (Z.ltb_spec num 0) as [Hneg | Hpos]; [reflexivity |].
      cbn [enc scalar_bytes]. unfold INT64_MIN.
      destruct (Z.eqb_spec num (- 2 ^ 63)) as [-> | Hne]; [lia |].
      destruct (Z.ltb_spec num 0) as [Hneg | _]; [lia | reflexivity].
  - pose proof (proj1 (valid_VArray vs) Hv) as Hvs.
    cbn [canon enc]. do 2 f_equal.
    clear Hv. induction IH as [| x xs Hx _ IHxs]; [reflexivity |].
    apply Forall_cons in Hvs as [Hvx Hvxs]. cbn [map flat_map].
    rewrite (Hx Hvx), (IHxs Hvxs). reflexivity.
  - pose proof (proj1 (valid_VObject kvs) Hv) as Hvs.
    cbn [canon enc]. do 2 f_equal.
    clear Hv. induction IH as [| x xs Hx _ IHxs]; [reflexivity |].
    apply Forall_cons in Hvs as [[Hkx Hvx] Hvxs]. cbn [map flat_map fst snd].
    rewrite (Hx Hvx), (IHxs Hvxs).
    rewrite (c_str_id _ (nonzero_map_uchar _ Hkx)), (c_str_id _ Hkx).
    rewrite map_uchar_idem. reflexivity.
Qed.

(** What the decoder returns is in its final form. *)
Lemma canon_idem v : canon (canon v) = canon v.
Proof.
  induction v as [v Hs | vs IH | kvs IH] using Value_ind.
  - destruct v; try contradiction; cbn [canon]; try reflexivity.
    + rewrite map_uchar_idem. reflexivity.
    + rewrite map_uchar_idem. reflexivity.
    + destruct (num <? 0) eqn:Hneg; cbn [canon]; [rewrite Hneg |]; reflexivity.
  - cbn [canon]. f_equal.
    induction IH as [| x xs Hx _ IHxs]; [reflexivity |].
    cbn [map]. rewrite Hx, IHxs. reflexivity.
  - cbn [canon]. f_equal.
    induction IH as [| x xs Hx _ IHxs]; [reflexivity |].
    cbn [map fst snd]. rewrite Hx, IHxs, map_uchar_idem. reflexivity.
Qed.

(** The get or read operation that matches a valid value whose keys can be
    read back, on the value's encoding: it stops right after the encoding
    and returns the value. *)
Lemma get_matching_enc v fuel r rest st :
  valid v -> keys_readable v -> st !! r = Some true ->
  (length (enc v) <= fuel)%nat ->
  exists extra v',
    get_matching v fuel r (mk_rstate (enc v ++ rest) st)
    = (mk_rstate rest (st ++ extra), Ok v') /\
    canon v' = canon v.
Proof.
  intros Hv Hk Hr Hfuel.
  destruct (getValue_enc v Hv Hk (S fuel) r rest st Hr ltac:(lia)) as [extra H].
  cbn [getValue] in H.
  rewrite (bind_ok _ _ _ _ _ (Reader_getType_enc v r rest st Hv Hr)) in H.
  destruct v; cbn [type_of_value get_matching] in *;
    try (exists extra; eexists; split; [exact H | apply canon_idem]).
  destruct (Z.ltb_spec num 0) as [Hneg | Hpos];
    [exists extra; eexists; split; [exact H | apply canon_idem] |].
  cbn [valid] in Hv. unfold INT64_MIN, INT64_MAX in Hv.
  exists [], (VInt num). rewrite app_nil_r. split; [| reflexivity].
  cbn [enc scalar_bytes]. unfold INT64_MIN.
  destruct (Z.eqb_spec num (- 2 ^ 63)) as [-> | Hne]; [lia |].
  destruct (Z.ltb_spec num 0) as [Hneg | _]; [lia |].
  destruct (Z.leb_spec num 9) as [H9 | H10]; cbn [app].
  - rewrite uchar_small by (norm_chr; lia).
    assert (Hd : 48 <= chr "0" + num <= 57) by (norm_chr; lia).
    rewrite (bind_ok _ _ _ _ _ (Reader_getInt_digit r _ rest st Hr Hd)).
    norm_chr. rewrite int64_small by lia. unfold ret. do 3 f_equal. lia.
  - assert (Hm : 0 <= num < 2 ^ 64) by lia.
    rewrite (bind_ok _ _ _ _ _ (Reader_getInt_plus r num rest st Hr Hm)).
    rewrite int64_small by lia. reflexivity.
Qed.

(** C4: for every valid encoded value none of whose object keys begins with
    ['}'], of any type and nesting and followed by any bytes, [skip] and the
    get or read operation that matches the value both return normally and
    end in the same state, with the cursor right after the value's bytes;
    the decoding returns the value that was written, in the form the reader
    gives it. *)
Theorem skip_equivalence (v : Value) (rest : list Z) (r : Reader) (st : store) :
  valid v -> keys_readable v -> st !! r = Some true ->
  exists st' v',
    Reader_skip r (mk_rstate (encode v ++ rest) st)
    = (mk_rstate rest st', Ok tt) /\
    get_matching v (length (encode v ++ rest)) r
      (mk_rstate (encode v ++ rest) st)
    = (mk_rstate rest st', Ok v') /\
    canon v' = canon v.
Proof.
  intros Hv Hk Hr. rewrite encode_enc.
  destruct (Reader_skip_enc v r rest st Hv Hk Hr) as [e1 Hskip].
  destruct (get_matching_enc v (length (enc v ++ rest)) r rest st Hv Hk Hr)
    as (e2 & v' & Hget & Hcanon).
  { rewrite length_app. lia. }
  pose proof (get_matching_getValue v (length (enc v ++ rest)) r rest st Hv Hr)
    as [Hfst _].
  destruct (sim_getValue_skip (S (length (enc v ++ rest))) r
              (mk_rstate (enc v ++ rest) st)) as [Hsim _].
  cbv zeta in Hfst. rewrite Hsim in Hfst.
  change (Reader_skip_fuel (S (length (enc v ++ rest))) r
            (mk_rstate (enc v ++ rest) st))
    with (Reader_skip r (mk_rstate (enc v ++ rest) st)) in Hfst.
  rewrite Hget, Hskip in Hfst. cbn [fst] in Hfst.
  exists (st ++ e1), v'. split; [exact Hskip |]. split; [| exact Hcanon].
  rewrite Hget, Hfst. reflexivity.
Qed.

Lemma skip_equivalence_witness :
  exists st' v',
    Reader_skip 0%nat (mk_rstate (encode sample_value ++ [chr "T"]) [true])
    = (mk_rstate [chr "T"] st', Ok tt) /\
    get_matching sample_value (length (encode sample_value ++ [chr "T"]))
      0%nat (mk_rstate (encode sample_value ++ [chr "T"]) [true])
    = (mk_rstate [chr "T"] st', Ok v') /\
    canon v' = canon sample_value.
Proof.
  apply (skip_equivalence sample_value [chr "T"] 0%nat [true]).
  - cbn [sample_value valid fold_right fst snd]. unfold INT64_MIN, INT64_MAX.
    repeat split; try lia; repeat constructor; discriminate.
  - cbn [sample_value keys_readable fold_right fst snd].
    repeat split. intros c key' Heq. injection Heq as <- _. discriminate.
  - reflexivity.
Defined.

(** X18: a value is read back as it was written.  For a valid value [v] none
    of whose keys begins with ['}'], [writeValue] appends [encode v] to the
    output, and the generic decoder [getValue], given more fuel than the
    encoding has bytes, consumes exactly those bytes, leaves what follows
    unread and the reader ready, and returns [canon v]: the value with its
    bytes reduced to unsigned chars and its non-negative signed integers
    typed as unsigned.  That decoded form is written as the same bytes. *)
Theorem value_roundtrip (v : Value) (w : Writer) (s : wstate) (r : Reader)
    (st : store) (rest : list Z) (fuel : nat) :
  valid v -> keys_readable v ->
  wready_ s !! w = Some true -> st !! r = Some true ->
  (length (encode v) < fuel)%nat ->
  exists wextra rextra,
    writeValue v w s
    = (mk_wstate (os_ s ++ encode v) (wready_ s ++ wextra), Ok tt) /\
    getValue fuel r (mk_rstate (encode v ++ rest) st)
    = (mk_rstate rest (st ++ rextra), Ok (canon v)) /\
    (st ++ rextra) !! r = Some true /\
    encode (canon v) = encode v.
Proof.
  intros Hv Hk Hw Hr Hfuel. rewrite !encode_enc in *.
  destruct (writeValue_run v w s Hw) as [wextra Hwrite].
  destruct (getValue_enc v Hv Hk fuel r rest st Hr Hfuel) as [rextra Hread].
  exists wextra, rextra. split; [exact Hwrite |]. split; [exact Hread |].
  split; [apply lookup_app_l_Some; exact Hr | apply enc_canon; exact Hv].
Qed.

Lemma value_roundtrip_witness :
  exists wextra rextra,
    writeValue sample_value 0%nat wstate0
    = (mk_wstate (os_ wstate0 ++ encode sample_value)
         (wready_ wstate0 ++ wextra), Ok tt) /\
    getValue 30 0%nat (mk_rstate (encode sample_value ++ [chr "T"]) [true])
    = (mk_rstate [chr "T"] ([true] ++ rextra), Ok (canon sample_value)) /\
    ([true] ++ rextra) !! 0%nat = Some true /\
    encode (canon sample_value) = encode sample_value.
Proof.
  apply (value_roundtrip sample_value 0%nat wstate0 0%nat [true] [chr "T"] 30).
  - cbn. repeat split; try (apply Forall_nil; exact I);
      repeat (apply Forall_cons; split); try apply Forall_nil;
      try exact I; try discriminate; unfold INT64_MIN, INT64_MAX; try lia.
  - cbn. repeat split; intros c key' Heq; inversion Heq; subst; discriminate.
  - reflexivity.
  - reflexivity.
  - vm_compute. lia.
Defined.

(** ** Payloads read and written back *)

Lemma lor_shiftl_add n b k :
  0 <= k -> 0 <= n < 2 ^ k -> 0 <= b ->
  Z.lor n (Z.shiftl b k) = n + b * 2 ^ k.
Proof.
  intros Hk Hn Hb.
  assert (Hdisj : Z.land n (Z.shiftl b k) = 0).
  { apply Z.bits_inj'. intros i Hi.
    rewrite Z.land_spec, Z.bits_0.
    destruct (Z.lt_ge_cases i k) as [Hlt | Hge].
    - rewrite Z.shiftl_spec_low by lia. apply andb_false_r.
    - destruct (Z.eq_dec n 0) as [-> | Hn0]; [rewrite Z.bits_0; reflexivity |].
      rewrite (Z.bits_above_log2 n i); [reflexivity | lia |].
      apply Z.lt_le_trans with k; [| exact Hge].
      apply Z.log2_lt_pow2; lia. }
  rewrite <- Z.lxor_lor by exact Hdisj.
  rewrite <- Z.add_nocarry_lxor by exact Hdisj.
  rewrite Z.shiftl_mul_pow2 by lia. reflexivity.
Qed.

Lemma le_byte_low b x :
  0 <= b < 256 -> le_byte (b + 256 * x) 0 = b.
Proof.
  intros Hb. unfold le_byte. cbn [Z.of_nat]. rewrite Z.mul_0_r, Z.shiftr_0_r.
  change 255 with (Z.ones 8). rewrite Z.land_ones by lia.
  change (2 ^ 8) with 256.
  replace (b + 256 * x) with (b + x * 256) by lia.
  rewrite Z.mod_add by lia. apply Z.mod_small. lia.
Qed.

Lemma le_byte_high b x i :
  0 <= b < 256 -> le_byte (b + 256 * x) (S i) = le_byte x i.
Proof.
  intros Hb. unfold le_byte. f_equal.
  replace (8 * Z.of_nat (S i)) with (8 + 8 * Z.of_nat i) by lia.
  rewrite <- Z.shiftr_shiftr by lia. f_equal.
  rewrite Z.shiftr_div_pow2 by lia. change (2 ^ 8) with 256.
  replace (b + 256 * x) with (b + x * 256) by lia.
  rewrite Z.div_add by lia.
  rewrite (Z.div_small b 256) by lia. lia.
Qed.

(** The little-endian bytes of the number a payload stands for are the
    payload. *)
Lemma le_bytes_le_value bs :
  Forall (fun b => 0 <= b < 256) bs ->
  le_bytes (length bs) (le_value bs) = bs.
Proof.
  induction 1 as [| b bs Hb _ IH]; [reflexivity |].
  unfold le_bytes in *. cbn [length seq map le_value].
  rewrite (le_byte_low b _ Hb). f_equal.
  rewrite <- seq_shift, map_map.
  rewrite <- IH at 2. apply map_ext. intros i. apply le_byte_high. exact Hb.
Qed.

Lemma le_value_range bs :
  Forall (fun b => 0 <= b < 256) bs ->
  0 <= le_value bs < 2 ^ (8 * Z.of_nat (length bs)).
Proof.
  induction 1 as [| b bs Hb _ IH]; [cbn; lia |].
  cbn [le_value length].
  replace (8 * Z.of_nat (S (length bs))) with (8 + 8 * Z.of_nat (length bs))
    by lia.
  rewrite Z.pow_add_r by lia. change (2 ^ 8) with 256. nia.
Qed.

Lemma shifted_payload_byte b k :
  0 <= b < 256 -> 0 <= k ->
  Z.shiftl (uchar (uchar b)) k = b * 2 ^ k.
Proof.
  intros Hb Hk. rewrite !uchar_small by (rewrite ?uchar_small; lia).
  apply Z.shiftl_mul_pow2. exact Hk.
Qed.

Lemma Reader_getFloat_payload r b0 b1 b2 b3 rest st :
  st !! r = Some true ->
  Forall (fun b => 0 <= b < 256) [b0; b1; b2; b3] ->
  Reader_getFloat r (mk_rstate (chr "f" :: [b0; b1; b2; b3] ++ rest) st)
  = (mk_rstate rest st, Ok (le_value [b0; b1; b2; b3])).
Proof.
  intros Hr Hbs.
  repeat match goal with
         | H : Forall _ (_ :: _) |- _ => apply Forall_cons in H as [? H]
         end.
  unfold Reader_getFloat.
  rewrite (bind_ok _ _ _ _ _ (Reader_ready_mk r _ st Hr)).
  unfold bind at 1. unfold is_get. cbn [is_ rready_ negb app].
  change (uchar (chr "f") =? chr "f") with true. cbv iota. cbn [negb].
  do 4 rewrite (bind_ok _ _ _ _ _ (Reader_next_cons _ _ st)).
  unfold ret. do 2 f_equal.
  rewrite !shifted_payload_byte by lia.
  rewrite !uint32_small by lia.
  rewrite Z.lor_0_l.
  rewrite <- !Z.shiftl_mul_pow2 by lia. rewrite Z.shiftl_0_r.
  rewrite (lor_shiftl_add b0 b1 8) by lia.
  rewrite (lor_shiftl_add _ b2 16) by lia.
  rewrite (lor_shiftl_add _ b3 24) by lia.
  cbn [le_value]. lia.
Qed.

Lemma Reader_getDouble_payload r b0 b1 b2 b3 b4 b5 b6 b7 rest st :
  st !! r = Some true ->
  Forall (fun b => 0 <= b < 256) [b0; b1; b2; b3; b4; b5; b6; b7] ->
  Reader_getDouble r
    (mk_rstate (chr "d" :: [b0; b1; b2; b3; b4; b5; b6; b7] ++ rest) st)
  = (mk_rstate rest st, Ok (le_value [b0; b1; b2; b3; b4; b5; b6; b7])).
Proof.
  intros Hr Hbs.
  repeat match goal with
         | H : Forall _ (_ :: _) |- _ => apply Forall_cons in H as [? H]
         end.
  unfold Reader_getDouble.
  rewrite (bind_ok _ _ _ _ _ (Reader_ready_mk r _ st Hr)).
  unfold bind at 1. unfold is_get. cbn [is_ rready_ negb app].
  change (uchar (chr "d") =? chr "d") with true. cbv iota. cbn [negb].
  do 8 rewrite (bind_ok _ _ _ _ _ (Reader_next_cons _ _ st)).
  unfold ret. do 2 f_equal.
  rewrite !shifted_payload_byte by lia.
  rewrite !uint64_small by lia.
  rewrite Z.lor_0_l.
  rewrite <- !Z.shiftl_mul_pow2 by lia. rewrite Z.shiftl_0_r.
  rewrite (lor_shiftl_add b0 b1 8) by lia.
  rewrite (lor_shiftl_add _ b2 16) by lia.
  rewrite (lor_shiftl_add _ b3 24) by lia.
  rewrite (lor_shiftl_add _ b4 32) by lia.
  rewrite (lor_shiftl_add _ b5 40) by lia.
  rewrite (lor_shiftl_add _ b6 48) by lia.
  rewrite (lor_shiftl_add _ b7 56) by lia.
  cbn [le_value]. lia.
Qed.

(** X19: the float and double payloads are not validated and lose nothing.
    After the tag ['f'] every four bytes are accepted, after ['d'] every
    eight: the bit pattern returned is the little-endian number of the
    payload, it fits the width, and [writeFloat] (resp. [writeDouble]) of
    that bit pattern writes the tag and the same payload bytes again. *)
Theorem payload_roundtrip (w : Writer) (s : wstate) (r : Reader) (st : store)
    (fs ds rest : list Z) :
  wready_ s !! w = Some true -> st !! r = Some true ->
  Forall (fun b => 0 <= b < 256) fs -> length fs = 4%nat ->
  Forall (fun b => 0 <= b < 256) ds -> length ds = 8%nat ->
  (Reader_getFloat r (mk_rstate (chr "f" :: fs ++ rest) st)
   = (mk_rstate rest st, Ok (le_value fs)) /\
   0 <= le_value fs < 2 ^ 32 /\
   Writer_writeFloat w (le_value fs) s
   = (mk_wstate (os_ s ++ chr "f" :: fs) (wready_ s), Ok tt)) /\
  (Reader_getDouble r (mk_rstate (chr "d" :: ds ++ rest) st)
   = (mk_rstate rest st, Ok (le_value ds)) /\
   0 <= le_value ds < 2 ^ 64 /\
   Writer_writeDouble w (le_value ds) s
   = (mk_wstate (os_ s ++ chr "d" :: ds) (wready_ s), Ok tt)).
Proof.
  intros Hw Hr Hfs Hflen Hds Hdlen.
  pose proof (le_value_range fs Hfs) as Hfrange.
  pose proof (le_bytes_le_value fs Hfs) as Hfback.
  pose proof (le_value_range ds Hds) as Hdrange.
  pose proof (le_bytes_le_value ds Hds) as Hdback.
  rewrite Hflen in Hfrange, Hfback. rewrite Hdlen in Hdrange, Hdback.
  split; (split; [| split; [assumption |]]).
  - destruct fs as [| b0 [| b1 [| b2 [| b3 [| ? ?]]]]]; try discriminate.
    apply Reader_getFloat_payload; assumption.
  - pose proof (scalar_write_emits (SWFloat (le_value fs)) w s Hw) as He.
    cbn [run_scalar_write scalar_bytes] in He.
    rewrite uint32_small, Hfback in He by exact Hfrange. exact He.
  - destruct ds as [| b0 [| b1 [| b2 [| b3 [| b4 [| b5 [| b6 [| b7 [| ? ?]]]]]]]]];
      try discriminate.
    apply Reader_getDouble_payload; assumption.
  - pose proof (scalar_write_emits (SWDouble (le_value ds)) w s Hw) as He.
    cbn [run_scalar_write scalar_bytes] in He.
    rewrite uint64_small, Hdback in He by exact Hdrange. exact He.
Qed.

Lemma payload_roundtrip_witness :
  (Reader_getFloat 0%nat
     (mk_rstate (chr "f" :: [0; 0; 192; 127] ++ [chr "N"]) [true])
   = (mk_rstate [chr "N"] [true], Ok (le_value [0; 0; 192; 127])) /\
   0 <= le_value [0; 0; 192; 127] < 2 ^ 32 /\
   Writer_writeFloat 0%nat (le_value [0; 0; 192; 127]) wstate0
   = (mk_wstate (os_ wstate0 ++ chr "f" :: [0; 0; 192; 127]) (wready_ wstate0),
      Ok tt)) /\
  (Reader_getDouble 0%nat
     (mk_rstate (chr "d" :: [1; 0; 0; 0; 0; 0; 240; 255] ++ [chr "N"]) [true])
   = (mk_rstate [chr "N"] [true], Ok (le_value [1; 0; 0; 0; 0; 0; 240; 255])) /\
   0 <= le_value [1; 0; 0; 0; 0; 0; 240; 255] < 2 ^ 64 /\
   Writer_writeDouble 0%nat (le_value [1; 0; 0; 0; 0; 0; 240; 255]) wstate0
   = (mk_wstate (os_ wstate0 ++ chr "d" :: [1; 0; 0; 0; 0; 0; 240; 255])
        (wready_ wstate0), Ok tt)).
Proof.
  apply (payload_roundtrip 0%nat wstate0 0%nat [true]
           [0; 0; 192; 127] [1; 0; 0; 0; 0; 0; 240; 255] [chr "N"]).
  - reflexivity.
  - reflexivity.
  - repeat (apply Forall_cons; split; [lia |]). apply Forall_nil. exact I.
  - reflexivity.
  - repeat (apply Forall_cons; split; [lia |]). apply Forall_nil. exact I.
  - reflexivity.
Defined.

(** ** Usage errors come from the ready flag only *)

Lemma nue_bind {A B} (c : M rstate A) (k : A -> M rstate B) s :
  no_usage_error c s ->
  (forall a s', c s = (s', Ok a) -> no_usage_error (k a) s') ->
  no_usage_error (bind c k) s.
Proof.
  unfold no_usage_error, bind. intros Hc Hk.
  destruct (c s) as [s' [a | e | |]]; cbn [snd] in *;
    [apply (Hk a s' eq_refl) | | discriminate | discriminate].
  intros [= ->]. apply Hc. reflexivity.
Qed.

Lemma nue_ret {A} (a : A) s : no_usage_error (ret a) s.
Proof. discriminate. Qed.

Lemma nue_throw {A} msg s : no_usage_error (@throw rstate A (ParseError msg)) s.
Proof. discriminate. Qed.

Lemma nue_out_of_fuel {A} s : no_usage_error (@out_of_fuel rstate A) s.
Proof. discriminate. Qed.

Lemma nue_is_get s : no_usage_error is_get s.
Proof. unfold no_usage_error, is_get. destruct (is_ s); discriminate. Qed.

Lemma nue_is_peek s : no_usage_error is_peek s.
Proof. unfold no_usage_error, is_peek. destruct (is_ s); discriminate. Qed.

Lemma nue_new_Reader s : no_usage_error new_Reader s.
Proof. discriminate. Qed.

Lemma nue_set_ready r b s : no_usage_error (Reader_set_ready r b) s.
Proof. discriminate. Qed.

Lemma nue_copy r s : no_usage_error (Reader_copy r) s.
Proof.
  unfold no_usage_error, Reader_copy. destruct (rready_ s !! r); discriminate.
Qed.

Lemma nue_checkReady r s :
  rready_ s !! r = Some true -> no_usage_error (Reader_checkReady r) s.
Proof.
  intros Hr. unfold no_usage_error. rewrite (Reader_checkReady_ok r s Hr).
  discriminate.
Qed.

Lemma nue_on_input {A} (loop : list Z -> list Z * outcome A) s :
  (forall input, snd (loop input) <> Throw LogicError) ->
  no_usage_error (on_input loop) s.
Proof.
  intros Hl. unfold no_usage_error, on_input. specialize (Hl (is_ s)).
  destruct (loop (is_ s)) as [rest o]. exact Hl.
Qed.

Lemma nue_void {A} (c : M rstate A) s :
  no_usage_error c s -> no_usage_error (void c) s.
Proof.
  intros Hc. unfold void. apply nue_bind; [exact Hc |].
  intros a s' _. apply nue_ret.
Qed.

Lemma nextLEB128_loop_quiet input : forall num shift,
  snd (nextLEB128_loop input num shift) <> Throw LogicError.
Proof.
  induction input as [| c input IH]; intros num shift; cbn [nextLEB128_loop];
    [discriminate |].
  destruct (64 <=? shift); [discriminate |].
  destruct (128 <=? uchar c); [apply IH | discriminate].
Qed.

Lemma getString_loop_quiet input : forall acc,
  snd (getString_loop input acc) <> Throw LogicError.
Proof.
  induction input as [| c input IH]; intros acc; cbn [getString_loop];
    [discriminate |].
  destruct (negb (uchar c =? 0)); [apply IH | discriminate].
Qed.

Lemma skipString_loop_quiet input :
  snd (skipString_loop input) <> Throw LogicError.
Proof.
  induction input as [| c input IH]; cbn [skipString_loop]; [discriminate |].
  destruct (negb (uchar c =? 0)); [apply IH | discriminate].
Qed.

Lemma getBinary_loop_quiet input : forall size bin,
  snd (getBinary_loop input size bin) <> Throw LogicError.
Proof.
  induction input as [| c input IH]; intros size bin; cbn [getBinary_loop];
    destruct (Z.of_nat (length bin) <? size); try discriminate. apply IH.
Qed.

Lemma skipBinary_loop_quiet input : forall size,
  snd (skipBinary_loop input size) <> Throw LogicError.
Proof.
  induction input as [| c input IH]; intros size; cbn [skipBinary_loop];
    destruct (0 <? size); try discriminate. apply IH.
Qed.

Lemma ObjectReader_next_loop_quiet input : forall key,
  snd (ObjectReader_next_loop input key) <> Throw LogicError.
Proof.
  induction input as [| c input IH]; intros key; cbn [ObjectReader_next_loop];
    [discriminate |].
  destruct (uchar c =? 0); [discriminate | apply IH].
Qed.

Lemma nue_next s : no_usage_error Reader_next s.
Proof.
  unfold Reader_next. apply nue_bind; [apply nue_is_get |].
  intros ch s' _. destruct (ch =? EOF); [apply nue_throw | apply nue_ret].
Qed.

Lemma nue_nextLEB128 s : no_usage_error Reader_nextLEB128 s.
Proof.
  unfold Reader_nextLEB128. apply nue_on_input. intros input.
  apply nextLEB128_loop_quiet.
Qed.

(** One step of a proof that a computation ends in no usage error. *)
Ltac nue_step :=
  first
    [ apply nue_ret | apply nue_throw | apply nue_out_of_fuel
    | apply nue_is_get | apply nue_is_peek | apply nue_next
    | apply nue_nextLEB128 | apply nue_new_Reader | apply nue_set_ready
    | apply nue_copy
    | apply nue_checkReady; assumption
    | apply nue_void
    | apply nue_on_input; intros ?;
      first [ apply getString_loop_quiet | apply skipString_loop_quiet
            | apply getBinary_loop_quiet | apply skipBinary_loop_quiet
            | apply ObjectReader_next_loop_quiet ]
    | match goal with
      | |- no_usage_error (if ?b then _ else _) _ => destruct b
      end
    | apply nue_bind; [| intros ? ? _] ].

Lemma Reader_getType_peeks r s s' o : Reader_getType r s = (s', o) -> s' = s.
Proof.
  unfold Reader_getType, Reader_checkReady, bind, is_peek, ret, throw.
  destruct (rready_ s !! r) as [[|] |]; try (intros [= <- _]; reflexivity).
  destruct (is_ s) as [| c rest]; cbn [Z.eqb EOF];
    repeat match goal with
           | |- context [if ?b then _ else _] => destruct b
           end; intros [= <- _]; reflexivity.
Qed.

Lemma nue_scalar op r s :
  op <> RSkip -> rready_ s !! r = Some true -> no_usage_error (run_read op r) s.
Proof.
  intros Hop Hr. destruct op; try congruence; cbn [run_read];
    unfold Reader_getType, Reader_getBool, Reader_getNil, Reader_getString,
      Reader_skipString, Reader_getBinary, Reader_skipBinary, Reader_getFloat,
      Reader_getDouble, Reader_getInt, Reader_getUInt;
    cbv zeta; repeat nue_step.
Qed.

Lemma new_then_copy_ready s1 s2 s3 val r' :
  new_Reader s1 = (s2, Ok val) -> Reader_copy val s2 = (s3, Ok r') ->
  rready_ s3 !! r' = Some true.
Proof.
  unfold new_Reader. intros [= <- <-]. unfold Reader_copy. cbn [is_ rready_].
  rewrite lookup_fresh. intros [= <- <-]. cbn [rready_]. apply lookup_fresh.
Qed.

Section Skip_raises_no_usage_error.
Variable f : nat.
Hypothesis skip_quiet :
  forall r s, rready_ s !! r = Some true -> no_usage_error (Reader_skip_fuel f r) s.

Lemma nue_skip_elements n : forall env s,
  no_usage_error
    (ArrayReader_all n tt
       (fun val _ => r' <- Reader_copy val ;; Reader_skip_fuel f r') env) s.
Proof.
  induction n as [| n IH]; intros env s; cbn [ArrayReader_all];
    [apply nue_out_of_fuel |].
  unfold ArrayReader_hasNext. apply nue_bind; [repeat nue_step |].
  intros b s1 _. destruct b; [| apply nue_ret].
  unfold ArrayReader_next. apply nue_bind; [apply nue_new_Reader |].
  intros val s2 Hnew. apply nue_bind; [| intros ? ? _; apply IH].
  apply nue_bind; [apply nue_copy |].
  intros r' s3 Hcopy. apply skip_quiet.
  exact (new_then_copy_ready _ _ _ _ _ Hnew Hcopy).
Qed.

Lemma nue_skip_entries n : forall env s,
  no_usage_error
    (ObjectReader_all n tt
       (fun _ val _ => r' <- Reader_copy val ;; Reader_skip_fuel f r') env) s.
Proof.
  induction n as [| n IH]; intros env s; cbn [ObjectReader_all];
    [apply nue_out_of_fuel |].
  unfold ObjectReader_hasNext. apply nue_bind; [repeat nue_step |].
  intros b s1 _. destruct b; [| apply nue_ret].
  apply nue_bind; [unfold ObjectReader_next; repeat nue_step |].
  intros [key val] s3 Hnext. cbn [fst snd].
  apply nue_bind; [| intros ? ? _; apply IH].
  apply nue_bind; [apply nue_copy |].
  intros r' s4 Hcopy. apply skip_quiet.
  unfold ObjectReader_next, bind in Hnext.
  destruct (on_input (fun input => ObjectReader_next_loop input []) s1)
    as [s2 [key' | | |]]; try discriminate.
  destruct (new_Reader s2) as [s2' o] eqn:Hnew.
  unfold new_Reader in Hnew. injection Hnew as <- <-.
  unfold ret in Hnext. injection Hnext as <- _ <-.
  exact (new_then_copy_ready s2 _ _ _ _ eq_refl Hcopy).
Qed.
End Skip_raises_no_usage_error.

Lemma nue_skip_fuel fuel : forall r s,
  rready_ s !! r = Some true -> no_usage_error (Reader_skip_fuel fuel r) s.
Proof.
  induction fuel as [| f IH]; intros r s Hr; cbn [Reader_skip_fuel];
    [apply nue_out_of_fuel |].
  apply nue_bind; [unfold Reader_getType; repeat nue_step |].
  intros t s' Ht. apply Reader_getType_peeks in Ht. subst s'.
  destruct t;
    try (first [ apply (nue_scalar RBool r s) | apply (nue_scalar RNil r s)
               | apply (nue_scalar RSkipString r s)
               | apply (nue_scalar RSkipBinary r s)
               | apply (nue_scalar RFloat r s) | apply (nue_scalar RDouble r s)
               | apply (nue_scalar RInt r s) | apply (nue_scalar RUInt r s) ];
         [discriminate | exact Hr]).
  - unfold Reader_readArray, Reader_getArray.
    apply nue_bind; [apply nue_checkReady; exact Hr | intros ? ? _].
    apply nue_bind; [apply nue_next | intros ? ? _].
    match goal with
    | |- no_usage_error (if ?b then _ else _) _ => destruct b
    end; [apply nue_throw |].
    apply nue_bind; [apply nue_set_ready | intros ? ? _].
    apply nue_bind; [apply (nue_skip_elements f IH) | intros ? ? _].
    repeat nue_step.
  - unfold Reader_readObject, Reader_getObject.
    apply nue_bind; [apply nue_checkReady; exact Hr | intros ? ? _].
    apply nue_bind; [apply nue_next | intros ? ? _].
    match goal with
    | |- no_usage_error (if ?b then _ else _) _ => destruct b
    end; [apply nue_throw |].
    apply nue_bind; [apply nue_set_ready | intros ? ? _].
    apply nue_bind; [apply (nue_skip_entries f IH) | intros ? ? _].
    repeat nue_step.
Qed.

(** X21: usage errors come from the ready flag only.  Whatever the input,
    a read operation (the typed gets, [getType], the skips) on a [Reader]
    that is ready never ends in a [LogicError], and on a suspended one it
    always does: every exception a ready reader raises is a [ParseError],
    whose [what()] starts with the parse error prefix.  For [skip] this
    covers the readers it creates for the elements at any depth. *)
Theorem usage_error_iff_suspended (op : read_op) (r : Reader) (s : rstate)
    (b : bool) :
  rready_ s !! r = Some b ->
  (snd (run_read op r s) = Throw LogicError <-> b = false) /\
  (b = true ->
   forall e, snd (run_read op r s) = Throw e ->
     exists msg, e = ParseError msg /\
       what e = ("NBON parse error: " ++ msg)%string).
Proof.
  intros Hr.
  assert (Hquiet : b = true -> snd (run_read op r s) <> Throw LogicError).
  { intros ->. destruct op;
      try (apply (nue_scalar _ r s); [discriminate | exact Hr]).
    cbn [run_read]. unfold Reader_skip.
    apply (nue_skip_fuel (S (length (is_ s))) r s Hr). }
  split; [split |].
  - intros He. destruct b; [| reflexivity].
    exfalso. apply (Hquiet eq_refl). exact He.
  - intros ->. rewrite (read_suspended op r s Hr). reflexivity.
  - intros Hb e He. destruct e as [| msg].
    + exfalso. apply (Hquiet Hb). exact He.
    + exists msg. split; reflexivity.
Qed.

Lemma usage_error_iff_suspended_witness :
  (snd (run_read RSkip 0%nat (rstate0 [chr "["; chr "["; chr "T"]))
   = Throw LogicError <-> true = false) /\
  (true = true ->
   forall e,
     snd (run_read RSkip 0%nat (rstate0 [chr "["; chr "["; chr "T"])) = Throw e ->
     exists msg, e = ParseError msg /\
       what e = ("NBON parse error: " ++ msg)%string).
Proof.
  apply (usage_error_iff_suspended RSkip 0%nat
           (rstate0 [chr "["; chr "["; chr "T"]) true).
  reflexivity.
Defined.

(** ** Truncated objects *)

Lemma ObjectReader_next_loop_eof key : forall acc,
  Forall (fun c => uchar c <> 0) key ->
  ObjectReader_next_loop key acc
  = ([], Throw (ParseError "ObjectReader::next: Unexpected EOF")).
Proof.
  induction key as [| c key IH]; intros acc Hk; cbn [ObjectReader_next_loop];
    [reflexivity |].
  apply Forall_cons in Hk as [Hc Hk]. apply Z.eqb_neq in Hc. rewrite Hc.
  apply IH. exact Hk.
Qed.

Lemma ObjectReader_hasNext_cons c rest st :
  uchar c <> chr "}" ->
  ObjectReader_hasNext tt (mk_rstate (c :: rest) st)
  = (mk_rstate (c :: rest) st, Ok true).
Proof.
  intros Hc. unfold ObjectReader_hasNext, bind, is_peek. cbn [is_ rready_].
  pose proof (uchar_range c) as Hr. unfold ret.
  norm_chr. decide_tests. reflexivity.
Qed.

(** X22: an object whose first key is made of non-NUL bytes and does not
    begin with ['}'], cut short, is a format error, and where it is cut
    decides what is left behind.  Cut right after ['{'], [readObject] finds
    no entry and fails reading the closer, with the parent ready again.  Cut
    inside the key, [ObjectReader::next] reads to the end of the input and
    throws; the callback is not run and the parent stays suspended.  Cut
    after the key, the callback is run with that key and a new [Reader], on
    which every read operation fails at once.  (A key that begins with
    ['}'] is excluded: the reader takes its first byte for the
    terminator.) *)
Theorem truncated_object_is_format_error (r : Reader) (st : store)
    (key : list Z) :
  st !! r = Some true ->
  Forall (fun c => 0 < c < 256) key ->
  (forall c key', key = c :: key' -> c <> chr "}") ->
  (forall A fuel (func : list Z -> Reader -> A -> M rstate A) env,
     Reader_readObject (S fuel) r func env (mk_rstate [chr "{"] st)
     = (mk_rstate [] st, Throw (ParseError "Unexpected EOF"))) /\
  (key <> [] ->
   forall A fuel (func : list Z -> Reader -> A -> M rstate A) env,
     Reader_readObject (S fuel) r func env (mk_rstate (chr "{" :: key) st)
     = (mk_rstate [] (<[r := false]> st),
        Throw (ParseError "ObjectReader::next: Unexpected EOF"))) /\
  (forall op fuel, exists msg,
     Reader_readObject (S fuel) r (fun _ val _ => run_read op val) tt
       (mk_rstate (chr "{" :: key ++ [0]) st)
     = (mk_rstate [] (<[r := false]> st ++ [true]), Throw (ParseError msg))).
Proof.
  intros Hr Hkey Hhead.
  assert (Hid : map uchar key = key).
  { apply map_uchar_id. eapply Forall_impl; [exact Hkey |]. cbn. lia. }
  assert (Hnul : Forall (fun c => uchar c <> 0) key).
  { eapply Forall_impl; [exact Hkey |]. cbn. intros c Hc.
    rewrite uchar_small by lia. lia. }
  assert (Hhead' : forall c key', key = c :: key' -> uchar c <> chr "}").
  { intros c key' ->. apply Forall_cons in Hkey as [Hc _].
    rewrite uchar_small by lia. apply (Hhead c key' eq_refl). }
  split; [| split].
  - intros A fuel func env. unfold Reader_readObject.
    rewrite (Reader_getObject_enter r _ env [] st Hr).
    cbn [ObjectReader_all].
    assert (Hno : ObjectReader_hasNext tt (mk_rstate [] (<[r := false]> st))
                  = (mk_rstate [] (<[r := false]> st), Ok false)) by reflexivity.
    rewrite bind_assoc, (bind_ok _ _ _ _ _ Hno).
    unfold ret at 1. unfold bind at 1. unfold bind at 1.
    unfold Reader_set_ready. cbn [is_ rready_].
    rewrite insert_restore by exact Hr. reflexivity.
  - intros Hne A fuel func env. unfold Reader_readObject.
    rewrite (Reader_getObject_enter r _ env key st Hr).
    cbn [ObjectReader_all].
    destruct key as [| c key']; [congruence |].
    rewrite bind_assoc.
    rewrite (bind_ok _ _ _ _ _
               (ObjectReader_hasNext_cons c key' _ (Hhead' c key' eq_refl))).
    apply bind_throw. apply bind_throw.
    unfold ObjectReader_next. apply bind_throw.
    unfold on_input. cbn [is_ rready_].
    rewrite (ObjectReader_next_loop_eof (c :: key') [] Hnul). reflexivity.
  - intros op fuel.
    destruct (read_at_eof op (length (<[r := false]> st))
                (<[r := false]> st ++ [true]) (lookup_fresh _ _)) as [msg Hop].
    exists msg. unfold Reader_readObject.
    rewrite (Reader_getObject_enter r _ tt (key ++ [0]) st Hr).
    cbn [ObjectReader_all]. rewrite <- Hid.
    rewrite bind_assoc.
    rewrite (bind_ok _ _ _ _ _ (ObjectReader_hasNext_key key [] _ Hhead')).
    apply bind_throw.
    rewrite (bind_ok _ _ _ _ _ (ObjectReader_next_run key [] _ Hnul)).
    cbn [fst snd]. apply bind_throw. exact Hop.
Qed.

Lemma truncated_object_is_format_error_witness :
  (forall A fuel (func : list Z -> Reader -> A -> M rstate A) env,
     Reader_readObject (S fuel) 0%nat func env (mk_rstate [chr "{"] [true])
     = (mk_rstate [] [true], Throw (ParseError "Unexpected EOF"))) /\
  ([chr "a"; chr "b"] <> [] ->
   forall A fuel (func : list Z -> Reader -> A -> M rstate A) env,
     Reader_readObject (S fuel) 0%nat func env
       (mk_rstate (chr "{" :: [chr "a"; chr "b"]) [true])
     = (mk_rstate [] (<[0%nat := false]> [true]),
        Throw (ParseError "ObjectReader::next: Unexpected EOF"))) /\
  (forall op fuel, exists msg,
     Reader_readObject (S fuel) 0%nat (fun _ val _ => run_read op val) tt
       (mk_rstate (chr "{" :: [chr "a"; chr "b"] ++ [0]) [true])
     = (mk_rstate [] (<[0%nat := false]> [true] ++ [true]),
        Throw (ParseError msg))).
Proof.
  apply (truncated_object_is_format_error 0%nat [true] [chr "a"; chr "b"]).
  - reflexivity.
  - repeat (apply Forall_cons; split; [vm_compute; split; reflexivity |]).
    apply Forall_nil. exact I.
  - intros c key' [= <- _]. discriminate.
Defined.

(** ** Truncated encodings *)

Lemma app_snoc_prefix {A} (l p q : list A) x :
  l ++ [x] = p ++ q -> q <> [] -> exists l', l = p ++ l'.
Proof.
  intros He Hq. apply app_eq_app in He as [l' [[Hl Hq'] | [Hp Hx]]].
  - exists l'. exact Hl.
  - destruct l' as [| y l']; [exists []; rewrite app_nil_r in Hp; subst;
                                 rewrite app_nil_r; reflexivity |].
    injection Hx as _ Hx. destruct l'; [| discriminate].
    destruct q; [congruence | discriminate].
Qed.

Lemma leb_groups_prefix_continues k : forall num p l,
  needs_groups num k -> leb_groups k num = p ++ l -> l <> [] ->
  Forall (fun b => 128 <= uchar b) p.
Proof.
  induction k as [| k IH]; intros num p l Hg He Hl.
  { destruct Hg as (Hk & _). lia. }
  destruct p as [| b p]; [apply Forall_nil; exact I |].
  cbn [leb_groups app] in He. injection He as Hb He.
  destruct k as [| k].
  { cbn [leb_groups] in He. destruct p; [| discriminate].
    destruct l; [congruence | discriminate]. }
  destruct (needs_groups_step _ _ Hg) as (Hbig & _ & Hg').
  apply Forall_cons. split; [| apply (IH _ _ l Hg' He Hl)].
  subst b. rewrite (uchar_small _ (leb_byte_range num)).
  apply Z.leb_le. rewrite leb_byte_ge_128. apply Z.ltb_lt. exact Hbig.
Qed.

(** A varint cut short makes the decoder run into the end of the input. *)
Lemma Reader_nextLEB128_prefix m p l st :
  0 <= m < 2 ^ 64 -> LEB128_bytes m = p ++ l -> l <> [] ->
  Reader_nextLEB128 (mk_rstate p st)
  = (mk_rstate [] st, Throw (ParseError "Unexpected EOF")).
Proof.
  intros Hm He Hl.
  destruct (needs_groups_exists m Hm) as [k Hg].
  assert (Hg' : needs_groups (uint64 m) k) by (rewrite uint64_small; assumption).
  rewrite (LEB128_bytes_groups m k Hg'), (uint64_small m Hm) in He.
  pose proof (needs_groups_le_10 m k ltac:(lia) Hg) as Hk.
  pose proof (leb_groups_length k m) as Hlen.
  rewrite He, length_app in Hlen.
  assert (Hl' : (1 <= length l)%nat) by (destruct l; [congruence | cbn; lia]).
  pose proof (leb_groups_prefix_continues k m p l Hg He Hl) as Hc.
  destruct (nextLEB128_loop_continues p [] 0 0 Hc ltac:(lia) ltac:(lia))
    as (num' & Hrun & _).
  rewrite app_nil_r in Hrun.
  unfold Reader_nextLEB128, on_input. cbn [is_ rready_]. rewrite Hrun.
  reflexivity.
Qed.

Lemma Reader_getType_head r c a b st o :
  Reader_getType r (mk_rstate (c :: a) st) = (mk_rstate (c :: a) st, o) ->
  Reader_getType r (mk_rstate (c :: b) st) = (mk_rstate (c :: b) st, o).
Proof.
  unfold Reader_getType, Reader_checkReady, bind, is_peek, ret, throw.
  cbv beta iota zeta delta [is_ rready_].
  destruct (st !! r) as [[|] |]; try (intros [= <-]; reflexivity).
  repeat match goal with
         | |- context [if ?t then _ else _] => destruct t
         end; intros [= <-]; reflexivity.
Qed.

Lemma Reader_getType_eof r st :
  st !! r = Some true ->
  Reader_getType r (mk_rstate [] st)
  = (mk_rstate [] st, Throw (ParseError "Unexpected EOF")).
Proof.
  intros Hr. unfold Reader_getType.
  rewrite (bind_ok _ _ _ _ _ (Reader_ready_mk r _ st Hr)). reflexivity.
Qed.

Lemma Reader_skipString_eof r str st :
  st !! r = Some true -> Forall (fun c => uchar c <> 0) str ->
  Reader_skipString r (mk_rstate (chr "S" :: str) st)
  = (mk_rstate [] st, Throw (ParseError "Unexpected EOF")).
Proof.
  intros Hr Hs. unfold Reader_skipString.
  rewrite (bind_ok _ _ _ _ _ (Reader_ready_mk r _ st Hr)).
  unfold bind, is_get, on_input. cbn [is_ rready_].
  change (negb (uchar (chr "S") =? chr "S")) with false. cbv iota.
  cbn [is_ rready_]. rewrite (skipString_loop_eof str Hs). reflexivity.
Qed.

Lemma Reader_skipBinary_eof r size data st :
  st !! r = Some true -> Z.of_nat (length data) < size < 2 ^ 64 ->
  Reader_skipBinary r (mk_rstate (chr "B" :: LEB128_bytes size ++ data) st)
  = (mk_rstate [] st, Throw (ParseError "Unexpected EOF")).
Proof.
  intros Hr Hs. assert (Hl : 0 <= size < 2 ^ 64) by lia.
  unfold Reader_skipBinary.
  rewrite (bind_ok _ _ _ _ _ (Reader_ready_mk r _ st Hr)).
  unfold bind at 1. unfold is_get. cbn [is_ rready_].
  change (negb (uchar (chr "B") =? chr "B")) with false. cbv iota.
  rewrite (bind_ok _ _ _ _ _ (Reader_nextLEB128_bytes _ _ st Hl)).
  unfold on_input. cbn [is_ rready_]. rewrite uint64_small by exact Hl.
  rewrite skipBinary_loop_eof by lia. reflexivity.
Qed.

Lemma Reader_skipBinary_length_eof r p st :
  st !! r = Some true ->
  Reader_nextLEB128 (mk_rstate p st)
  = (mk_rstate [] st, Throw (ParseError "Unexpected EOF")) ->
  Reader_skipBinary r (mk_rstate (chr "B" :: p) st)
  = (mk_rstate [] st, Throw (ParseError "Unexpected EOF")).
Proof.
  intros Hr Hp. unfold Reader_skipBinary.
  rewrite (bind_ok _ _ _ _ _ (Reader_ready_mk r _ st Hr)).
  unfold bind at 1. unfold is_get. cbn [is_ rready_].
  change (negb (uchar (chr "B") =? chr "B")) with false. cbv iota.
  apply bind_throw. exact Hp.
Qed.

Lemma Reader_getFloat_eof r payload st :
  st !! r = Some true -> (length payload < 4)%nat ->
  Reader_getFloat r (mk_rstate (chr "f" :: payload) st)
  = (mk_rstate [] st, Throw (ParseError "Unexpected EOF")).
Proof.
  intros Hr Hlen. unfold Reader_getFloat.
  rewrite (bind_ok _ _ _ _ _ (Reader_ready_mk r _ st Hr)).
  unfold bind at 1. unfold is_get. cbn [is_ rready_].
  change (negb (uchar (chr "f") =? chr "f")) with false. cbv iota.
  destruct payload as [| b0 [| b1 [| b2 [| b3 ?]]]];
    cbn [length] in Hlen; try lia;
    repeat rewrite (bind_ok _ _ _ _ _ (Reader_next_cons _ _ st));
    reflexivity.
Qed.

Lemma Reader_getDouble_eof r payload st :
  st !! r = Some true -> (length payload < 8)%nat ->
  Reader_getDouble r (mk_rstate (chr "d" :: payload) st)
  = (mk_rstate [] st, Throw (ParseError "Unexpected EOF")).
Proof.
  intros Hr Hlen. unfold Reader_getDouble.
  rewrite (bind_ok _ _ _ _ _ (Reader_ready_mk r _ st Hr)).
  unfold bind at 1. unfold is_get. cbn [is_ rready_].
  change (negb (uchar (chr "d") =? chr "d")) with false. cbv iota.
  destruct payload as [| b0 [| b1 [| b2 [| b3 [| b4 [| b5 [| b6 [| b7 ?]]]]]]]];
    cbn [length] in Hlen; try lia;
    repeat rewrite (bind_ok _ _ _ _ _ (Reader_next_cons _ _ st));
    reflexivity.
Qed.

Lemma Reader_getInt_varint_eof r sign p st :
  st !! r = Some true -> sign = chr "+" \/ sign = chr "-" ->
  Reader_nextLEB128 (mk_rstate p st)
  = (mk_rstate [] st, Throw (ParseError "Unexpected EOF")) ->
  Reader_getInt r (mk_rstate (sign :: p) st)
  = (mk_rstate [] st, Throw (ParseError "Unexpected EOF")).
Proof.
  intros Hr Hsign Hp. unfold Reader_getInt.
  rewrite (bind_ok _ _ _ _ _ (Reader_ready_mk r _ st Hr)).
  rewrite (bind_ok _ _ _ _ _ (Reader_next_cons _ _ st)).
  destruct Hsign as [-> | ->].
  - change (uchar (chr "+")) with 43.
    change ((chr "0" <=? 43) && (43 <=? chr "9")) with false.
    change (43 =? chr "+") with true. cbv iota.
    apply bind_throw. exact Hp.
  - change (uchar (chr "-")) with 45.
    change ((chr "0" <=? 45) && (45 <=? chr "9")) with false.
    change (45 =? chr "+") with false. change (45 =? chr "-") with true.
    cbv iota. apply bind_throw. exact Hp.
Qed.

Lemma Reader_getUInt_varint_eof r p st :
  st !! r = Some true ->
  Reader_nextLEB128 (mk_rstate p st)
  = (mk_rstate [] st, Throw (ParseError "Unexpected EOF")) ->
  Reader_getUInt r (mk_rstate (chr "+" :: p) st)
  = (mk_rstate [] st, Throw (ParseError "Unexpected EOF")).
Proof.
  intros Hr Hp. unfold Reader_getUInt.
  rewrite (bind_ok _ _ _ _ _ (Reader_ready_mk r _ st Hr)).
  rewrite (bind_ok _ _ _ _ _ (Reader_next_cons _ _ st)).
  change (uchar (chr "+")) with 43.
  change ((chr "0" <=? 43) && (43 <=? chr "9")) with false.
  change (43 =? chr "+") with true. cbv iota. exact Hp.
Qed.

Lemma le_bytes_length n x : length (le_bytes n x) = n.
Proof. unfold le_bytes. rewrite length_map. apply length_seq. Qed.

Lemma proper_prefix_length {A} (l p q : list A) :
  l = p ++ q -> q <> [] -> (length p < length l)%nat.
Proof.
  intros -> Hq. rewrite length_app. destruct q; [congruence | cbn; lia].
Qed.

(** [skip] on a scalar's encoding cut short. *)
Lemma skip_scalar_prefix v fuel r p q st :
  scalar v -> valid v -> enc v = p ++ q -> q <> [] -> st !! r = Some true ->
  exists msg,
    Reader_skip_fuel (S fuel) r (mk_rstate p st)
    = (mk_rstate [] st, Throw (ParseError msg)).
Proof.
  intros Hs Hv He Hq Hr. cbn [Reader_skip_fuel].
  destruct p as [| tag p].
  { eexists. apply bind_throw. apply Reader_getType_eof. exact Hr. }
  pose proof (Reader_getType_enc v r [] st Hv Hr) as Ht.
  rewrite app_nil_r, He in Ht. cbn [app] in Ht.
  apply (Reader_getType_head r tag (p ++ q) p) in Ht.
  rewrite (bind_ok _ _ _ _ _ Ht). clear Ht.
  cbn [app] in He.
  assert (Hleb : forall m, 0 <= m < 2 ^ 64 -> LEB128_bytes m = p ++ q ->
            Reader_nextLEB128 (mk_rstate p st)
            = (mk_rstate [] st, Throw (ParseError "Unexpected EOF"))).
  { intros m Hm Hb. apply (Reader_nextLEB128_prefix m p q st Hm Hb Hq). }
  assert (Hone : forall x : Z, [x] = tag :: p ++ q -> False).
  { intros x [= _ Hx]. destruct p; [| discriminate].
    destruct q; [congruence | discriminate]. }
  destruct v; try contradiction;
    cbn [enc scalar_bytes type_of_value valid] in *.
  - destruct (Hone _ He).
  - destruct (Hone _ He).
  - injection He as <- He. rewrite (c_str_id str Hv) in He.
    destruct (app_snoc_prefix _ _ _ _ He Hq) as [l' Hl].
    pose proof (nonzero_map_uchar str Hv) as Hnz.
    rewrite Hl in Hnz. apply Forall_app in Hnz as [Hnz _].
    assert (Hnz' : Forall (fun c => uchar c <> 0) p).
    { eapply Forall_impl; [exact Hnz |]. cbn. intros c Hc. exact Hc. }
    eexists. apply Reader_skipString_eof; assumption.
  - injection He as <- He.
    assert (Hlen : 0 <= Z.of_nat (length data) < 2 ^ 64) by lia.
    apply app_eq_app in He as [l [[Hl Hq'] | [Hp Hd]]].
    + destruct l as [| x l].
      * rewrite app_nil_r in Hl. subst p. cbn [app] in Hq'. subst q.
        eexists.
        rewrite <- (app_nil_r (LEB128_bytes (Z.of_nat (length data)))).
        apply Reader_skipBinary_eof; [exact Hr |].
        destruct data; [cbn [map] in Hq; congruence |]. cbn [length] in *. lia.
      * eexists. apply Reader_skipBinary_length_eof; [exact Hr |].
        apply (Reader_nextLEB128_prefix _ p (x :: l) st Hlen Hl). discriminate.
    + subst p. eexists. apply Reader_skipBinary_eof; [exact Hr |].
      pose proof (proper_prefix_length _ _ _ Hd Hq) as Hlt.
      rewrite length_map in Hlt. lia.
  - injection He as <- He. eexists. apply void_throw.
    apply Reader_getFloat_eof; [exact Hr |].
    pose proof (proper_prefix_length _ _ _ He Hq) as Hlt.
    rewrite le_bytes_length in Hlt. exact Hlt.
  - injection He as <- He. eexists. apply void_throw.
    apply Reader_getDouble_eof; [exact Hr |].
    pose proof (proper_prefix_length _ _ _ He Hq) as Hlt.
    rewrite le_bytes_length in Hlt. exact Hlt.
  - unfold INT64_MIN, INT64_MAX in *.
    destruct (Z.ltb_spec num 0) as [Hneg | Hpos].
    + eexists. apply void_throw.
      destruct (Z.eqb_spec num (- 2 ^ 63)) as [-> | Hne]; injection He as <- He.
      * apply Reader_getInt_varint_eof; [exact Hr | right; reflexivity |].
        apply (Hleb (2 ^ 63)); [lia | exact He].
      * rewrite int64_small in He by lia.
        apply Reader_getInt_varint_eof; [exact Hr | right; reflexivity |].
        apply (Hleb (- num)); [lia | exact He].
    + destruct (Z.eqb_spec num (- 2 ^ 63)) as [-> | Hne]; [lia |].
      destruct (Z.leb_spec num 9) as [H9 | H10]; [destruct (Hone _ He) |].
      injection He as <- He. eexists. apply void_throw.
      apply Reader_getUInt_varint_eof; [exact Hr |].
      apply (Hleb num); [lia | exact He].
  - destruct (Z.leb_spec num 9) as [H9 | H10]; [destruct (Hone _ He) |].
    injection He as <- He. eexists. apply void_throw.
    apply Reader_getUInt_varint_eof; [exact Hr |].
    apply (Hleb num); [lia | exact He].
Qed.

Lemma ArrayReader_hasNext_cons c rest st :
  uchar c <> chr "]" ->
  ArrayReader_hasNext tt (mk_rstate (c :: rest) st)
  = (mk_rstate (c :: rest) st, Ok true).
Proof.
  intros Hc. unfold ArrayReader_hasNext, bind, is_peek. cbn [is_ rready_].
  pose proof (uchar_range c) as Hr. unfold ret.
  norm_chr. decide_tests. reflexivity.
Qed.

(** The loop of [skip] over the elements of an array cut short: it ends at
    the end of the input, either normally (the cut is between two elements)
    or with a [ParseError] (the cut is inside an element). *)
Lemma skip_elements_prefix f vs :
  Forall (fun v => valid v /\ keys_readable v /\ rejects_prefixes f v) vs ->
  forall n p q st,
    flat_map enc vs ++ [chr "]"] = p ++ q -> q <> [] ->
    (length p < n)%nat -> (length p < f)%nat ->
    exists st' o,
      ArrayReader_all n tt
        (fun val _ => r' <- Reader_copy val ;; Reader_skip_fuel f r') tt
        (mk_rstate p st)
      = (mk_rstate [] st', o) /\
      (o = Ok tt \/ exists msg, o = Throw (ParseError msg)).
Proof.
  induction 1 as [| v vs (Hv & Hk & Hrej) _ IH]; intros n p q st He Hq Hn Hf;
    (destruct n as [| n]; [lia |]); cbn [ArrayReader_all flat_map app] in *.
  - destruct p as [| c p].
    + exists st, (Ok tt). split; [reflexivity | left; reflexivity].
    + injection He as _ He. destruct p; [| discriminate].
      destruct q; [congruence | discriminate].
  - rewrite <- app_assoc in He.
    assert (Hfull : forall l, p = enc v ++ l ->
              flat_map enc vs ++ [chr "]"] = l ++ q ->
              exists st' o,
                (b <- ArrayReader_hasNext tt ;;
                 if (b : bool) then
                   val <- ArrayReader_next tt ;;
                   env <- (r' <- Reader_copy val ;; Reader_skip_fuel f r') ;;
                   ArrayReader_all n tt
                     (fun val _ => r' <- Reader_copy val ;; Reader_skip_fuel f r')
                     env
                 else ret tt) (mk_rstate p st)
                = (mk_rstate [] st', o) /\
                (o = Ok tt \/ exists msg, o = Throw (ParseError msg))).
    { intros l -> Hl. rewrite length_app in Hn, Hf.
      pose proof (enc_nonempty v Hv) as Hne.
      rewrite (bind_ok _ _ _ _ _ (ArrayReader_hasNext_enc v _ st Hv)).
      unfold ArrayReader_next. unfold bind at 1. unfold new_Reader.
      cbn [is_ rready_]. rewrite bind_assoc.
      rewrite (bind_ok _ _ _ _ _ (Reader_copy_fresh _ st true)).
      destruct (skip_enc v Hv Hk f (length (st ++ [true])) l
                  ((st ++ [true]) ++ [true]) (lookup_fresh _ _) ltac:(lia))
        as [e1 H1].
      rewrite (bind_ok _ _ _ _ _ H1).
      apply (IH n l q _ Hl Hq); lia. }
    apply app_eq_app in He as [l [[Hl Hq'] | [Hp Hrest]]].
    + destruct l as [| x l].
      { rewrite app_nil_r in Hl. apply (Hfull []).
        - rewrite app_nil_r. symmetry. exact Hl.
        - cbn [app] in *. symmetry. exact Hq'. }
      destruct p as [| c p].
      { exists st, (Ok tt). split; [reflexivity | left; reflexivity]. }
      destruct (enc_head v Hv) as (tag & tl & Htag & Hb & Hclose & _).
      assert (tag = c) as -> by (rewrite Htag in Hl; injection Hl as -> _; reflexivity).
      rewrite (bind_ok _ _ _ _ _
                 (ArrayReader_hasNext_cons c p st
                    ltac:(rewrite uchar_small by exact Hb; exact Hclose))).
      unfold ArrayReader_next. unfold bind at 1. unfold new_Reader.
      cbn [is_ rready_]. rewrite bind_assoc.
      rewrite (bind_ok _ _ _ _ _ (Reader_copy_fresh _ st true)).
      destruct (Hrej (c :: p) (x :: l) (length (st ++ [true]))
                  ((st ++ [true]) ++ [true]) Hl ltac:(discriminate) Hf
                  (lookup_fresh _ _)) as (st' & msg & H1).
      exists st', (Throw (ParseError msg)).
      split; [apply bind_throw; exact H1 | right; exists msg; reflexivity].
    + apply (Hfull l Hp Hrest).
Qed.

Lemma skip_entries_prefix f kvs :
  Forall (fun kv =>
            Forall (fun c => uchar c <> 0) (fst kv) /\
            (forall c key', fst kv = c :: key' -> uchar c <> chr "}") /\
            valid (snd kv) /\ keys_readable (snd kv) /\
            rejects_prefixes f (snd kv)) kvs ->
  forall n p q st,
    flat_map (fun kv => (map uchar (c_str (fst kv)) ++ [0]) ++ enc (snd kv)) kvs
      ++ [chr "}"] = p ++ q ->
    q <> [] -> (length p < n)%nat -> (length p < f)%nat ->
    exists st' o,
      ObjectReader_all n tt
        (fun _ val _ => r' <- Reader_copy val ;; Reader_skip_fuel f r') tt
        (mk_rstate p st)
      = (mk_rstate [] st', o) /\
      (o = Ok tt \/ exists msg, o = Throw (ParseError msg)).
Proof.
  induction 1 as [| [key v] kvs (Hnul & Hhead & Hv & Hk & Hrej) _ IH];
    intros n p q st He Hq Hn Hf;
    (destruct n as [| n]; [lia |]);
    cbn [ObjectReader_all flat_map app fst snd] in *.
  - destruct p as [| c p].
    + exists st, (Ok tt). split; [reflexivity | left; reflexivity].
    + injection He as _ He. destruct p; [| discriminate].
      destruct q; [congruence | discriminate].
  - rewrite (c_str_id _ Hnul) in He. rewrite <- app_assoc in He.
    set (body := fun (env : unit) =>
           ObjectReader_all n tt
             (fun _ val _ => r' <- Reader_copy val ;; Reader_skip_fuel f r') env).
    assert (Hvalue : forall pv qv more,
              enc v = pv ++ qv ->
              (forall st1, exists st' o,
                 (match qv with
                  | [] => body tt (mk_rstate more st1)
                  | _ => ret tt (mk_rstate [] st1)
                  end) = (mk_rstate [] st', o) /\
                 (o = Ok tt \/ exists msg, o = Throw (ParseError msg))) ->
              p = (map uchar key ++ [0]) ++ pv ++ (match qv with
                                                   | [] => more
                                                   | _ => []
                                                   end) ->
              exists st' o,
                (b <- ObjectReader_hasNext tt ;;
                 if (b : bool) then
                   kv <- ObjectReader_next tt ;;
                   env <- (r' <- Reader_copy (snd kv) ;; Reader_skip_fuel f r') ;;
                   body env
                 else ret tt) (mk_rstate p st)
                = (mk_rstate [] st', o) /\
                (o = Ok tt \/ exists msg, o = Throw (ParseError msg))).
    { intros pv qv more Hpq Hcont ->. rewrite !length_app in Hn, Hf.
      rewrite <- !app_assoc. cbn [app].
      rewrite (bind_ok _ _ _ _ _ (ObjectReader_hasNext_key _ _ st Hhead)).
      rewrite (bind_ok _ _ _ _ _ (ObjectReader_next_run _ _ st Hnul)).
      cbn [fst snd]. rewrite bind_assoc.
      rewrite (bind_ok _ _ _ _ _ (Reader_copy_fresh _ st true)).
      destruct qv as [| x qv].
      - rewrite app_nil_r in Hpq. subst pv.
        destruct (skip_enc v Hv Hk f (length (st ++ [true])) more
                    ((st ++ [true]) ++ [true]) (lookup_fresh _ _) ltac:(lia))
          as [e1 H1].
        rewrite (bind_ok _ _ _ _ _ H1). apply Hcont.
      - rewrite app_nil_r.
        destruct (Hrej pv (x :: qv) (length (st ++ [true]))
                    ((st ++ [true]) ++ [true]) Hpq ltac:(discriminate)
                    ltac:(lia) (lookup_fresh _ _)) as (st' & msg & H1).
        exists st', (Throw (ParseError msg)).
        split; [apply bind_throw; exact H1 | right; exists msg; reflexivity]. }
    apply app_eq_app in He as [l [[Hl Hq'] | [Hp Hrest]]].
    + destruct l as [| x l].
      { (* the cut is right after the entry *)
        rewrite app_nil_r in Hl. cbn [app] in Hq'.
        apply (Hvalue (enc v) [] []); [rewrite app_nil_r; reflexivity | |].
        - intros st1. unfold body.
          apply (IH n [] q st1); [symmetry; exact Hq' | exact Hq | |];
            cbn [length]; [| lia].
          rewrite <- Hl, !length_app in Hn. cbn [length] in Hn. lia.
        - rewrite app_nil_r. symmetry. exact Hl. }
      (* the cut is inside the entry *)
      apply app_eq_app in Hl as [l2 [[Hkey Hx] | [Hp Hval]]].
      * destruct l2 as [| y l2].
        { rewrite app_nil_r in Hkey. cbn [app] in Hx.
          apply (Hvalue [] (x :: l) []); [symmetry; exact Hx | |].
          - intros st1. exists st1, (Ok tt).
            split; [reflexivity | left; reflexivity].
          - rewrite !app_nil_r. symmetry. exact Hkey. }
        destruct (app_snoc_prefix _ _ _ _ Hkey ltac:(discriminate)) as [l3 Hl3].
        destruct p as [| c p].
        { exists st, (Ok tt). split; [reflexivity | left; reflexivity]. }
        pose proof (nonzero_map_uchar key Hnul) as Hnz.
        rewrite Hl3 in Hnz. apply Forall_app in Hnz as [Hnz _].
        assert (Hc : uchar c <> chr "}").
        { destruct key as [| k0 key']; [discriminate |].
          cbn [map app] in Hl3. injection Hl3 as <- _.
          rewrite uchar_idem. apply (Hhead k0 key' eq_refl). }
        rewrite (bind_ok _ _ _ _ _ (ObjectReader_hasNext_cons c p st Hc)).
        eexists st, _. split; [| right; eexists; reflexivity].
        apply bind_throw. unfold ObjectReader_next. apply bind_throw.
        unfold on_input. cbn [is_ rready_].
        rewrite (ObjectReader_next_loop_eof (c :: p) [] Hnz). reflexivity.
      * apply (Hvalue l2 (x :: l) []); [exact Hval | |].
        -- intros st1. exists st1, (Ok tt).
           split; [reflexivity | left; reflexivity].
        -- rewrite app_nil_r. exact Hp.
    + (* the whole entry is there *)
      apply (Hvalue (enc v) [] l); [rewrite app_nil_r; reflexivity | |].
      * intros st1. unfold body.
        apply (IH n l q st1 Hrest Hq).
        -- rewrite Hp, !length_app in Hn. cbn [length] in Hn. lia.
        -- rewrite Hp, !length_app in Hf. lia.
      * rewrite Hp, <- !app_assoc. reflexivity.
Qed.

(** [skip] rejects the encoding of a value cut short anywhere. *)
Lemma skip_prefix v :
  valid v -> keys_readable v -> forall f, rejects_prefixes f v.
Proof.
  induction v as [v Hs | vs IH | kvs IH] using Value_ind;
    intros Hv Hk f p q r st He Hq Hf Hr;
    (destruct f as [| f]; [lia |]).
  - destruct (skip_scalar_prefix v f r p q st Hs Hv He Hq Hr) as [msg H].
    exists st, msg. exact H.
  - destruct p as [| c p].
    { exists st. eexists. cbn [Reader_skip_fuel]. apply bind_throw.
      apply Reader_getType_eof. exact Hr. }
    cbn [enc app length] in He, Hf. injection He as <- He.
    pose proof (proj1 (valid_VArray vs) Hv) as Hvs.
    pose proof (proj1 (keys_readable_VArray vs) Hk) as Hks.
    assert (Helems : Forall (fun v => valid v /\ keys_readable v /\
                                      rejects_prefixes f v) vs).
    { rewrite Forall_forall in *. intros x Hx.
      split; [apply Hvs, Hx |]. split; [apply Hks, Hx |].
      apply (IH x Hx (Hvs x Hx) (Hks x Hx)). }
    destruct (skip_elements_prefix f vs Helems f p q (<[r := false]> st) He Hq
                ltac:(lia) ltac:(lia)) as (st' & o & Hrun & Ho).
    cbn [Reader_skip_fuel].
    rewrite (bind_ok _ _ _ _ _
               (proj1 (proj2 (proj2 (proj2 (proj2 (proj2 (proj2 (proj2 (proj2
                  (proj2 (Reader_getType_tags r p st Hr)))))))))))).
    unfold Reader_readArray. rewrite (Reader_getArray_enter r _ tt p st Hr).
    destruct Ho as [-> | [msg ->]].
    + rewrite (bind_ok _ _ _ _ _ Hrun). eexists _, _. reflexivity.
    + exists st', msg. apply bind_throw. exact Hrun.
  - destruct p as [| c p].
    { exists st. eexists. cbn [Reader_skip_fuel]. apply bind_throw.
      apply Reader_getType_eof. exact Hr. }
    cbn [enc app length] in He, Hf. injection He as <- He.
    pose proof (proj1 (valid_VObject kvs) Hv) as Hvs.
    pose proof (proj1 (keys_readable_VObject kvs) Hk) as Hks.
    assert (Hentries : Forall (fun kv =>
              Forall (fun c => uchar c <> 0) (fst kv) /\
              (forall c key', fst kv = c :: key' -> uchar c <> chr "}") /\
              valid (snd kv) /\ keys_readable (snd kv) /\
              rejects_prefixes f (snd kv)) kvs).
    { rewrite Forall_forall in *. intros x Hx.
      destruct (Hvs x Hx) as [Hnul Hvx]. destruct (Hks x Hx) as [Hhead Hkx].
      repeat split; try assumption.
      apply (IH x Hx Hvx Hkx). }
    destruct (skip_entries_prefix f kvs Hentries f p q (<[r := false]> st) He Hq
                ltac:(lia) ltac:(lia)) as (st' & o & Hrun & Ho).
    cbn [Reader_skip_fuel].
    rewrite (bind_ok _ _ _ _ _
               (proj2 (proj2 (proj2 (proj2 (proj2 (proj2 (proj2 (proj2 (proj2
                  (proj2 (Reader_getType_tags r p st Hr)))))))))))).
    unfold Reader_readObject. rewrite (Reader_getObject_enter r _ tt p st Hr).
    destruct Ho as [-> | [msg ->]].
    + rewrite (bind_ok _ _ _ _ _ Hrun). eexists _, _. reflexivity.
    + exists st', msg. apply bind_throw. exact Hrun.
Qed.

(** X23: a truncated encoding is never taken for a value.  Cut the bytes
    the writer produced for a valid value (no key beginning with ['}'])
    anywhere before their end, the empty prefix included: [skip] on what is
    left reads to the end of the input and throws a [ParseError], at any
    nesting depth. *)
Theorem truncated_value_is_format_error (v : Value) (p q : list Z)
    (r : Reader) (st : store) :
  valid v -> keys_readable v ->
  encode v = p ++ q -> q <> [] -> st !! r = Some true ->
  exists st' msg,
    Reader_skip r (mk_rstate p st) = (mk_rstate [] st', Throw (ParseError msg)).
Proof.
  intros Hv Hk He Hq Hr. rewrite encode_enc in He. unfold Reader_skip.
  cbn [is_]. apply (skip_prefix v Hv Hk (S (length p)) p q r st He Hq); [lia |].
  exact Hr.
Qed.

Lemma truncated_value_is_format_error_witness :
  exists st' msg,
    Reader_skip 0%nat
      (mk_rstate [chr "["; chr "5"; chr "{"; chr "x"; 0; chr "S"; chr "a"] [true])
    = (mk_rstate [] st', Throw (ParseError msg)).
Proof.
  apply (truncated_value_is_format_error sample_value
           [chr "["; chr "5"; chr "{"; chr "x"; 0; chr "S"; chr "a"]
           (skipn 7 (encode sample_value)) 0%nat [true]).
  - cbn. repeat split; try (apply Forall_nil; exact I);
      repeat (apply Forall_cons; split); try apply Forall_nil;
      try exact I; try discriminate; unfold INT64_MIN, INT64_MAX; try lia.
  - cbn. repeat split; intros c key' Heq; inversion Heq; subst; discriminate.
  - vm_compute. reflexivity.
  - vm_compute. discriminate.
  - reflexivity.
Defined.

(** X24: the encoding is self-delimiting.  When the encodings of two valid
    values (no key beginning with ['}']), each followed by any bytes, give
    the same stream, then the two encodings are the same bytes, what follows
    them is the same, and the two values are read back as the same value:
    they differ at most in what the wire does not record, the signedness of
    a non-negative integer and the width of a byte.  In particular no
    encoding is a proper prefix of another. *)
Theorem encoding_is_self_delimiting (v1 v2 : Value) (rest1 rest2 : list Z) :
  valid v1 -> keys_readable v1 -> valid v2 -> keys_readable v2 ->
  encode v1 ++ rest1 = encode v2 ++ rest2 ->
  encode v1 = encode v2 /\ rest1 = rest2 /\ canon v1 = canon v2.
Proof.
  intros Hv1 Hk1 Hv2 Hk2 He. rewrite !encode_enc in *.
  set (fuel := S (length (enc v1) + length (enc v2))).
  destruct (getValue_enc v1 Hv1 Hk1 fuel 0%nat rest1 [true] eq_refl
              ltac:(unfold fuel; lia)) as [e1 H1].
  destruct (getValue_enc v2 Hv2 Hk2 fuel 0%nat rest2 [true] eq_refl
              ltac:(unfold fuel; lia)) as [e2 H2].
  rewrite He, H2 in H1. injection H1 as Hrest _ Hcanon.
  subst rest2. apply app_inv_tail in He. auto.
Qed.

Lemma encoding_is_self_delimiting_witness :
  encode (VInt 5) = encode (VUInt 5) /\ [chr "N"] = [chr "N"] /\
  canon (VInt 5) = canon (VUInt 5).
Proof.
  apply (encoding_is_self_delimiting (VInt 5) (VUInt 5) [chr "N"] [chr "N"]).
  - cbn. unfold INT64_MIN, INT64_MAX. lia.
  - exact I.
  - cbn. lia.
  - exact I.
  - reflexivity.
Defined.
